(** * Object expressions: parsers, evaluation, rendering and differentiation

    A shallow embedding of [javascript/objectExpression.js]: the node
    model ([Const], [Variable], the operations registered through
    [createOperation]), the bracketed parser [parseWithBrackets] behind
    [parsePrefix] and [parsePostfix], and the flat stack parser [parse].

    Strings are sequences of code units; an [ascii] stands for the code
    unit of the same number (0..255).  Numbers are IEEE-754 binary64
    values, taken from the Standard Library's [SpecFloat]. *)

From Stdlib Require Import ZArith NArith PeanoNat Bool List Lia.
From Stdlib Require Import Ascii String DecimalString.
From Stdlib Require DecimalPos.
From Stdlib Require Import Floats.SpecFloat.
Import ListNotations.

Local Open Scope list_scope.
Local Open Scope string_scope.

(* ===================================================================== *)
(** ** The host: numbers *)
(* ===================================================================== *)

Module Host.

(** A JavaScript number: binary64, one NaN. *)
Definition number : Type := spec_float.

Definition prec : Z := 53.
Definition emax : Z := 1024.

Definition NaN : number := S754_nan.

(** The number nearest to a mathematical integer (ties to even). *)
Definition of_Z (z : Z) : number := binary_normalize prec emax z 0 false.
Definition of_nat (n : nat) : number := of_Z (Z.of_nat n).

Definition add : number -> number -> number := SFadd prec emax.
Definition sub : number -> number -> number := SFsub prec emax.
Definition mul : number -> number -> number := SFmul prec emax.
Definition div : number -> number -> number := SFdiv prec emax.
Definition neg : number -> number := SFopp.
Definition abs : number -> number := SFabs.

(** [Math.E], the binary64 value 0x4005BF0A8B145769. *)
Definition Math_E : number := S754_finite false 6121026514868073 (-51).

(** A value that [evaluate] can receive or return: arguments that are
    absent read as [undefined]. *)
Inductive value : Type :=
| VNumber (n : number)
| VUndefined.

(** ToNumber on the values above. *)
Definition ToNumber (v : value) : number :=
  match v with
  | VNumber n => n
  | VUndefined => NaN
  end.

(* ===================================================================== *)
(** ** The host: strings *)
(* ===================================================================== *)

Definition code (c : ascii) : N := N_of_ascii c.

(** The code units matched by [\s], removed by [trim] and skipped by the
    string-to-number conversion: TAB, LF, VT, FF, CR, SP and NBSP (the
    others lie above 255). *)
Definition isWhiteSpace (c : ascii) : bool :=
  let n := code c in
  ((9 <=? n) && (n <=? 13) || (n =? 32) || (n =? 160))%N.

Definition isDigit (c : ascii) : bool :=
  let n := code c in ((48 <=? n) && (n <=? 57))%N.

Definition digitValue (c : ascii) : Z := Z.of_N (code c) - 48.

Fixpoint trimStart (s : string) : string :=
  match s with
  | String c r => if isWhiteSpace c then trimStart r else s
  | EmptyString => EmptyString
  end.

Fixpoint trimEnd (s : string) : string :=
  match s with
  | String c r =>
      match trimEnd r with
      | EmptyString => if isWhiteSpace c then EmptyString else String c EmptyString
      | r' => String c r'
      end
  | EmptyString => EmptyString
  end.

Definition trim (s : string) : string := trimEnd (trimStart s).

(** [s.split(/\s+/)]: the pieces between maximal runs of white space; a
    run at either end leaves an empty piece there. *)
Fixpoint split_go (inSeparator : bool) (s : string) : list string :=
  match s with
  | EmptyString => [EmptyString]
  | String c r =>
      if isWhiteSpace c then
        if inSeparator then split_go true r else EmptyString :: split_go true r
      else
        match split_go false r with
        | t :: ts => String c t :: ts
        | [] => [String c EmptyString]
        end
  end.

Definition split_whitespace (s : string) : list string := split_go false s.

(** The longest prefix of [s] whose code units satisfy [p], and the rest. *)
Fixpoint span (p : ascii -> bool) (s : string) : string * string :=
  match s with
  | String c r =>
      if p c then let (a, b) := span p r in (String c a, b) else (EmptyString, s)
  | EmptyString => (EmptyString, EmptyString)
  end.

Definition isEmpty (s : string) : bool :=
  match s with EmptyString => true | _ => false end.

(** [s[0] === c], false on the empty string. *)
Definition startsWith (c : ascii) (s : string) : bool :=
  match s with
  | String a _ => Ascii.eqb a c
  | EmptyString => false
  end.

(** [s] without its first code unit. *)
Definition advance (s : string) : string :=
  match s with
  | String _ r => r
  | EmptyString => EmptyString
  end.

Definition dropSign (s : string) : string :=
  if startsWith "+" s || startsWith "-" s then advance s else s.

(** *** StringToNumber: which strings are numeric *)

Definition isBinaryDigit (c : ascii) : bool :=
  let n := code c in ((48 <=? n) && (n <=? 49))%N.
Definition isOctalDigit (c : ascii) : bool :=
  let n := code c in ((48 <=? n) && (n <=? 55))%N.
Definition isHexDigit (c : ascii) : bool :=
  let n := code c in
  ((48 <=? n) && (n <=? 57) || (65 <=? n) && (n <=? 70) || (97 <=? n) && (n <=? 102))%N.

(** At least one code unit, all of them satisfying [p]. *)
Definition allOf (p : ascii -> bool) (s : string) : bool :=
  let (a, b) := span p s in negb (isEmpty a) && isEmpty b.

(** ExponentPart, or nothing. *)
Definition isExponentOpt (s : string) : bool :=
  if isEmpty s then true
  else if startsWith "e" s || startsWith "E" s then allOf isDigit (dropSign (advance s))
  else false.

(** StrUnsignedDecimalLiteral. *)
Definition isUnsignedDecimal (s : string) : bool :=
  if String.eqb s "Infinity" then true
  else
    let (int, r1) := span isDigit s in
    if startsWith "." r1 then
      let (frac, r2) := span isDigit (advance r1) in
      negb (isEmpty int && isEmpty frac) && isExponentOpt r2
    else negb (isEmpty int) && isExponentOpt r1.

(** NonDecimalIntegerLiteral: a radix prefix and at least one digit. *)
Definition isNonDecimalInteger (s : string) : bool :=
  if startsWith "0" s then
    let r := advance s in
    if startsWith "b" r || startsWith "B" r then allOf isBinaryDigit (advance r)
    else if startsWith "o" r || startsWith "O" r then allOf isOctalDigit (advance r)
    else if startsWith "x" r || startsWith "X" r then allOf isHexDigit (advance r)
    else false
  else false.

(** [isNaN(s)] for a string [s]: the string is converted to a number,
    which is NaN exactly when the trimmed string is neither empty nor a
    StrNumericLiteral. *)
Definition isNaN (s : string) : bool :=
  let t := trim s in
  negb (isEmpty t || isUnsignedDecimal (dropSign t) || isNonDecimalInteger t).

(** *** parseInt *)

Definition hexValue (c : ascii) : Z :=
  let n := Z.of_N (code c) in
  if (97 <=? n)%Z then n - 87 else if (65 <=? n)%Z then n - 55 else n - 48.

Fixpoint digitsValue (radix : Z) (val : ascii -> Z) (acc : Z) (s : string) : Z :=
  match s with
  | String c r => digitsValue radix val (radix * acc + val c) r
  | EmptyString => acc
  end.

(** [parseInt(s)] with no radix argument: white space, a sign, [0x] or
    [0X] for radix 16, then the digits up to the first code unit that is
    not one. *)
Definition parseInt (s : string) : number :=
  let s1 := trimStart s in
  let negative := startsWith "-" s1 in
  let s2 := dropSign s1 in
  let hex :=
    startsWith "0" s2 && (startsWith "x" (advance s2) || startsWith "X" (advance s2)) in
  let digits :=
    if hex then fst (span isHexDigit (advance (advance s2)))
    else fst (span isDigit s2) in
  let mathInt :=
    if hex then digitsValue 16 hexValue 0 digits
    else digitsValue 10 digitValue 0 digits in
  if isEmpty digits then NaN
  else if (mathInt =? 0)%Z then S754_zero negative
  else of_Z (if negative then - mathInt else mathInt).

(** *** Number::toString (radix 10) *)

Definition decimal (z : Z) : string := NilEmpty.string_of_uint (N.to_uint (Z.to_N z)).

Fixpoint zeros (n : nat) : string :=
  match n with
  | O => EmptyString
  | S n' => String "0" (zeros n')
  end.

(** To compare the value [m * 2^e] with a decimal [s * 10^p] in integers,
    both are multiplied by [2^max(-e,0) * 10^max(-p,0)]: the first becomes
    [m * scaleValue e p], the second [s * scaleDecimal e p]. *)
Definition scaleValue (e p : Z) : Z := 2 ^ Z.max e 0 * 10 ^ Z.max (- p) 0.
Definition scaleDecimal (e p : Z) : Z := 10 ^ Z.max p 0 * 2 ^ Z.max (- e) 0.

(** The least [n] from [n] on with [m * 2^e < 10^n]. *)
Fixpoint magnitudeFrom (fuel : nat) (m e n : Z) : Z :=
  match fuel with
  | O => n
  | S fuel' =>
      if (m * scaleValue e n <? scaleDecimal e n)%Z then n
      else magnitudeFrom fuel' m e (n + 1)%Z
  end.

Definition magnitude (m e : Z) : Z :=
  let bits := (Z.log2 m + e)%Z in
  magnitudeFrom 700 m e (bits * 30102 / 100000 - 1)%Z.

(** The [k]-digit decimals next to [m * 2^e], if one of them reads back
    as that number: the nearer one, as [(s, n)] with value [s * 10^(n-k)]. *)
Definition shortestWith (m e n0 k : Z) : option (Z * Z) :=
  let p := (n0 - k)%Z in
  let a := scaleValue e p in
  let b := scaleDecimal e p in
  let v := (4 * m * a)%Z in
  let hi := (v + 2 * a)%Z in
  let lo := (if (m =? 2 ^ 52)%Z && (-1074 <? e)%Z then v - a else v - 2 * a)%Z in
  let inside c :=
    if Z.even m then ((lo <=? c) && (c <=? hi))%Z else ((lo <? c) && (c <? hi))%Z in
  let s1 := (m * a / b)%Z in
  let s2 := (s1 + 1)%Z in
  let c1 := (4 * s1 * b)%Z in
  let c2 := (4 * s2 * b)%Z in
  let normal s := if (s =? 10 ^ k)%Z then (10 ^ (k - 1), n0 + 1)%Z else (s, n0) in
  match inside c1, inside c2 with
  | true, true =>
      match (v - c1 ?= c2 - v)%Z with
      | Lt => Some (normal s1)
      | Gt => Some (normal s2)
      | Eq => Some (normal (if Z.even s1 then s1 else s2))
      end
  | true, false => Some (normal s1)
  | false, true => Some (normal s2)
  | false, false => None
  end.

Fixpoint shortestFrom (fuel : nat) (m e n0 k : Z) : Z * Z * Z :=
  match fuel with
  | O => (m, k, n0)
  | S fuel' =>
      match shortestWith m e n0 k with
      | Some (s, n) => (s, k, n)
      | None => shortestFrom fuel' m e n0 (k + 1)%Z
      end
  end.

(** The digits [s], their count [k] and the position [n] of the decimal
    point: the fewest digits that read back as [m * 2^e]. *)
Definition shortest (m e : Z) : Z * Z * Z :=
  shortestFrom 17 m e (magnitude m e) 1.

Definition formatDigits (s k n : Z) : string :=
  let ds := decimal s in
  if ((k <=? n) && (n <=? 21))%Z then ds ++ zeros (Z.to_nat (n - k))
  else if ((0 <? n) && (n <=? 21))%Z then
    substring 0 (Z.to_nat n) ds ++ "." ++ substring (Z.to_nat n) (Z.to_nat (k - n)) ds
  else if ((-6 <? n) && (n <=? 0))%Z then
    "0." ++ zeros (Z.to_nat (- n)) ++ ds
  else
    let e := (n - 1)%Z in
    let exponent := (if (e <? 0)%Z then "-" else "+") ++ decimal (Z.abs e) in
    if (k =? 1)%Z then ds ++ "e" ++ exponent
    else substring 0 1 ds ++ "." ++ substring 1 (Z.to_nat (k - 1)) ds ++ "e" ++ exponent.

(** The integer that [m * 2^e] is, when it is one and [e <= 0]: for a
    binary64 number this is the case of the integers below [2^53]. *)
Definition integerValue (m : positive) (e : Z) : option Z :=
  if ((e <=? 0) && (Zpos m mod 2 ^ (- e) =? 0))%Z then Some (Zpos m / 2 ^ (- e))%Z
  else None.

(** The digits of a finite number that is not zero: an integer below
    [2^53] is written with its own digits (no shorter decimal reads back
    as it), any other number with the fewest digits that do. *)
Definition finiteDigits (m : positive) (e : Z) : string :=
  match integerValue m e with
  | Some n => decimal n
  | None => let '(s, k, n) := shortest (Zpos m) e in formatDigits s k n
  end.

Definition Number_toString (x : number) : string :=
  match x with
  | S754_nan => "NaN"
  | S754_zero _ => "0"
  | S754_infinity false => "Infinity"
  | S754_infinity true => "-Infinity"
  | S754_finite sign m e => (if sign then "-" else "") ++ finiteDigits m e
  end.

End Host.

Import Host.

(* ===================================================================== *)
(** ** Outcomes *)
(* ===================================================================== *)

(** [ParseError] and its two subclasses.  An error is kept as the class
    and the two constructor arguments; [message] is the text the
    constructor of [ParseError] hands to [Error]. *)
Inductive errorClass : Type :=
| InvalidOperationError
| InvalidFormatError.

Inductive exn : Type :=
| ParseError (name : errorClass) (text : string) (pos : option nat)
| TypeError.


(** What running a piece of the program gives: a value, an exception, or
    [Diverge] when a function defined with fuel runs out of it. *)
Inductive outcome (A : Type) : Type :=
| Return (a : A)
| Throw (e : exn)
| Diverge.

Arguments Return {A} a.
Arguments Throw {A} e.
Arguments Diverge {A}.

Definition bind {A B : Type} (m : outcome A) (k : A -> outcome B) : outcome B :=
  match m with
  | Return a => k a
  | Throw e => Throw e
  | Diverge => Diverge
  end.

Notation "x <- m ;; k" := (bind m (fun x => k))
  (at level 61, m at next level, right associativity).
Notation "' p <- m ;; k" := (bind m (fun p => k))
  (at level 61, p pattern, m at next level, right associativity).

(** Left to right, stopping at the first that does not return. *)
Fixpoint sequence {A : Type} (l : list (outcome A)) : outcome (list A) :=
  match l with
  | [] => Return []
  | m :: rest => a <- m ;; r <- sequence rest ;; Return (a :: r)
  end.

(* ===================================================================== *)
(** ** Nodes and the table of operations *)
(* ===================================================================== *)

Definition vars : list string := ["x"; "y"; "z"].

(** The constructors made by [createOperation]. *)
Inductive operator : Type :=
| Add | Subtract | Negate | Multiply | Divide | Pow | Log | Mean | Var.

Definition operationString (o : operator) : string :=
  match o with
  | Add => "+"
  | Subtract => "-"
  | Negate => "negate"
  | Multiply => "*"
  | Divide => "/"
  | Pow => "pow"
  | Log => "log"
  | Mean => "mean"
  | Var => "var"
  end.

(** [res.arity = operation.length]: the number of declared parameters,
    none for the two functions that take [...args]. *)
Definition arity (o : operator) : nat :=
  match o with
  | Negate => 1
  | Mean | Var => 0
  | _ => 2
  end.

(** A node ([Variable_] is the source's [Variable]), or the empty plain
    object that [new Object()] makes ([parse] can build one, see
    [operations_get]). *)
#[warnings="-register-all"]
Inductive expr : Type :=
| Const (value : number)
| Variable_ (varName : string)
| Operation (o : operator) (operands : list expr)
| PlainObject.

(** What [operations[token]] holds.  [operations] is an object literal:
    next to the registered constructors it inherits the properties of
    [Object.prototype]. *)
Inductive property : Type :=
| Registered (o : operator)
| ObjectConstructor
| NotConstructor.

Definition registered : list operator :=
  [Add; Subtract; Negate; Multiply; Divide; Pow; Log; Mean; Var].

Definition inherited : list string :=
  ["hasOwnProperty"; "isPrototypeOf"; "propertyIsEnumerable";
   "toLocaleString"; "toString"; "valueOf"; "__proto__";
   "__defineGetter__"; "__defineSetter__"; "__lookupGetter__"; "__lookupSetter__"].

Definition includes (token : string) (l : list string) : bool :=
  existsb (String.eqb token) l.

Definition operations_get (token : string) : option property :=
  match find (fun o => String.eqb token (operationString o)) registered with
  | Some o => Some (Registered o)
  | None =>
      if String.eqb token "constructor" then Some ObjectConstructor
      else if includes token inherited then Some NotConstructor
      else None
  end.

(** [token in operations] *)
Definition in_operations (token : string) : bool :=
  match operations_get token with Some _ => true | None => false end.

(** [operations[token].arity]; [None] is [undefined]. *)
Definition property_arity (p : property) : option nat :=
  match p with
  | Registered o => Some (arity o)
  | _ => None
  end.

(** [new operations[token](...operands)] *)
Definition construct (p : property) (operands : list expr) : outcome expr :=
  match p with
  | Registered o => Return (Operation o operands)
  | ObjectConstructor =>
      match operands with
      | [] => Return PlainObject
      | first :: _ => Return first
      end
  | NotConstructor => Throw TypeError
  end.

Definition ZERO : expr := Const (of_Z 0).
Definition ONE : expr := Const (of_Z 1).
Definition TWO : expr := Const (of_Z 2).
Definition E : expr := Const Math_E.

(* ===================================================================== *)
(** ** evaluate *)
(* ===================================================================== *)

(** [vars.indexOf(name)] *)
Fixpoint indexOf (name : string) (l : list string) : Z :=
  match l with
  | [] => -1
  | s :: rest =>
      if String.eqb s name then 0
      else let i := indexOf name rest in if (i <? 0)%Z then -1 else i + 1
  end%Z.

(** [varValues[i]] *)
Definition at_index (varValues : list number) (i : Z) : value :=
  if (i <? 0)%Z then VUndefined
  else
    match nth_error varValues (Z.to_nat i) with
    | Some n => VNumber n
    | None => VUndefined
    end.

Section Evaluate.

(** [Math.pow] and [Math.log] are approximated by the host. *)
Variable Math_pow : number -> number -> number.
Variable Math_log : number -> number.

(** The [i]th argument of a call, as a number. *)
Definition argument (i : nat) (args : list value) : number :=
  ToNumber (nth i args VUndefined).

Definition avg (arr : list value) : number :=
  div (fold_left (fun x y => add x (ToNumber y)) arr (of_Z 0)) (of_nat (List.length arr)).

Definition square (x : value) : value :=
  VNumber (mul (ToNumber x) (ToNumber x)).

Definition operation (o : operator) (args : list value) : number :=
  let x := argument 0 args in
  let y := argument 1 args in
  match o with
  | Add => add x y
  | Subtract => sub x y
  | Negate => neg x
  | Multiply => mul x y
  | Divide => div x y
  | Pow => Math_pow x y
  | Log => div (Math_log (abs y)) (Math_log (abs x))
  | Mean => avg args
  | Var => sub (avg (map square args)) (ToNumber (square (VNumber (avg args))))
  end.

Fixpoint evaluate (e : expr) (varValues : list number) : outcome value :=
  match e with
  | Const value => Return (VNumber value)
  | Variable_ varName => Return (at_index varValues (indexOf varName vars))
  | Operation o operands =>
      vs <- sequence (map (fun operand => evaluate operand varValues) operands) ;;
      Return (VNumber (operation o vs))
  | PlainObject => Throw TypeError
  end.

End Evaluate.

(* ===================================================================== *)
(** ** toString, prefix, postfix *)
(* ===================================================================== *)

(** [arr.join(sep)] *)
Fixpoint join (sep : string) (arr : list string) : string :=
  match arr with
  | [] => ""
  | [s] => s
  | s :: rest => s ++ sep ++ join sep rest
  end.

Fixpoint toString (e : expr) : string :=
  match e with
  | Const value => Number_toString value
  | Variable_ varName => varName
  | Operation o operands =>
      join " " (map toString operands) ++ " " ++ operationString o
  | PlainObject => "[object Object]"
  end.

Fixpoint prefix (e : expr) : outcome string :=
  match e with
  | Const value => Return (Number_toString value)
  | Variable_ varName => Return varName
  | Operation o operands =>
      rs <- sequence (map prefix operands) ;;
      Return ("(" ++ operationString o ++ " " ++ join " " rs ++ ")")
  | PlainObject => Throw TypeError
  end.

Fixpoint postfix (e : expr) : outcome string :=
  match e with
  | Const value => Return (Number_toString value)
  | Variable_ varName => Return varName
  | Operation o operands =>
      rs <- sequence (map postfix operands) ;;
      Return ("(" ++ join " " rs ++ " " ++ operationString o ++ ")")
  | PlainObject => Throw TypeError
  end.

(* ===================================================================== *)
(** ** diff *)
(* ===================================================================== *)

Definition Square (x : expr) : expr := Operation Multiply [x; x].

(** [x.diff(varName)] for a parameter [x] of a derivative rule, then the
    rest of the rule with [x] and its derivative.  A missing operand is
    [undefined], which has no [diff]. *)
Definition withDiff (d : expr -> outcome expr) (x : option expr)
    (k : expr -> expr -> outcome expr) : outcome expr :=
  match x with
  | Some node => dx <- d node ;; k node dx
  | None => Throw TypeError
  end.

(** The derivative rules handed to [createOperation]; [d] is
    [node => node.diff(varName)], and the calls of [diff] come in the
    order in which the rule makes them. *)
Definition operationDerivative
    (o : operator) (d : expr -> outcome expr) (args : list expr) : outcome expr :=
  let x := nth_error args 0 in
  let y := nth_error args 1 in
  match o with
  | Add =>
      withDiff d x (fun _ dx => withDiff d y (fun _ dy =>
        Return (Operation Add [dx; dy])))
  | Subtract =>
      withDiff d x (fun _ dx => withDiff d y (fun _ dy =>
        Return (Operation Subtract [dx; dy])))
  | Negate =>
      withDiff d x (fun _ dx => Return (Operation Negate [dx]))
  | Multiply =>
      withDiff d x (fun x dx => withDiff d y (fun y dy =>
        Return (Operation Add
                  [Operation Multiply [dx; y]; Operation Multiply [x; dy]])))
  | Divide =>
      withDiff d x (fun x dx => withDiff d y (fun y dy =>
        Return (Operation Divide
                  [Operation Subtract
                     [Operation Multiply [dx; y]; Operation Multiply [x; dy]];
                   Operation Multiply [y; y]])))
  | Pow =>
      withDiff d x (fun x dx => withDiff d y (fun y dy =>
        Return (Operation Multiply
                  [Operation Pow [x; Operation Subtract [y; ONE]];
                   Operation Add
                     [Operation Multiply [y; dx];
                      Operation Multiply
                        [Operation Multiply [x; dy]; Operation Log [E; x]]]])))
  | Log =>
      withDiff d y (fun y dy => withDiff d x (fun x dx =>
        Return (Operation Divide
                  [Operation Subtract
                     [Operation Multiply
                        [Operation Multiply [Operation Log [E; x]; dy];
                         Operation Divide [ONE; y]];
                      Operation Multiply
                        [Operation Multiply [Operation Log [E; y]; dx];
                         Operation Divide [ONE; x]]];
                   Operation Multiply [Operation Log [E; x]; Operation Log [E; x]]])))
  | Mean =>
      ds <- d (fold_left (fun a b => Operation Add [a; b]) args ZERO) ;;
      Return (Operation Divide [ds; Const (of_nat (List.length args))])
  | Var =>
      d (Operation Subtract
           [Operation Mean (map Square args); Square (Operation Mean args)])
  end.

(** [e.diff(varName)].  The rules of [Mean] and [Var] differentiate a
    tree they have just built, so the recursion is counted by [fuel]. *)
Fixpoint diffFuel (fuel : nat) (e : expr) (varName : string) : outcome expr :=
  match fuel with
  | O => Diverge
  | S fuel' =>
      match e with
      | Const _ => Return ZERO
      | Variable_ name => Return (if String.eqb varName name then ONE else ZERO)
      | Operation o operands =>
          operationDerivative o (fun node => diffFuel fuel' node varName) operands
      | PlainObject => Throw TypeError
      end
  end.

(** How deep the calls of [diff] nest below a node, at most. *)
Fixpoint diffDepth (e : expr) : nat :=
  match e with
  | Operation o operands =>
      let m := list_max (map diffDepth operands) in
      match o with
      | Mean => List.length operands + 2 + m
      | Var => List.length operands + 5 + m
      | _ => 1 + m
      end
  | _ => 1
  end.

Definition diff (e : expr) (varName : string) : outcome expr :=
  diffFuel (diffDepth e) e varName.

(* ===================================================================== *)
(** ** parsePrefix and parsePostfix *)
(* ===================================================================== *)

(** What [parseToken] returns: a node, or the string of an operation. *)
Inductive parsedToken : Type :=
| Node (e : expr)
| OperationString (s : string).

(** The cursor is kept as [expression.substring(start)] and [start]. *)
Definition cursor : Type := (string * nat)%type.

Fixpoint skipWhitespaces (rest : string) (start : nat) : cursor :=
  match rest with
  | String c r => if isWhiteSpace c then skipWhitespaces r (S start) else (rest, start)
  | EmptyString => (rest, start)
  end.

Definition isTokenChar (c : ascii) : bool :=
  negb (isWhiteSpace c) && negb (Ascii.eqb c "(") && negb (Ascii.eqb c ")").

(** The second half of [parseToken]: what the characters read stand for. *)
Definition classify (token : string) (startPos : nat) : outcome parsedToken :=
  if isEmpty token then
    Throw (ParseError InvalidFormatError "Empty token" (Some startPos))
  else if includes token vars then Return (Node (Variable_ token))
  else if negb (isNaN token) then Return (Node (Const (parseInt token)))
  else if in_operations token then Return (OperationString token)
  else Throw (ParseError InvalidFormatError ("Unknown token: " ++ token) (Some startPos)).

(** [a !== n] for [a = operations[s].arity] *)
Definition differs (a : option nat) (n : nat) : bool :=
  match a with
  | Some k => negb (k =? n)%nat
  | None => true
  end.

Section ParseWithBrackets.

Variable operationAtStart : bool.

(** The end of [parseOperation], from the test on the number of
    operation strings on. *)
Definition checkOperation
    (startPos : nat) (tokens : list expr) (operationStrings : list (string * nat))
  : outcome expr :=
  match operationStrings with
  | [(operationString, index)] =>
      if negb (index =? (if operationAtStart then 0 else List.length tokens))%nat then
        Throw (ParseError InvalidOperationError
                 ("Invalid operation position (operation: " ++ operationString ++ ")")
                 (Some startPos))
      else
        let invalidAmount :=
          Throw (ParseError InvalidOperationError
                   ("Invalid amount of arguments ("
                      ++ decimal (Z.of_nat (List.length tokens))
                      ++ ") for operation " ++ operationString)
                   (Some startPos)) in
        if (List.length tokens =? 0)%nat then invalidAmount
        else
          match operations_get operationString with
          | None => Throw TypeError
          | Some p =>
              if differs (property_arity p) 0
                 && differs (property_arity p) (List.length tokens)
              then invalidAmount
              else construct p tokens
          end
  | _ =>
      Throw (ParseError InvalidOperationError
               ("Invalid expression (expected one operation per (...) block "
                  ++ "but parsed " ++ decimal (Z.of_nat (List.length operationStrings))
                  ++ " operations)")
               (Some startPos))
  end.

Fixpoint parseToken (fuel : nat) (rest : string) (start : nat)
  : outcome (parsedToken * cursor) :=
  match fuel with
  | O => Diverge
  | S fuel' =>
      let startPos := start in
      if startsWith "(" rest then
        '(e, cur) <- parseOperation fuel' rest start ;;
        Return (Node e, cur)
      else
        let (token, rest') := span isTokenChar rest in
        t <- classify token startPos ;;
        Return (t, (rest', start + String.length token))
  end

with parseOperation (fuel : nat) (rest : string) (start : nat)
  : outcome (expr * cursor) :=
  match fuel with
  | O => Diverge
  | S fuel' =>
      let startPos := start in
      let (rest1, start1) := skipWhitespaces (advance rest) (S start) in
      '(tokens, operationStrings, (rest2, start2)) <-
        parseOperands fuel' rest1 start1 [] [] ;;
      if startsWith ")" rest2 then
        e <- checkOperation startPos tokens operationStrings ;;
        Return (e, (advance rest2, S start2))
      else
        Throw (ParseError InvalidFormatError ") expected" (Some start2))
  end

(** The loop of [parseOperation]. *)
with parseOperands (fuel : nat) (rest : string) (start : nat)
       (tokens : list expr) (operationStrings : list (string * nat))
  : outcome (list expr * list (string * nat) * cursor) :=
  match fuel with
  | O => Diverge
  | S fuel' =>
      if isEmpty rest || startsWith ")" rest then
        Return (tokens, operationStrings, (rest, start))
      else
        '(curToken, (rest1, start1)) <- parseToken fuel' rest start ;;
        let (rest2, start2) := skipWhitespaces rest1 start1 in
        match curToken with
        | OperationString s =>
            parseOperands fuel' rest2 start2 tokens
              (operationStrings ++ [(s, List.length tokens)])%list
        | Node e =>
            parseOperands fuel' rest2 start2 (tokens ++ [e])%list operationStrings
        end
  end.

Definition parseWithBrackets (expression : string) : outcome expr :=
  let (rest, start) := skipWhitespaces expression 0 in
  '(res, (rest1, start1)) <-
    parseToken (3 * String.length expression + 3) rest start ;;
  let (rest2, start2) := skipWhitespaces rest1 start1 in
  if negb (isEmpty rest2) then
    Throw (ParseError InvalidFormatError "Expected end of expression" (Some start2))
  else
    match res with
    | OperationString _ =>
        Throw (ParseError InvalidFormatError
                 "Invalid expression which contains only operation" None)
    | Node e => Return e
    end.

End ParseWithBrackets.

Definition parsePrefix : string -> outcome expr := parseWithBrackets true.
Definition parsePostfix : string -> outcome expr := parseWithBrackets false.

(* ===================================================================== *)
(** ** parse *)
(* ===================================================================== *)

(** [stack.splice(start)]: what stays and what is removed.  [None] is a
    start that is NaN, which counts as 0. *)
Definition splice (stack : list expr) (start : option Z) : list expr * list expr :=
  let len := Z.of_nat (List.length stack) in
  let relativeStart := match start with Some z => z | None => 0%Z end in
  let actualStart :=
    if (relativeStart <? 0)%Z then Z.max (len + relativeStart) 0
    else Z.min relativeStart len in
  (firstn (Z.to_nat actualStart) stack, skipn (Z.to_nat actualStart) stack).

(** One turn of the loop of [parse]. *)
Definition parseStep (stack : list expr) (token : string) : outcome (list expr) :=
  match operations_get token with
  | Some p =>
      let start :=
        option_map (fun a => Z.of_nat (List.length stack) - Z.of_nat a)%Z
                   (property_arity p) in
      let (kept, removed) := splice stack start in
      node <- construct p removed ;;
      Return (kept ++ [node])%list
  | None =>
      if includes token vars then Return (stack ++ [Variable_ token])%list
      else if negb (isNaN token) then Return (stack ++ [Const (parseInt token)])%list
      else Return stack
  end.

Fixpoint parseTokens (stack : list expr) (tokens : list string) : outcome (list expr) :=
  match tokens with
  | [] => Return stack
  | token :: rest => stack' <- parseStep stack token ;; parseTokens stack' rest
  end.

(** [parse(expression)]; [None] is [undefined]. *)
Definition parse (expression : string) : outcome (option expr) :=
  stack <- parseTokens [] (split_whitespace (trim expression)) ;;
  Return (nth_error stack 0).

(** [parse(expression).evaluate(...varValues)]: nothing can be called on
    [undefined]. *)
Definition parseAndEvaluate
    (Math_pow : number -> number -> number) (Math_log : number -> number)
    (expression : string) (varValues : list number) : outcome value :=
  r <- parse expression ;;
  match r with
  | Some e => evaluate Math_pow Math_log e varValues
  | None => Throw TypeError
  end.

(* ===================================================================== *)
(** ** What the properties are about *)
(* ===================================================================== *)

Definition invalidAmount (startPos count : nat) (operationString : string) : exn :=
  ParseError InvalidOperationError
    ("Invalid amount of arguments (" ++ decimal (Z.of_nat count)
       ++ ") for operation " ++ operationString)
    (Some startPos).

Definition invalidPosition (startPos : nat) (operationString : string) : exn :=
  ParseError InvalidOperationError
    ("Invalid operation position (operation: " ++ operationString ++ ")")
    (Some startPos).

(** [a] is [b], unless the fuel ran out in [a]. *)
Definition upTo {A : Type} (a b : outcome A) : Prop := a = Diverge \/ a = b.

Fixpoint allChars (p : ascii -> bool) (s : string) : bool :=
  match s with
  | String c r => p c && allChars p r
  | EmptyString => true
  end.

(** The input goes on with something that ends a token, or is over. *)
Definition delimited (rest : string) : bool :=
  match rest with
  | String c _ => negb (isTokenChar c)
  | EmptyString => true
  end.

(** The trees of [parsePrefix] and [parsePostfix]: the variables are
    those of [vars], and an operation has at least one operand and as
    many as its arity, or any number when its arity is 0. *)
Definition arityRespected (o : operator) (count : nat) : bool :=
  (1 <=? count)%nat && ((arity o =? 0)%nat || (arity o =? count)%nat).

Fixpoint parsed (e : expr) : bool :=
  match e with
  | Const _ => true
  | Variable_ name => includes name vars
  | Operation o operands =>
      arityRespected o (List.length operands) && forallb parsed operands
  | PlainObject => false
  end.

(** Every [Operation] node in [e] has a number of operands that agrees
    with the arity of its operation. *)
Fixpoint operandCounts (e : expr) : bool :=
  match e with
  | Operation o operands =>
      arityRespected o (List.length operands) && forallb operandCounts operands
  | _ => true
  end.

Definition tokenOk (t : parsedToken) : Prop :=
  match t with
  | Node e => parsed e = true
  | OperationString s => in_operations s = true
  end.

(** A [ParseError] with an offset, which is at most [len]. *)
Definition positioned (len : nat) (e : exn) : Prop :=
  exists name text pos, e = ParseError name text (Some pos) /\ pos <= len.

Definition operationStringsOk (operationStrings : list (string * nat)) : Prop :=
  Forall (fun so => in_operations (fst so) = true) operationStrings.

(** What [parseToken], [parseOperation] and the loop of [parseOperation]
    give on an input of [len] characters, of which [rest] is left: the
    cursor stays within the input and moves on, the nodes are [parsed],
    an error holds an offset of the input, and the fuel runs out only
    when it is less than three per character left. *)
Definition tokenSpec (len fuel : nat) (rest : string)
    (r : outcome (parsedToken * cursor)) : Prop :=
  match r with
  | Return (t, (rest', start')) =>
      tokenOk t /\ start' + String.length rest' = len
      /\ String.length rest' < String.length rest
  | Throw e => positioned len e
  | Diverge => fuel < Nat.max 1 (3 * String.length rest)
  end.

Definition operationSpec (len fuel : nat) (rest : string)
    (r : outcome (expr * cursor)) : Prop :=
  match r with
  | Return (e, (rest', start')) =>
      parsed e = true /\ start' + String.length rest' = len
      /\ String.length rest' < String.length rest
  | Throw e => positioned len e
  | Diverge => fuel + 1 < 3 * String.length rest
  end.

Definition operandsSpec (len fuel : nat) (rest : string)
    (r : outcome (list expr * list (string * nat) * cursor)) : Prop :=
  match r with
  | Return (tokens, operationStrings, (rest', start')) =>
      forallb parsed tokens = true /\ operationStringsOk operationStrings
      /\ start' + String.length rest' = len
      /\ String.length rest' <= String.length rest
  | Throw e => positioned len e
  | Diverge => fuel < 3 * String.length rest + 1
  end.

Definition onlyOperation : exn :=
  ParseError InvalidFormatError "Invalid expression which contains only operation" None.

(** The text of a node: [prefix] when the operation comes first,
    [postfix] when it comes last. *)
Fixpoint render (operationAtStart : bool) (e : expr) : string :=
  match e with
  | Const value => Number_toString value
  | Variable_ varName => varName
  | Operation o operands =>
      let rs := map (render operationAtStart) operands in
      if operationAtStart then "(" ++ operationString o ++ " " ++ join " " rs ++ ")"
      else "(" ++ join " " rs ++ " " ++ operationString o ++ ")"
  | PlainObject => ""
  end.

(** The node that comes back when the text of [e] is parsed: a constant
    is read from its text by [parseInt]. *)
Fixpoint reread (e : expr) : expr :=
  match e with
  | Const value => Const (parseInt (Number_toString value))
  | Operation o operands => Operation o (map reread operands)
  | _ => e
  end.

(** The text of the constant is one token, which is read as a number,
    and the number read has the same text. *)
Definition stableConstant (value : number) : bool :=
  let text := Number_toString value in
  negb (isEmpty text) && allChars isTokenChar text
  && negb (includes text vars) && negb (isNaN text)
  && String.eqb (Number_toString (parseInt text)) text.

Fixpoint stableConstants (e : expr) : bool :=
  match e with
  | Const value => stableConstant value
  | Operation _ operands => forallb stableConstants operands
  | _ => true
  end.

(** The text begins an item of a group: neither white space nor [")"]. *)
Definition opensItem (s : string) : bool :=
  match s with
  | String c _ => negb (isWhiteSpace c) && negb (Ascii.eqb c ")")
  | EmptyString => false
  end.

(** [parseToken] reads [item] in front of anything that ends a token,
    and returns [t]; [fuel0] units of fuel are enough. *)
Definition reads (operationAtStart : bool) (item : string) (t : parsedToken) : Prop :=
  opensItem item = true
  /\ exists fuel0, forall rest start fuel,
      delimited rest = true -> fuel0 <= fuel ->
      exists start',
        parseToken operationAtStart fuel (item ++ rest) start = Return (t, (rest, start')).

(** What the loop of [parseOperation] does with what [parseToken] returned. *)
Definition collectOne (state : list expr * list (string * nat)) (t : parsedToken)
  : list expr * list (string * nat) :=
  let (tokens, operationStrings) := state in
  match t with
  | OperationString s => (tokens, (operationStrings ++ [(s, List.length tokens)])%list)
  | Node e => ((tokens ++ [e])%list, operationStrings)
  end.

Definition collect (state : list expr * list (string * nat)) (ts : list parsedToken)
  : list expr * list (string * nat) :=
  fold_left collectOne ts state.

(** The text of a group in which the string of [o] is the item of index
    [index] among the texts of the operands: [prefix] puts it at index
    0, [postfix] after the last operand. *)
Definition groupItems (o : operator) (texts : list string) (index : nat) : list string :=
  (firstn index texts ++ operationString o :: skipn index texts)%list.

Definition groupText (o : operator) (texts : list string) (index : nat) : string :=
  "(" ++ join " " (groupItems o texts index) ++ ")".

(** The tree holds nodes only, no plain object. *)
Fixpoint nodesOnly (e : expr) : bool :=
  match e with
  | Operation _ operands => forallb nodesOnly operands
  | PlainObject => false
  | _ => true
  end.

(** Only white space. *)
Definition whitespace (ws : string) : bool := allChars isWhiteSpace ws.

(** The input is over, or goes on with a closing bracket. *)
Definition closes (rest : string) : bool := isEmpty rest || startsWith ")" rest.

(** No operation of any number of arguments ([mean], [var]) in the tree. *)
Fixpoint fixedArities (e : expr) : bool :=
  match e with
  | Operation o operands => negb (arity o =? 0)%nat && forallb fixedArities operands
  | _ => true
  end.

(** The tokens that [toString] puts one after the other. *)
Fixpoint tokensOf (e : expr) : list string :=
  match e with
  | Const value => [Number_toString value]
  | Variable_ varName => [varName]
  | Operation o operands => (List.concat (map tokensOf operands) ++ [operationString o])%list
  | PlainObject => ["[object"; "Object]"]
  end.

(** Not empty, and neither white space nor a bracket in it. *)
Definition isToken (t : string) : bool := negb (isEmpty t) && allChars isTokenChar t.

(** The tokens of a text as [parsePrefix] and [parsePostfix] scan it:
    each bracket, and each longest run of characters that are neither
    brackets nor white space. *)
Fixpoint lex (s : string) : list string :=
  match s with
  | EmptyString => []
  | String c r =>
      if isWhiteSpace c then lex r
      else if isTokenChar c && negb (delimited r) then
        match lex r with
        | t :: ts => String c t :: ts
        | [] => [String c ""]
        end
      else String c "" :: lex r
  end.

(** No white space in front: what [skipWhitespaces] leaves. *)
Definition skipped (rest : string) : bool :=
  match rest with
  | String c _ => negb (isWhiteSpace c)
  | EmptyString => true
  end.

(** The same error, but for the offset. *)
Definition sameError (e1 e2 : exn) : Prop :=
  match e1, e2 with
  | ParseError name1 text1 _, ParseError name2 text2 _ => name1 = name2 /\ text1 = text2
  | TypeError, TypeError => True
  | _, _ => False
  end.

(** Two outcomes of the same kind: results related by [R], or errors
    that are the same but for the offset. *)
Definition alike {A : Type} (R : A -> A -> Prop) (r1 r2 : outcome A) : Prop :=
  match r1, r2 with
  | Return a1, Return a2 => R a1 a2
  | Throw e1, Throw e2 => sameError e1 e2
  | Diverge, Diverge => True
  | _, _ => False
  end.

(** The same result, with the same tokens left to read. *)
Definition sameResult {A : Type} (a1 a2 : A * cursor) : Prop :=
  fst a1 = fst a2 /\ lex (fst (snd a1)) = lex (fst (snd a2)).

Definition sameOperands (a1 a2 : list expr * list (string * nat) * cursor) : Prop :=
  sameResult a1 a2
  /\ skipped (fst (snd a1)) = true /\ skipped (fst (snd a2)) = true.

(** An item written in a group: the text of a node, or a property name
    of [operations]. *)
Definition itemText (operationAtStart : bool) (t : parsedToken) : string :=
  match t with
  | Node e => render operationAtStart e
  | OperationString s => s
  end.

(** What [parseToken] gives for the item. *)
Definition itemRead (t : parsedToken) : parsedToken :=
  match t with
  | Node e => Node (reread e)
  | OperationString s => OperationString s
  end.

Definition itemOk (t : parsedToken) : bool :=
  match t with
  | Node e => parsed e && stableConstants e
  | OperationString s => in_operations s
  end.

(** The same number, bit for bit (as [Object.is], but for NaN payloads,
    of which there is one here). *)
Definition sameNumber (a b : number) : bool :=
  match a, b with
  | S754_zero s1, S754_zero s2 => Bool.eqb s1 s2
  | S754_infinity s1, S754_infinity s2 => Bool.eqb s1 s2
  | S754_nan, S754_nan => true
  | S754_finite s1 m1 e1, S754_finite s2 m2 e2 =>
      Bool.eqb s1 s2 && Pos.eqb m1 m2 && Z.eqb e1 e2
  | _, _ => false
  end.

(** The text of the constant is read back as the constant itself. *)
Definition exactConstant (value : number) : bool :=
  stableConstant value && sameNumber (parseInt (Number_toString value)) value.

Fixpoint exactConstants (e : expr) : bool :=
  match e with
  | Const value => exactConstant value
  | Operation _ operands => forallb exactConstants operands
  | _ => true
  end.





(** *** The texts the bracketed parsers read, and the places of their errors *)

(** [s], or what comes after it when [s] is empty, begins with
    something that ends a token; [d] says so of what comes after. *)
Definition delimitedThen (s : string) (d : bool) : bool :=
  match s with
  | String c _ => negb (isTokenChar c)
  | EmptyString => d
  end.

(** An item ends where it should: a group at its closing bracket, a
    token at a character that is no part of a token. *)
Definition sep (it following : string) (d : bool) : bool :=
  startsWith "(" it || delimitedThen following d.

(** [item b it t]: the text [it] is one item, read as [t]: a token that
    [classify] takes for a node or an operation string, or a group
    ["(" ws item ws ... item ws ")"] on whose operands and operation
    strings the checks at the closing bracket give a node.
    [items b body d ts]: [body] is a sequence of items, each followed
    by white space, read as [ts]. *)
Inductive item (b : bool) : string -> parsedToken -> Prop :=
| item_token (tok : string) (t : parsedToken) :
    isToken tok = true -> classify tok 0 = Return t -> item b tok t
| item_group (ws body : string) (ts : list parsedToken) (e : expr) :
    whitespace ws = true -> items b body true ts ->
    checkOperation b 0 (fst (collect ([], []) ts)) (snd (collect ([], []) ts))
    = Return e ->
    item b ("(" ++ ws ++ body ++ ")") (Node e)
with items (b : bool) : string -> bool -> list parsedToken -> Prop :=
| items_nil (d : bool) : items b "" d []
| items_cons (it ws body : string) (d : bool) (t : parsedToken)
             (ts : list parsedToken) :
    item b it t -> whitespace ws = true -> sep it (ws ++ body) d = true ->
    items b body d ts ->
    items b (it ++ ws ++ body) d (t :: ts).

Scheme item_mut := Minimality for item Sort Prop
  with items_mut := Minimality for items Sort Prop.

Combined Scheme item_items_ind from item_mut, items_mut.

(** [failsAt b rest name text k]: the text [rest] begins with what
    makes [parseToken] throw the error [name], [text], and [k] is the
    offset of the offence in [rest]:
    - an unknown token stands first, at 0;
    - a group stands first whose items are all read and on which the
      checks at the closing bracket throw the error: 0, the offset of
      its opening bracket;
    - a group is opened, its items are all read, and the input is over
      where its closing bracket should stand: the length of [rest];
    - a group is opened, some of its items are read, and what follows
      them fails in one of these ways: the offset of that place. *)
Inductive failsAt (b : bool) : string -> errorClass -> string -> nat -> Prop :=
| fails_unknown (tok rest : string) :
    isToken tok = true -> delimited rest = true ->
    includes tok vars = false -> isNaN tok = true -> in_operations tok = false ->
    failsAt b (tok ++ rest) InvalidFormatError ("Unknown token: " ++ tok) 0
| fails_check (ws body rest : string) (ts : list parsedToken)
              (name : errorClass) (text : string) :
    whitespace ws = true -> items b body true ts ->
    checkOperation b 0 (fst (collect ([], []) ts)) (snd (collect ([], []) ts))
    = Throw (ParseError name text (Some 0)) ->
    failsAt b ("(" ++ ws ++ body ++ ")" ++ rest) name text 0
| fails_open (ws body : string) (ts : list parsedToken) :
    whitespace ws = true -> items b body true ts ->
    failsAt b ("(" ++ ws ++ body) InvalidFormatError ") expected"
            (1 + String.length ws + String.length body)
| fails_inside (ws body post : string) (ts : list parsedToken)
               (name : errorClass) (text : string) (k : nat) :
    whitespace ws = true -> items b body (delimited post) ts ->
    failsAt b post name text k ->
    failsAt b ("(" ++ ws ++ body ++ post) name text
            (1 + String.length ws + String.length body + k).

(** [errorAt b expression name text pos]: [pos] is the offending offset
    of [expression] for the error [name], [text]:
    - [Empty token]: after the leading white space the input is over,
      or a closing bracket stands there;
    - the errors of [failsAt], after the leading white space;
    - [Expected end of expression]: after the leading white space
      stands one item, then white space, then the character at [pos]. *)
Inductive errorAt (b : bool) : string -> errorClass -> string -> nat -> Prop :=
| error_empty (lead rest : string) :
    whitespace lead = true -> closes rest = true ->
    errorAt b (lead ++ rest) InvalidFormatError "Empty token" (String.length lead)
| error_within (lead rest : string) (name : errorClass) (text : string) (k : nat) :
    whitespace lead = true -> failsAt b rest name text k ->
    errorAt b (lead ++ rest) name text (String.length lead + k)
| error_trailing (lead it ws rest : string) (t : parsedToken) :
    whitespace lead = true -> item b it t -> whitespace ws = true ->
    sep it (ws ++ rest) true = true -> isEmpty rest = false -> skipped rest = true ->
    errorAt b (lead ++ it ++ ws ++ rest) InvalidFormatError
            "Expected end of expression"
            (String.length lead + String.length it + String.length ws).




(* ===================================================================== *)
(** * Properties *)
(* ===================================================================== *)

(** ** Variables *)

Lemma indexOf_absent (name : string) (l : list string) :
  ~ In name l -> indexOf name l = (-1)%Z.
Proof.
  induction l as [|s l IH]; simpl; intros H; [reflexivity|].
  destruct (String.eqb_spec s name) as [->|_].
  - exfalso. apply H. now left.
  - rewrite IH by tauto. reflexivity.
Qed.

(** C9 (as stated, refuted): a name outside [vars] makes [evaluate]
    return [undefined]; nothing is thrown. *)
Lemma evaluate_unknown_variable_no_error :
  ~ (forall Math_pow Math_log name varValues,
        ~ In name vars ->
        exists e, evaluate Math_pow Math_log (Variable_ name) varValues = Throw e).
Proof.
  intros H.
  destruct (H (fun _ _ => NaN) (fun _ => NaN) "w" [of_Z 1; of_Z 2; of_Z 3]) as [e He].
  - simpl. intros [H1|[H1|[H1|[]]]]; discriminate H1.
  - discriminate He.
Qed.

(** C9 (amended): for a variable whose name is the [i]th of [vars],
    [evaluate] returns the [i]th of the values it is given, [undefined]
    when there are not that many; for a name that is not in [vars] it
    returns [undefined], and in neither case is anything thrown. *)
Theorem evaluate_variable :
  forall Math_pow Math_log (name : string) (varValues : list number),
    (forall i, nth_error vars i = Some name ->
       evaluate Math_pow Math_log (Variable_ name) varValues
       = Return (match nth_error varValues i with
                 | Some v => VNumber v
                 | None => VUndefined
                 end))
    /\ (~ In name vars ->
        evaluate Math_pow Math_log (Variable_ name) varValues = Return VUndefined).
Proof.
  intros Math_pow Math_log name varValues. split.
  - intros i Hi.
    destruct i as [|[|[|i]]]; simpl in Hi;
      [injection Hi as <- .. | destruct i; discriminate Hi]; reflexivity.
  - intros H. cbn [evaluate]. rewrite (indexOf_absent _ _ H). reflexivity.
Qed.

Lemma evaluate_variable_witness :
  evaluate (fun _ _ => NaN) (fun _ => NaN) (Variable_ "y") [of_Z 4; of_Z 5; of_Z 6]
  = Return (VNumber (of_Z 5))
  /\ evaluate (fun _ _ => NaN) (fun _ => NaN) (Variable_ "w") [of_Z 4; of_Z 5; of_Z 6]
     = Return VUndefined.
Proof.
  split.
  - apply (proj1 (evaluate_variable (fun _ _ => NaN) (fun _ => NaN) "y"
                    [of_Z 4; of_Z 5; of_Z 6]) 1).
    reflexivity.
  - apply (proj2 (evaluate_variable (fun _ _ => NaN) (fun _ => NaN) "w"
                    [of_Z 4; of_Z 5; of_Z 6])).
    simpl. intros [H|[H|[H|[]]]]; discriminate H.
Defined.

(** ** The flat parser and the operations of any number of arguments *)

Lemma splice_at_length (stack : list expr) :
  splice stack (Some (Z.of_nat (List.length stack) - Z.of_nat 0)%Z) = (stack, []).
Proof.
  unfold splice.
  replace (Z.of_nat (List.length stack) - Z.of_nat 0)%Z
    with (Z.of_nat (List.length stack)) by (simpl; lia).
  destruct (Z.ltb_spec (Z.of_nat (List.length stack)) 0); [lia|].
  rewrite Z.min_id, Nat2Z.id, firstn_all, skipn_all. reflexivity.
Qed.

(** C1 (as stated, refuted): [parse("2 3 6 mean")] does not evaluate to 3. *)
Lemma parse_mean_flat_not_3 :
  ~ (forall Math_pow Math_log,
        parseAndEvaluate Math_pow Math_log "2 3 6 mean" [] = Return (VNumber (of_Z 3))).
Proof.
  intros H. specialize (H (fun _ _ => NaN) (fun _ => NaN)).
  vm_compute in H. discriminate H.
Qed.

(** C1 (amended): in the flat parser [mean] and [var] take nothing off
    the stack, their node is pushed with no operands and the operands
    listed stay below it; [parse("2 3 6 mean")] and [parse("2 5 11 var")]
    both evaluate to 2, the first operand.  The statistical value is what
    the bracketed parser gives: [parsePostfix("(2 5 11 var)")] evaluates
    to 14, [parsePostfix("(1 2 6 mean)")] to 3 and
    [parsePostfix("(2 3 6 mean)")] to 11/3. *)
Theorem parse_variadic_takes_no_operands :
  forall Math_pow Math_log,
    (forall stack,
        parseStep stack "mean" = Return (stack ++ [Operation Mean []])%list
        /\ parseStep stack "var" = Return (stack ++ [Operation Var []])%list)
    /\ parseAndEvaluate Math_pow Math_log "2 3 6 mean" [] = Return (VNumber (of_Z 2))
    /\ parseAndEvaluate Math_pow Math_log "2 5 11 var" [] = Return (VNumber (of_Z 2))
    /\ (e <- parsePostfix "(2 5 11 var)" ;; evaluate Math_pow Math_log e [])
       = Return (VNumber (of_Z 14))
    /\ (e <- parsePostfix "(1 2 6 mean)" ;; evaluate Math_pow Math_log e [])
       = Return (VNumber (of_Z 3))
    /\ (e <- parsePostfix "(2 3 6 mean)" ;; evaluate Math_pow Math_log e [])
       = Return (VNumber (div (of_Z 11) (of_Z 3))).
Proof.
  intros Math_pow Math_log. split; [|split; [|split; [|split; [|split]]]].
  - intros stack. unfold parseStep.
    change (operations_get "mean") with (Some (Registered Mean)).
    change (operations_get "var") with (Some (Registered Var)).
    cbn [property_arity arity option_map].
    rewrite splice_at_length. split; reflexivity.
  - vm_compute. reflexivity.
  - vm_compute. reflexivity.
  - vm_compute. reflexivity.
  - vm_compute. reflexivity.
  - vm_compute. reflexivity.
Qed.

(** ** What [parse] can throw *)

Lemma parseStep_outcome (stack : list expr) (token : string) :
  (exists stack', parseStep stack token = Return stack')
  \/ (operations_get token = Some NotConstructor
      /\ parseStep stack token = Throw TypeError).
Proof.
  unfold parseStep.
  destruct (operations_get token) as [p|].
  - destruct (splice stack _) as [kept removed].
    destruct p as [o| |]; cbn [construct bind].
    + left. eauto.
    + left. destruct removed; cbn [bind]; eauto.
    + right. split; reflexivity.
  - left. destruct (includes token vars); [eauto|].
    destruct (negb (isNaN token)); eauto.
Qed.

Lemma parseTokens_outcome (tokens : list string) :
  forall stack,
    (exists stack', parseTokens stack tokens = Return stack')
    \/ (parseTokens stack tokens = Throw TypeError
        /\ exists token, In token tokens /\ operations_get token = Some NotConstructor).
Proof.
  induction tokens as [|token tokens IH]; intros stack; cbn [parseTokens].
  - left. eauto.
  - destruct (parseStep_outcome stack token) as [[stack' ->]|[Hin ->]]; cbn [bind].
    + destruct (IH stack') as [H|[H [t [Ht1 Ht2]]]]; [left; exact H|].
      right. split; [exact H|]. exists t. split; [now right | exact Ht2].
    + right. split; [reflexivity|]. exists token. split; [now left | exact Hin].
Qed.

(** C10: [parse("toString")] does not return: [operations] inherits
    [toString] from [Object.prototype], so the token counts as an
    operation, and what it names cannot be constructed.  For every input
    [parse] either returns or throws this [TypeError], never a
    [ParseError], and it returns whenever no token names an inherited
    property that is not a constructor. *)
Theorem parse_inherited_name_throws :
  parse "toString" = Throw TypeError
  /\ (forall expression,
        (exists r, parse expression = Return r)
        \/ (parse expression = Throw TypeError
            /\ exists token,
                In token (split_whitespace (trim expression))
                /\ operations_get token = Some NotConstructor)).
Proof.
  split; [reflexivity|].
  intros expression. unfold parse.
  destruct (parseTokens_outcome (split_whitespace (trim expression)) [])
    as [[stack ->]|[-> H]]; cbn [bind].
  - left. eauto.
  - right. split; [reflexivity | exact H].
Qed.

(** ** The checks at the closing bracket *)

Lemma operations_get_registered (o : operator) :
  operations_get (operationString o) = Some (Registered o).
Proof. destruct o; reflexivity. Qed.

(** The test on the number of operands, once the operation string has
    been found where it must be. *)
Lemma checkOperation_amount (operationAtStart : bool) (startPos : nat)
      (tokens : list expr) (o : operator) :
  checkOperation operationAtStart startPos tokens
    [(operationString o, if operationAtStart then 0 else List.length tokens)]
  = if arityRespected o (List.length tokens)
    then Return (Operation o tokens)
    else Throw (invalidAmount startPos (List.length tokens) (operationString o)).
Proof.
  unfold checkOperation, invalidAmount, arityRespected.
  rewrite Nat.eqb_refl. cbn [negb].
  destruct (List.length tokens) as [|n] eqn:Hn; [reflexivity|].
  cbn [Nat.eqb Nat.leb andb].
  rewrite operations_get_registered. cbn [property_arity construct].
  destruct o; cbn [arity differs Nat.eqb negb andb orb]; try reflexivity;
    destruct n as [|[|n]]; reflexivity.
Qed.

Lemma checkOperation_inherited (operationAtStart : bool) (startPos : nat)
      (tokens : list expr) (s : string) :
  operations_get s = Some ObjectConstructor \/ operations_get s = Some NotConstructor ->
  checkOperation operationAtStart startPos tokens
    [(s, if operationAtStart then 0 else List.length tokens)]
  = Throw (invalidAmount startPos (List.length tokens) s).
Proof.
  intros Hs. unfold checkOperation, invalidAmount.
  rewrite Nat.eqb_refl. cbn [negb].
  destruct (List.length tokens) as [|n] eqn:Hn; [reflexivity|].
  cbn [Nat.eqb].
  destruct Hs as [-> | ->]; reflexivity.
Qed.

(** The test on the place of the operation string. *)
Lemma checkOperation_misplaced (operationAtStart : bool) (startPos : nat)
      (tokens : list expr) (s : string) (index : nat) :
  index <> (if operationAtStart then 0 else List.length tokens) ->
  checkOperation operationAtStart startPos tokens [(s, index)]
  = Throw (invalidPosition startPos s).
Proof.
  intros H. unfold checkOperation.
  destruct (Nat.eqb_spec index (if operationAtStart then 0 else List.length tokens));
    [contradiction | reflexivity].
Qed.

Lemma checkOperation_placed (operationAtStart : bool) (startPos : nat)
      (tokens : list expr) (s : string) :
  checkOperation operationAtStart startPos tokens
    [(s, if operationAtStart then 0 else List.length tokens)]
  <> Throw (invalidPosition startPos s).
Proof.
  unfold checkOperation, invalidPosition.
  rewrite Nat.eqb_refl. cbn [negb].
  destruct (List.length tokens =? 0)%nat; [discriminate|].
  destruct (operations_get s) as [p|]; [|discriminate].
  destruct (differs _ 0 && differs _ _); [discriminate|].
  destruct p; cbn [construct]; try discriminate.
  destruct tokens; discriminate.
Qed.

Lemma checkOperation_ends (operationAtStart : bool) (startPos : nat)
      (tokens : list expr) (operationStrings : list (string * nat)) :
  checkOperation operationAtStart startPos tokens operationStrings <> Diverge.
Proof.
  unfold checkOperation.
  destruct operationStrings as [|[s index] [|]]; try discriminate.
  destruct (negb _); [discriminate|].
  destruct (List.length tokens =? 0)%nat; [discriminate|].
  destruct (operations_get s) as [p|]; [|discriminate].
  destruct (differs _ 0 && differs _ _); [discriminate|].
  destruct p; cbn [construct]; try discriminate.
  destruct tokens; discriminate.
Qed.

(** ** Differentiation *)

Lemma upTo_refl {A : Type} (a : outcome A) : upTo a a.
Proof. now right. Qed.

Lemma upTo_bind {A B : Type} (a a' : outcome A) (k k' : A -> outcome B) :
  upTo a a' -> (forall x, upTo (k x) (k' x)) -> upTo (bind a k) (bind a' k').
Proof.
  intros [-> | ->] Hk; [now left|].
  destruct a'; cbn [bind]; [apply Hk | now right | now right].
Qed.

Lemma upTo_withDiff (d d' : expr -> outcome expr) x (k k' : expr -> expr -> outcome expr) :
  (forall n, upTo (d n) (d' n)) ->
  (forall n dn, upTo (k n dn) (k' n dn)) ->
  upTo (withDiff d x k) (withDiff d' x k').
Proof.
  intros Hd Hk. destruct x as [n|]; cbn [withDiff]; [|apply upTo_refl].
  apply upTo_bind; [apply Hd | intros; apply Hk].
Qed.

Lemma upTo_operationDerivative (o : operator) (d d' : expr -> outcome expr) args :
  (forall n, upTo (d n) (d' n)) ->
  upTo (operationDerivative o d args) (operationDerivative o d' args).
Proof.
  intros Hd. destruct o; cbn [operationDerivative];
    repeat first [ apply upTo_withDiff; [exact Hd | intros ? ?]
                 | apply upTo_bind; [apply Hd | intros ?]
                 | apply upTo_refl
                 | apply Hd ].
Qed.

Lemma diffFuel_step (varName : string) (fuel : nat) :
  forall e, upTo (diffFuel fuel e varName) (diffFuel (S fuel) e varName).
Proof.
  induction fuel as [|fuel IH]; intros e; [now left|].
  cbn [diffFuel]. destruct e; try apply upTo_refl.
  apply upTo_operationDerivative. exact IH.
Qed.

Lemma diffFuel_more (varName : string) (e : expr) (fuel fuel' : nat) :
  fuel <= fuel' -> upTo (diffFuel fuel e varName) (diffFuel fuel' e varName).
Proof.
  induction 1 as [|fuel' _ IH]; [apply upTo_refl|].
  destruct IH as [IH|IH]; [now left|].
  rewrite IH. apply diffFuel_step.
Qed.

Lemma diffDepth_operand (x : expr) (operands : list expr) :
  In x operands -> diffDepth x <= list_max (map diffDepth operands).
Proof.
  intros H.
  assert (Hall : Forall (fun k => k <= list_max (map diffDepth operands))
                        (map diffDepth operands))
    by (apply list_max_le; lia).
  rewrite Forall_forall in Hall. apply Hall, in_map, H.
Qed.

Lemma list_max_cons (a : nat) (l : list nat) :
  list_max (a :: l) = Nat.max a (list_max l).
Proof. reflexivity. Qed.

Lemma diffDepth_sum (args : list expr) :
  forall acc,
    diffDepth (fold_left (fun a b => Operation Add [a; b]) args acc)
    <= List.length args + Nat.max (diffDepth acc) (list_max (map diffDepth args)).
Proof.
  induction args as [|x args IH]; intros acc; cbn [fold_left List.length map].
  - change (list_max []) with 0. lia.
  - specialize (IH (Operation Add [acc; x])).
    cbn [diffDepth map] in IH. rewrite !list_max_cons in *.
    change (list_max []) with 0 in IH. lia.
Qed.

Lemma list_max_Square (args : list expr) :
  list_max (map diffDepth (map Square args))
  <= 1 + list_max (map diffDepth args).
Proof.
  induction args as [|x args IH]; cbn [map]; [change (list_max []) with 0; lia|].
  rewrite !list_max_cons. cbn [Square diffDepth map].
  rewrite !list_max_cons. change (list_max []) with 0. lia.
Qed.

Lemma diffDepth_positive (e : expr) : 1 <= diffDepth e.
Proof. destruct e as [| |o operands|]; cbn [diffDepth]; try lia. destruct o; lia. Qed.

(** With [diffDepth e] units of fuel, [diff] comes to an end. *)
Lemma diffFuel_enough (varName : string) (fuel : nat) :
  forall e, diffDepth e <= fuel -> diffFuel fuel e varName <> Diverge.
Proof.
  induction fuel as [|fuel IH]; intros e He.
  - pose proof (diffDepth_positive e). lia.
  - destruct e as [v|name|o operands|]; cbn [diffFuel]; try discriminate.
    set (d := fun node => diffFuel fuel node varName).
    assert (Hoperand : forall i x, (i = 0 \/ i = 1) -> o <> Mean -> o <> Var ->
                                   nth_error operands i = Some x -> d x <> Diverge).
    { intros i x _ H1 H2 Hx. apply IH.
      pose proof (diffDepth_operand x operands (nth_error_In _ _ Hx)).
      cbn [diffDepth] in He. destruct o; try congruence; lia. }
    assert (Hwith : forall i k, (i = 0 \/ i = 1) -> o <> Mean -> o <> Var ->
                                (forall n dn, k n dn <> Diverge) ->
                                withDiff d (nth_error operands i) k <> Diverge).
    { intros i k Hi H1 H2 Hk. destruct (nth_error operands i) as [x|] eqn:Hx;
        cbn [withDiff]; [|discriminate].
      pose proof (Hoperand i x Hi H1 H2 Hx).
      destruct (d x); cbn [bind]; [apply Hk | discriminate | congruence]. }
    destruct o; cbn [operationDerivative];
      try (apply (Hwith 0); [now left | discriminate | discriminate | intros ? ?];
           first [ discriminate
                 | apply (Hwith 1); [now right | discriminate | discriminate | intros ? ?];
                   discriminate ]).
    + (* Log: the second operand first *)
      apply (Hwith 1); [now right | discriminate | discriminate | intros ? ?].
      apply (Hwith 0); [now left | discriminate | discriminate | intros ? ?].
      discriminate.
    + (* Mean *)
      assert (Hs : d (fold_left (fun a b => Operation Add [a; b]) operands ZERO) <> Diverge).
      { apply IH. pose proof (diffDepth_sum operands ZERO) as Hsum.
        cbn [diffDepth ZERO] in Hsum, He. lia. }
      destruct (d _); cbn [bind]; [discriminate | discriminate | congruence].
    + (* Var *)
      apply IH. cbn [diffDepth map Square] in *.
      rewrite !list_max_cons. change (list_max []) with 0.
      rewrite !length_map.
      pose proof (list_max_Square operands). lia.
Qed.

Lemma diff_fuel (varName : string) (e : expr) (fuel : nat) :
  diffDepth e <= fuel -> diffFuel fuel e varName = diff e varName.
Proof.
  intros H. unfold diff.
  destruct (diffFuel_more varName e _ _ H) as [Hd|Hd]; [|now symmetry].
  exfalso. revert Hd. apply diffFuel_enough. lia.
Qed.

(** [diff] comes to an end on every node. *)
Lemma diff_total (e : expr) (varName : string) : diff e varName <> Diverge.
Proof. apply diffFuel_enough. lia. Qed.

Lemma diff_Add (x y : expr) (varName : string) :
  diff (Operation Add [x; y]) varName
  = (dx <- diff x varName ;; dy <- diff y varName ;; Return (Operation Add [dx; dy])).
Proof.
  unfold diff at 1. cbn [diffDepth map]. rewrite !list_max_cons.
  change (list_max []) with 0.
  cbn [Nat.add diffFuel operationDerivative nth_error withDiff].
  rewrite !diff_fuel by lia. reflexivity.
Qed.

(** The derivative of a sum folded from the left is the sum of the
    derivatives, folded the same way. *)
Lemma diff_sum (varName : string) (args ds : list expr) :
  Forall2 (fun x d => diff x varName = Return d) args ds ->
  forall acc dacc,
    diff acc varName = Return dacc ->
    diff (fold_left (fun a b => Operation Add [a; b]) args acc) varName
    = Return (fold_left (fun a b => Operation Add [a; b]) ds dacc).
Proof.
  induction 1 as [|x d args ds Hx _ IH]; intros acc dacc Hacc; cbn [fold_left].
  - exact Hacc.
  - apply IH. rewrite diff_Add, Hacc, Hx. reflexivity.
Qed.

(** C4: the derivative of a [Mean] node is the [Divide] node of the
    derivative of the sum of its operands, folded from the left with
    [Add] starting from [Const.ZERO], and of the constant that holds the
    number of operands; if differentiating the sum throws, so does it.
    When the operands have the derivatives [ds], the first part is the
    sum of [ds] folded the same way, and the constant is not touched. *)
Theorem diff_Mean :
  forall (args : list expr) (varName : string),
    diff (Operation Mean args) varName
    = (ds <- diff (fold_left (fun a b => Operation Add [a; b]) args ZERO) varName ;;
       Return (Operation Divide [ds; Const (of_nat (List.length args))]))
    /\ (forall ds,
           Forall2 (fun x d => diff x varName = Return d) args ds ->
           diff (Operation Mean args) varName
           = Return (Operation Divide
                       [fold_left (fun a b => Operation Add [a; b]) ds ZERO;
                        Const (of_nat (List.length args))])).
Proof.
  intros args varName.
  assert (Hmean : diff (Operation Mean args) varName
                  = (ds <- diff (fold_left (fun a b => Operation Add [a; b]) args ZERO)
                             varName ;;
                     Return (Operation Divide [ds; Const (of_nat (List.length args))]))).
  { unfold diff at 1.
    cbn [diffDepth]. rewrite Nat.add_comm with (n := List.length args + 2).
    replace (list_max (map diffDepth args) + (List.length args + 2))
      with (S (list_max (map diffDepth args) + List.length args + 1)) by lia.
    cbn [diffFuel operationDerivative].
    rewrite diff_fuel; [reflexivity|].
    pose proof (diffDepth_sum args ZERO) as H. cbn [diffDepth ZERO] in H. lia. }
  split; [exact Hmean|].
  intros ds Hds. rewrite Hmean, (diff_sum varName args ds Hds ZERO ZERO eq_refl).
  reflexivity.
Qed.

Lemma diff_Mean_witness :
  diff (Operation Mean [Variable_ "x"; Const (of_Z 5); Variable_ "y"]) "x"
  = Return (Operation Divide
              [Operation Add [Operation Add [Operation Add [ZERO; ONE]; ZERO]; ZERO];
               Const (of_Z 3)]).
Proof.
  apply (proj2 (diff_Mean [Variable_ "x"; Const (of_Z 5); Variable_ "y"] "x")
           [ONE; ZERO; ZERO]).
  repeat constructor.
Defined.

(** ** Strings *)

Lemma length_append (a b : string) :
  String.length (a ++ b) = String.length a + String.length b.
Proof. induction a as [|c a IH]; cbn [append String.length]; [reflexivity | now rewrite IH]. Qed.

Lemma append_assoc (a b c : string) : (a ++ b) ++ c = a ++ (b ++ c).
Proof. induction a as [|x a IH]; cbn [append]; [reflexivity | now rewrite IH]. Qed.

Lemma append_empty_r (a : string) : a ++ "" = a.
Proof. induction a as [|x a IH]; cbn [append]; [reflexivity | now rewrite IH]. Qed.

Lemma span_spec (p : ascii -> bool) (s : string) :
  forall a b, span p s = (a, b) -> s = a ++ b /\ allChars p a = true.
Proof.
  induction s as [|c s IH]; cbn [span]; intros a b H.
  - injection H as <- <-. split; reflexivity.
  - destruct (p c) eqn:Hc.
    + destruct (span p s) as [a' b'] eqn:Hs. injection H as <- <-.
      destruct (IH _ _ eq_refl) as [-> Ha]. cbn [append allChars].
      rewrite Hc, Ha. split; reflexivity.
    + injection H as <- <-. split; reflexivity.
Qed.

Lemma span_token (token rest : string) :
  allChars isTokenChar token = true -> delimited rest = true ->
  span isTokenChar (token ++ rest) = (token, rest).
Proof.
  intros Ht Hr. induction token as [|c token IH]; cbn [append].
  - destruct rest as [|c r]; cbn [span]; [reflexivity|].
    cbn [delimited] in Hr. apply negb_true_iff in Hr. rewrite Hr. reflexivity.
  - cbn [allChars] in Ht. apply andb_prop in Ht as [Hc Ht].
    cbn [span]. rewrite Hc, (IH Ht). reflexivity.
Qed.

Lemma skipWhitespaces_spec (rest : string) :
  forall start rest' start',
    skipWhitespaces rest start = (rest', start') ->
    start' + String.length rest' = start + String.length rest
    /\ String.length rest' <= String.length rest.
Proof.
  induction rest as [|c rest IH]; cbn [skipWhitespaces]; intros start rest' start' H.
  - injection H as <- <-. split; reflexivity.
  - destruct (isWhiteSpace c).
    + destruct (IH _ _ _ H) as [H1 H2]. cbn [String.length]. lia.
    + injection H as <- <-. split; reflexivity.
Qed.

(** ** What the bracketed parsers build, and where they fail *)

(** An error thrown with an offset that is within the input. *)
Ltac thrown_within H := do 3 eexists; split; [reflexivity | exact H].

Lemma classify_spec (token : string) (startPos len : nat) :
  startPos <= len ->
  match classify token startPos with
  | Return t => tokenOk t /\ token <> ""
  | Throw e => positioned len e
  | Diverge => False
  end.
Proof.
  intros Hlen. unfold classify.
  destruct token as [|c token]; cbn [isEmpty].
  { thrown_within Hlen. }
  destruct (includes (String c token) vars) eqn:Hv; [split; [exact Hv | discriminate]|].
  destruct (negb (isNaN (String c token))); [split; [reflexivity | discriminate]|].
  destruct (in_operations (String c token)) eqn:Ho; [split; [exact Ho | discriminate]|].
  thrown_within Hlen.
Qed.

Lemma checkOperation_spec (operationAtStart : bool) (startPos len : nat)
      (tokens : list expr) (operationStrings : list (string * nat)) :
  startPos <= len ->
  forallb parsed tokens = true ->
  Forall (fun so => in_operations (fst so) = true) operationStrings ->
  match checkOperation operationAtStart startPos tokens operationStrings with
  | Return e => parsed e = true
  | Throw e => positioned len e
  | Diverge => False
  end.
Proof.
  intros Hlen Htokens Hops. unfold checkOperation.
  destruct operationStrings as [|[s index] [|]];
    try (thrown_within Hlen).
  destruct (negb _); [thrown_within Hlen|].
  destruct (List.length tokens =? 0)%nat eqn:Hn;
    [thrown_within Hlen|].
  apply Forall_inv in Hops. cbn [fst] in Hops. unfold in_operations in Hops.
  destruct (operations_get s) as [p|]; [|discriminate].
  destruct p as [o| |]; cbn [property_arity differs andb];
    try (thrown_within Hlen).
  destruct (negb (arity o =? 0)%nat && negb (arity o =? List.length tokens)%nat) eqn:Ha;
    [thrown_within Hlen|].
  cbn [construct parsed]. rewrite Htokens, andb_true_r. unfold arityRespected.
  apply Nat.eqb_neq in Hn.
  destruct (Nat.leb_spec 1 (List.length tokens)); [|lia]. cbn [andb].
  destruct (arity o =? 0)%nat, (arity o =? List.length tokens)%nat;
    cbn in Ha |- *; congruence.
Qed.

Lemma startsWith_length (c : ascii) (rest : string) :
  startsWith c rest = true ->
  String.length rest = S (String.length (advance rest)).
Proof. destruct rest; [discriminate | reflexivity]. Qed.

Lemma parser_spec (operationAtStart : bool) (len : nat) (fuel : nat) :
  (forall rest start,
      start + String.length rest = len ->
      tokenSpec len fuel rest (parseToken operationAtStart fuel rest start))
  /\ (forall rest start,
         start + String.length rest = len ->
         startsWith "(" rest = true ->
         operationSpec len fuel rest (parseOperation operationAtStart fuel rest start))
  /\ (forall rest start tokens operationStrings,
         start + String.length rest = len ->
         forallb parsed tokens = true ->
         operationStringsOk operationStrings ->
         operandsSpec len fuel rest
           (parseOperands operationAtStart fuel rest start tokens operationStrings)).
Proof.
  induction fuel as [|fuel (IHtoken & IHoperation & IHoperands)].
  { split; [|split]; intros; cbn [parseToken parseOperation parseOperands
                                   tokenSpec operationSpec operandsSpec]; try lia.
    match goal with H : startsWith _ _ = true |- _ =>
      rewrite (startsWith_length _ _ H) end. lia. }
  split; [|split].
  - (* parseToken *)
    intros rest start Hlen. cbn [parseToken].
    destruct (startsWith "(" rest) eqn:Hparen.
    + specialize (IHoperation rest start Hlen Hparen).
      destruct (parseOperation operationAtStart fuel rest start) as [[e [rest' start']]|e|];
        cbn [bind tokenSpec operationSpec] in *; [exact IHoperation | exact IHoperation |].
      lia.
    + destruct (span isTokenChar rest) as [token rest'] eqn:Hspan.
      destruct (span_spec _ _ _ _ Hspan) as [-> _].
      rewrite length_append in Hlen.
      pose proof (classify_spec token start len ltac:(lia)) as Hc.
      destruct (classify token start) as [t|e|]; cbn [bind tokenSpec];
        [|exact Hc|contradiction].
      destruct Hc as [Ht Hne]. split; [exact Ht|].
      rewrite length_append. destruct token; [congruence|]. cbn [String.length] in *.
      lia.
  - (* parseOperation *)
    intros rest start Hlen Hparen. cbn [parseOperation].
    pose proof (startsWith_length _ _ Hparen) as Hrest.
    destruct (skipWhitespaces (advance rest) (S start)) as [rest1 start1] eqn:Hskip.
    destruct (skipWhitespaces_spec _ _ _ _ Hskip) as [Hpos1 Hle1].
    specialize (IHoperands rest1 start1 [] [] ltac:(lia) eq_refl (Forall_nil _)).
    destruct (parseOperands operationAtStart fuel rest1 start1 [] [])
      as [[[tokens operationStrings] [rest2 start2]]|e|];
      cbn [bind operationSpec operandsSpec] in *; [|exact IHoperands|lia].
    destruct IHoperands as (Htokens & Hops & Hpos2 & Hle2).
    destruct (startsWith ")" rest2) eqn:Hclose;
      [|do 3 eexists; split; [reflexivity | lia]].
    pose proof (checkOperation_spec operationAtStart start len tokens operationStrings
                  ltac:(lia) Htokens Hops) as Hc.
    destruct (checkOperation operationAtStart start tokens operationStrings);
      cbn [bind]; [|exact Hc|contradiction].
    pose proof (startsWith_length _ _ Hclose). split; [exact Hc|]. lia.
  - (* the loop *)
    intros rest start tokens operationStrings Hlen Htokens Hops. cbn [parseOperands].
    destruct (isEmpty rest || startsWith ")" rest) eqn:Hend.
    { cbn [operandsSpec]. repeat split; auto. }
    specialize (IHtoken rest start Hlen).
    destruct (parseToken operationAtStart fuel rest start) as [[curToken [rest1 start1]]|e|];
      cbn [bind tokenSpec operandsSpec] in *; [|exact IHtoken|].
    2:{ destruct rest; [discriminate Hend|]. cbn [String.length] in *. lia. }
    destruct IHtoken as (Hok & Hpos1 & Hlt1).
    destruct (skipWhitespaces rest1 start1) as [rest2 start2] eqn:Hskip.
    destruct (skipWhitespaces_spec _ _ _ _ Hskip) as [Hpos2 Hle2].
    assert (Hnext : forall tokens' operationStrings',
               forallb parsed tokens' = true -> operationStringsOk operationStrings' ->
               operandsSpec len (S fuel) rest
                 (parseOperands operationAtStart fuel rest2 start2 tokens' operationStrings')).
    { intros tokens' operationStrings' H1 H2.
      specialize (IHoperands rest2 start2 tokens' operationStrings' ltac:(lia) H1 H2).
      destruct (parseOperands operationAtStart fuel rest2 start2 tokens' operationStrings')
        as [[[ts os] [rest3 start3]]|e|]; cbn [operandsSpec] in *;
        [|exact IHoperands|lia].
      destruct IHoperands as (? & ? & ? & ?). repeat split; auto. lia. }
    destruct curToken as [e|s]; cbn [tokenOk] in Hok; apply Hnext; auto.
    + rewrite forallb_app, Htokens. cbn [forallb]. now rewrite Hok.
    + apply Forall_app. split; [exact Hops|]. constructor; [exact Hok | constructor].
Qed.

(** [parsePrefix] and [parsePostfix] come to an end on every input. *)
Lemma parseWithBrackets_total (operationAtStart : bool) (expression : string) :
  parseWithBrackets operationAtStart expression <> Diverge.
Proof.
  unfold parseWithBrackets.
  destruct (skipWhitespaces expression 0) as [rest start] eqn:Hskip.
  destruct (skipWhitespaces_spec _ _ _ _ Hskip) as [Hpos Hle].
  pose proof (proj1 (parser_spec operationAtStart (String.length expression)
                       (3 * String.length expression + 3)) rest start ltac:(lia)) as H.
  destruct (parseToken _ _ rest start) as [[res [rest1 start1]]|e|];
    cbn [bind tokenSpec] in *; [|discriminate|lia].
  destruct (skipWhitespaces rest1 start1) as [rest2 start2].
  destruct (negb (isEmpty rest2)); [discriminate|].
  destruct res; discriminate.
Qed.

(** Induction on nodes, the operands of an operation included. *)
Lemma expr_induction (P : expr -> Prop) :
  (forall value, P (Const value)) ->
  (forall varName, P (Variable_ varName)) ->
  (forall o operands, Forall P operands -> P (Operation o operands)) ->
  P PlainObject ->
  forall e, P e.
Proof.
  intros HConst HVariable HOperation HObject.
  fix IH 1. intros [value|varName|o operands|].
  - apply HConst.
  - apply HVariable.
  - apply HOperation. induction operands as [|x operands IHoperands].
    + constructor.
    + constructor; [apply IH | exact IHoperands].
  - exact HObject.
Qed.

Lemma parsed_operandCounts (e : expr) : parsed e = true -> operandCounts e = true.
Proof.
  induction e as [value|varName|o operands IH|] using expr_induction;
    cbn [parsed operandCounts]; intros H; try reflexivity.
  apply andb_prop in H as [Ha Hall]. rewrite Ha. cbn [andb].
  rewrite forallb_forall in *. rewrite Forall_forall in IH.
  intros x Hx. apply IH; [exact Hx | apply Hall, Hx].
Qed.

Lemma parseWithBrackets_parsed (operationAtStart : bool) (expression : string) (e : expr) :
  parseWithBrackets operationAtStart expression = Return e -> parsed e = true.
Proof.
  unfold parseWithBrackets.
  destruct (skipWhitespaces expression 0) as [rest start] eqn:Hskip.
  destruct (skipWhitespaces_spec _ _ _ _ Hskip) as [Hpos Hle].
  pose proof (proj1 (parser_spec operationAtStart (String.length expression)
                       (3 * String.length expression + 3)) rest start ltac:(lia)) as H.
  destruct (parseToken _ _ rest start) as [[res [rest1 start1]]|e'|];
    cbn [bind tokenSpec] in *; try discriminate.
  destruct (skipWhitespaces rest1 start1) as [rest2 start2].
  destruct (negb (isEmpty rest2)); [discriminate|].
  destruct res as [e'|s]; [|discriminate].
  intros [= <-]. apply H.
Qed.

(** C2 (as stated, refuted): the flat parser builds [Mean] with no
    operand, and [Add] with one. *)
Lemma parse_builds_wrong_operand_count :
  parse "mean" = Return (Some (Operation Mean []))
  /\ operandCounts (Operation Mean []) = false
  /\ parse "1 +" = Return (Some (Operation Add [Const (of_Z 1)]))
  /\ operandCounts (Operation Add [Const (of_Z 1)]) = false.
Proof. repeat split; vm_compute; reflexivity. Qed.

(** C2 (amended): in a tree returned by [parsePrefix] or [parsePostfix]
    every [Operation] node has at least one operand and as many as the
    arity of its operation, any number when that arity is 0 ([mean],
    [var]). *)
Theorem bracketed_operand_counts :
  forall (expression : string) (e : expr),
    parsePrefix expression = Return e \/ parsePostfix expression = Return e ->
    operandCounts e = true.
Proof.
  intros expression e [H|H]; apply parsed_operandCounts;
    eapply parseWithBrackets_parsed; exact H.
Qed.

Lemma bracketed_operand_counts_witness :
  operandCounts
    (Operation Mean [Operation Add [Variable_ "x"; Const (of_Z 2)]; Variable_ "y";
                     Operation Negate [Variable_ "z"]]) = true.
Proof.
  apply (bracketed_operand_counts "(mean (+ x 2) y (negate z))").
  left. vm_compute. reflexivity.
Defined.

(** ** Offsets of errors *)


(** ** Tokens that are numbers *)

Lemma isTokenChar_spec (c : ascii) :
  isTokenChar c = true ->
  isWhiteSpace c = false /\ Ascii.eqb c "(" = false /\ Ascii.eqb c ")" = false.
Proof.
  unfold isTokenChar. intros H.
  apply andb_prop in H as [H H3]. apply andb_prop in H as [H1 H2].
  rewrite negb_true_iff in *. auto.
Qed.

Lemma differs_when (p : ascii -> bool) (c d : ascii) :
  p c = true -> p d = false -> Ascii.eqb c d = false.
Proof.
  intros Hc Hd. destruct (Ascii.eqb_spec c d) as [->|]; [congruence | reflexivity].
Qed.

Lemma isDigit_isTokenChar (c : ascii) : isDigit c = true -> isTokenChar c = true.
Proof.
  intros H. unfold isTokenChar.
  rewrite (differs_when isDigit c "(" H eq_refl), (differs_when isDigit c ")" H eq_refl).
  unfold isDigit, isWhiteSpace in *. apply andb_prop in H as [H1 H2].
  apply N.leb_le in H1, H2.
  destruct (N.leb_spec 9 (code c)), (N.leb_spec (code c) 13),
    (N.eqb_spec (code c) 32), (N.eqb_spec (code c) 160); cbn; try reflexivity; lia.
Qed.

Lemma allChars_impl (p q : ascii -> bool) (s : string) :
  (forall c, p c = true -> q c = true) -> allChars p s = true -> allChars q s = true.
Proof.
  intros Hpq. induction s as [|c s IH]; cbn [allChars]; [reflexivity|].
  intros H. apply andb_prop in H as [Hc Hs]. now rewrite (Hpq _ Hc), IH.
Qed.

Lemma allChars_app (p : ascii -> bool) (a b : string) :
  allChars p (a ++ b) = allChars p a && allChars p b.
Proof.
  induction a as [|c a IH]; cbn [append allChars]; [reflexivity|].
  now rewrite IH, andb_assoc.
Qed.

Lemma span_all (p : ascii -> bool) (s : string) :
  allChars p s = true -> span p s = (s, "").
Proof.
  induction s as [|c s IH]; cbn [allChars span]; [reflexivity|].
  intros H. apply andb_prop in H as [Hc Hs]. now rewrite Hc, IH.
Qed.

Lemma trimStart_token (s : string) :
  delimited s = false -> trimStart s = s.
Proof.
  destruct s as [|c s]; [discriminate|]. cbn [delimited trimStart]. intros H.
  apply negb_false_iff, isTokenChar_spec in H as (-> & _). reflexivity.
Qed.

Lemma trimEnd_token (s : string) :
  allChars isTokenChar s = true -> trimEnd s = s.
Proof.
  induction s as [|c s IH]; cbn [allChars trimEnd]; [reflexivity|].
  intros H. apply andb_prop in H as [Hc Hs]. rewrite (IH Hs).
  apply isTokenChar_spec in Hc as (-> & _). destruct s; reflexivity.
Qed.

Lemma token_delimited (s : string) :
  s <> "" -> allChars isTokenChar s = true -> delimited s = false.
Proof.
  destruct s as [|c s]; [congruence|]. cbn [allChars delimited]. intros _ H.
  apply andb_prop in H as [-> _]. reflexivity.
Qed.

Lemma trim_token (s : string) :
  s <> "" -> allChars isTokenChar s = true -> trim s = s.
Proof.
  intros Hne H. unfold trim.
  rewrite (trimStart_token _ (token_delimited _ Hne H)). now apply trimEnd_token.
Qed.

Lemma skipWhitespaces_token (s : string) (start : nat) :
  delimited s = false -> skipWhitespaces s start = (s, start).
Proof.
  destruct s as [|c s]; [discriminate|]. cbn [delimited skipWhitespaces]. intros H.
  apply negb_false_iff, isTokenChar_spec in H as (-> & _). reflexivity.
Qed.

Lemma startsWith_token (s : string) :
  delimited s = false -> startsWith "(" s = false /\ startsWith ")" s = false.
Proof.
  destruct s as [|c s]; [discriminate|]. cbn [delimited startsWith]. intros H.
  apply negb_false_iff, isTokenChar_spec in H as (_ & -> & ->). split; reflexivity.
Qed.

(** A token alone is classified and returned, when it is a node. *)
Lemma parseWithBrackets_token (operationAtStart : bool) (token : string) (e : expr) :
  token <> "" -> allChars isTokenChar token = true ->
  classify token 0 = Return (Node e) ->
  parseWithBrackets operationAtStart token = Return e.
Proof.
  intros Hne Htoken Hclass. unfold parseWithBrackets.
  pose proof (token_delimited _ Hne Htoken) as Hd.
  rewrite (skipWhitespaces_token _ _ Hd).
  replace (3 * String.length token + 3) with (S (3 * String.length token + 2)) by lia.
  cbn [parseToken]. rewrite (proj1 (startsWith_token _ Hd)).
  rewrite (span_all _ _ Htoken), Hclass.
  reflexivity.
Qed.

Lemma digits_numeric (digits : string) :
  digits <> "" -> allChars isDigit digits = true ->
  dropSign digits = digits /\ isUnsignedDecimal digits = true
  /\ includes digits vars = false.
Proof.
  intros Hne Hd. destruct digits as [|c digits]; [congruence|].
  pose proof Hd as Hc. cbn [allChars] in Hc. apply andb_prop in Hc as [Hc _].
  split; [|split].
  - unfold dropSign. cbn [startsWith].
    now rewrite (differs_when isDigit c "+" Hc eq_refl),
      (differs_when isDigit c "-" Hc eq_refl).
  - unfold isUnsignedDecimal.
    replace (String.eqb (String c digits) "Infinity") with false
      by (cbn [String.eqb]; now rewrite (differs_when isDigit c "I" Hc eq_refl)).
    rewrite (span_all _ _ Hd). reflexivity.
  - unfold includes, vars. cbn [existsb String.eqb].
    now rewrite (differs_when isDigit c "x" Hc eq_refl),
      (differs_when isDigit c "y" Hc eq_refl), (differs_when isDigit c "z" Hc eq_refl).
Qed.

(** A sequence of digits with or without a sign is one token, is not
    the name of a variable, and is read as its value. *)
Lemma signed_digits (sign digits : string) :
  sign = "" \/ sign = "+" \/ sign = "-" ->
  digits <> "" -> allChars isDigit digits = true ->
  sign ++ digits <> ""
  /\ allChars isTokenChar (sign ++ digits) = true
  /\ includes (sign ++ digits) vars = false
  /\ isNaN (sign ++ digits) = false
  /\ parseInt (sign ++ digits)
     = let mathInt := digitsValue 10 digitValue 0 digits in
       if (mathInt =? 0)%Z then S754_zero (String.eqb sign "-")
       else of_Z (if String.eqb sign "-" then - mathInt else mathInt).
Proof.
  intros Hsign Hne Hdigits.
  destruct (digits_numeric digits Hne Hdigits) as (Hdrop & Hdec & Hvars).
  pose proof (allChars_impl _ _ _ isDigit_isTokenChar Hdigits) as Htoken.
  assert (Htoken' : allChars isTokenChar (sign ++ digits) = true).
  { rewrite allChars_app, Htoken. destruct Hsign as [->|[->| ->]]; reflexivity. }
  assert (Hne' : sign ++ digits <> "").
  { destruct Hsign as [->|[->| ->]]; cbn [append]; [exact Hne | discriminate | discriminate]. }
  assert (Hdrop' : dropSign (sign ++ digits) = digits).
  { destruct Hsign as [->|[->| ->]]; cbn [append]; [exact Hdrop | reflexivity | reflexivity]. }
  split; [exact Hne'|]. split; [exact Htoken'|]. split; [|split].
  - destruct Hsign as [->|[->| ->]]; cbn [append]; [exact Hvars | reflexivity | reflexivity].
  - unfold isNaN. rewrite (trim_token _ Hne' Htoken'), Hdrop', Hdec.
    now rewrite orb_true_r.
  - unfold parseInt.
    rewrite (trimStart_token _ (token_delimited _ Hne' Htoken')), Hdrop'.
    assert (Hhex : startsWith "0" digits
                   && (startsWith "x" (advance digits) || startsWith "X" (advance digits))
                   = false).
    { destruct digits as [|c [|d digits]]; cbn [startsWith advance];
        [reflexivity | now rewrite andb_false_r |].
      cbn [allChars] in Hdigits. apply andb_prop in Hdigits as [_ Hd].
      apply andb_prop in Hd as [Hd _].
      now rewrite (differs_when isDigit d "x" Hd eq_refl),
        (differs_when isDigit d "X" Hd eq_refl), andb_false_r. }
    rewrite Hhex, (span_all _ _ Hdigits). cbn [fst].
    destruct digits as [|c digits]; [congruence|]. cbn [isEmpty].
    replace (startsWith "-" (sign ++ String c digits)) with (String.eqb sign "-").
    + reflexivity.
    + destruct Hsign as [->|[->| ->]]; cbn [append startsWith]; try reflexivity.
      cbn [allChars] in Hdigits. apply andb_prop in Hdigits as [Hc _].
      now rewrite (differs_when isDigit c "-" Hc eq_refl).
Qed.

Lemma parseWithBrackets_numeric (operationAtStart : bool) (token : string) :
  token <> "" -> allChars isTokenChar token = true ->
  includes token vars = false -> isNaN token = false ->
  parseWithBrackets operationAtStart token = Return (Const (parseInt token)).
Proof.
  intros Hne Htoken Hvars Hnum.
  apply parseWithBrackets_token; [exact Hne | exact Htoken|].
  unfold classify. destruct token; [congruence|]. cbn [isEmpty].
  rewrite Hvars, Hnum. reflexivity.
Qed.

(** C8 (as stated, refuted): ["3.5"] is accepted, as the constant 3. *)
Lemma fraction_accepted_as_constant :
  parsePrefix "3.5" = Return (Const (of_Z 3))
  /\ parsePostfix "3.5" = Return (Const (of_Z 3)).
Proof. split; vm_compute; reflexivity. Qed.

(** C8 (amended): the bracketed parsers take as a constant every token
    that is not the name of a variable and that the conversion of
    strings to numbers does not turn into NaN, and the constant is
    [parseInt] of the token, the integer read from its leading digits.
    Among these tokens are the sequences of base-10 digits, signed or
    not, which give their value, and the numeric tokens that are not
    whole numbers: ["3.5"] gives 3 and ["1e3"] gives 1. *)
Theorem numeric_token_is_constant :
  forall (operationAtStart : bool),
    (forall token,
        token <> "" -> allChars isTokenChar token = true ->
        includes token vars = false -> isNaN token = false ->
        parseWithBrackets operationAtStart token = Return (Const (parseInt token)))
    /\ (forall sign digits,
           sign = "" \/ sign = "+" \/ sign = "-" ->
           digits <> "" -> allChars isDigit digits = true ->
           parseWithBrackets operationAtStart (sign ++ digits)
           = Return (Const (parseInt (sign ++ digits)))
           /\ parseInt (sign ++ digits)
              = let mathInt := digitsValue 10 digitValue 0 digits in
                if (mathInt =? 0)%Z then S754_zero (String.eqb sign "-")
                else of_Z (if String.eqb sign "-" then - mathInt else mathInt))
    /\ parseWithBrackets operationAtStart "3.5" = Return (Const (of_Z 3))
    /\ parseWithBrackets operationAtStart "1e3" = Return (Const (of_Z 1)).
Proof.
  intros operationAtStart.
  split; [apply parseWithBrackets_numeric|].
  split; [|split; destruct operationAtStart; reflexivity].
  intros sign digits Hsign Hne Hdigits.
  destruct (signed_digits sign digits Hsign Hne Hdigits) as (H1 & H2 & H3 & H4 & H5).
  split; [now apply parseWithBrackets_numeric | exact H5].
Qed.

Lemma numeric_token_is_constant_witness :
  parseWithBrackets true "-12" = Return (Const (parseInt "-12"))
  /\ parseWithBrackets false "0x1F" = Return (Const (parseInt "0x1F")).
Proof.
  split.
  - apply (proj1 (proj1 (proj2 (numeric_token_is_constant true)) "-" "12"
                    ltac:(right; right; reflexivity) ltac:(discriminate) eq_refl)).
  - apply (proj1 (numeric_token_is_constant false) "0x1F");
      [discriminate | reflexivity | reflexivity | reflexivity].
Defined.

(** ** Parsing a rendering again *)

(** More fuel does not change what the parser gives. *)
Lemma parser_step (operationAtStart : bool) (fuel : nat) :
  (forall rest start,
      upTo (parseToken operationAtStart fuel rest start)
           (parseToken operationAtStart (S fuel) rest start))
  /\ (forall rest start,
         upTo (parseOperation operationAtStart fuel rest start)
              (parseOperation operationAtStart (S fuel) rest start))
  /\ (forall rest start tokens operationStrings,
         upTo (parseOperands operationAtStart fuel rest start tokens operationStrings)
              (parseOperands operationAtStart (S fuel) rest start tokens operationStrings)).
Proof.
  induction fuel as [|fuel (IHtoken & IHoperation & IHoperands)].
  { repeat split; intros; now left. }
  split; [|split].
  - intros rest start. cbn [parseToken].
    destruct (startsWith "(" rest); [|apply upTo_refl].
    apply upTo_bind; [apply IHoperation | intros ?; apply upTo_refl].
  - intros rest start. cbn [parseOperation].
    destruct (skipWhitespaces (advance rest) (S start)) as [rest1 start1].
    apply upTo_bind; [apply IHoperands | intros ?; apply upTo_refl].
  - intros rest start tokens operationStrings. cbn [parseOperands].
    destruct (isEmpty rest || startsWith ")" rest); [apply upTo_refl|].
    apply upTo_bind; [apply IHtoken|].
    intros [curToken [rest1 start1]].
    destruct (skipWhitespaces rest1 start1) as [rest2 start2].
    destruct curToken; apply IHoperands.
Qed.

Lemma parseToken_more (operationAtStart : bool) (rest : string) (start fuel fuel' : nat) :
  fuel <= fuel' ->
  upTo (parseToken operationAtStart fuel rest start)
       (parseToken operationAtStart fuel' rest start).
Proof.
  induction 1 as [|fuel' _ IH]; [apply upTo_refl|].
  destruct IH as [IH|IH]; [now left|].
  rewrite IH. apply parser_step.
Qed.

Lemma sequence_map {A : Type} (f : expr -> outcome A) (g : expr -> A) (l : list expr) :
  Forall (fun x => f x = Return (g x)) l ->
  sequence (map f l) = Return (map g l).
Proof.
  induction 1 as [|x l Hx _ IH]; cbn [map sequence]; [reflexivity|].
  now rewrite Hx, IH.
Qed.

Lemma Forall_parsed (P : expr -> Prop) (operands : list expr) :
  Forall (fun x => parsed x = true -> P x) operands ->
  forallb parsed operands = true -> Forall P operands.
Proof.
  intros IH H. rewrite forallb_forall in H. rewrite Forall_forall in *.
  intros x Hx. apply IH; [exact Hx | apply H, Hx].
Qed.

Lemma prefix_render (e : expr) :
  parsed e = true -> prefix e = Return (render true e).
Proof.
  induction e as [value|varName|o operands IH|] using expr_induction;
    cbn [parsed prefix render]; intros H; try reflexivity; [|discriminate].
  apply andb_prop in H as [_ H].
  now rewrite (sequence_map prefix (render true) operands (Forall_parsed _ _ IH H)).
Qed.

Lemma postfix_render (e : expr) :
  parsed e = true -> postfix e = Return (render false e).
Proof.
  induction e as [value|varName|o operands IH|] using expr_induction;
    cbn [parsed postfix render]; intros H; try reflexivity; [|discriminate].
  apply andb_prop in H as [_ H].
  now rewrite (sequence_map postfix (render false) operands (Forall_parsed _ _ IH H)).
Qed.

Lemma parsed_reread (e : expr) : parsed e = true -> parsed (reread e) = true.
Proof.
  induction e as [value|varName|o operands IH|] using expr_induction;
    cbn [parsed reread]; intros H; try reflexivity; try exact H.
  apply andb_prop in H as [Ha H]. rewrite length_map, Ha. cbn [andb].
  pose proof (Forall_parsed _ _ IH H) as Hall.
  rewrite forallb_forall. intros y Hy. apply in_map_iff in Hy as (x & <- & Hx).
  rewrite Forall_forall in Hall. now apply Hall.
Qed.

Lemma render_reread (operationAtStart : bool) (e : expr) :
  stableConstants e = true ->
  render operationAtStart (reread e) = render operationAtStart e.
Proof.
  induction e as [value|varName|o operands IH|] using expr_induction;
    cbn [stableConstants reread render]; intros H; try reflexivity.
  - unfold stableConstant in H. apply andb_prop in H as [_ H].
    now apply String.eqb_eq in H.
  - assert (Hmap : map (render operationAtStart) (map reread operands)
                   = map (render operationAtStart) operands).
    { rewrite map_map. apply map_ext_in. intros x Hx.
      rewrite Forall_forall in IH. apply IH; [exact Hx|].
      rewrite forallb_forall in H. apply H, Hx. }
    now rewrite Hmap.
Qed.

Lemma opensItem_app (a b : string) : opensItem a = true -> opensItem (a ++ b) = true.
Proof. destruct a; [discriminate | exact (fun H => H)]. Qed.

Lemma opensItem_skip (s : string) (start : nat) :
  opensItem s = true -> skipWhitespaces s start = (s, start).
Proof.
  destruct s as [|c s]; [discriminate|]. cbn [opensItem skipWhitespaces]. intros H.
  apply andb_prop in H as [H _]. apply negb_true_iff in H. now rewrite H.
Qed.

Lemma opensItem_continues (s : string) :
  opensItem s = true -> isEmpty s || startsWith ")" s = false.
Proof.
  destruct s as [|c s]; [discriminate|]. cbn [opensItem isEmpty startsWith orb].
  intros H. apply andb_prop in H as [_ H]. now apply negb_true_iff in H.
Qed.

Lemma token_opensItem (s : string) :
  s <> "" -> allChars isTokenChar s = true -> opensItem s = true.
Proof.
  destruct s as [|c s]; [congruence|]. cbn [allChars opensItem]. intros _ H.
  apply andb_prop in H as [H _]. apply isTokenChar_spec in H as (-> & _ & ->).
  reflexivity.
Qed.

Lemma join_cons (sep s : string) (l : list string) :
  l <> [] -> join sep (s :: l) = s ++ sep ++ join sep l.
Proof. destruct l; [congruence | reflexivity]. Qed.

Lemma join_snoc (sep s : string) (l : list string) :
  l <> [] -> join sep (l ++ [s]) = join sep l ++ sep ++ s.
Proof.
  induction l as [|a l IH]; [congruence|]. intros _.
  destruct l as [|b l]; [reflexivity|].
  change ((a :: b :: l) ++ [s])%list with (a :: ((b :: l) ++ [s]))%list.
  rewrite (join_cons sep a ((b :: l) ++ [s])) by (cbn; discriminate).
  rewrite IH by discriminate.
  rewrite (join_cons sep a (b :: l)) by discriminate.
  now rewrite !append_assoc.
Qed.

Lemma join_head (sep s : string) (l : list string) :
  exists r, join sep (s :: l) = s ++ r.
Proof.
  destruct l as [|b l]; [exists ""; cbn [join]; now rewrite append_empty_r|].
  eexists. reflexivity.
Qed.

Lemma collect_nodes (es : list expr) :
  forall tokens operationStrings,
    collect (tokens, operationStrings) (map Node es)
    = ((tokens ++ es)%list, operationStrings).
Proof.
  induction es as [|e es IH]; intros tokens operationStrings; cbn [map collect fold_left].
  - now rewrite app_nil_r.
  - cbn [collectOne]. fold (collect ((tokens ++ [e])%list, operationStrings) (map Node es)).
    rewrite IH, <- app_assoc. reflexivity.
Qed.

Lemma reads_token (operationAtStart : bool) (token : string) (t : parsedToken) :
  token <> "" -> allChars isTokenChar token = true ->
  (forall start, classify token start = Return t) ->
  reads operationAtStart token t.
Proof.
  intros Hne Htoken Hclass. split; [now apply token_opensItem|].
  exists 1. intros rest start [|fuel] Hrest Hfuel; [lia|].
  cbn [parseToken].
  assert (Hparen : startsWith "(" (token ++ rest) = false).
  { destruct token as [|c token]; [congruence|]. cbn [append startsWith].
    cbn [allChars] in Htoken. apply andb_prop in Htoken as [Hc _].
    now apply isTokenChar_spec in Hc as (_ & -> & _). }
  rewrite Hparen, (span_token _ _ Htoken Hrest), Hclass. cbn [bind]. eauto.
Qed.

Lemma reads_operationString (operationAtStart : bool) (o : operator) :
  reads operationAtStart (operationString o) (OperationString (operationString o)).
Proof.
  apply reads_token; destruct o; try discriminate; reflexivity.
Qed.

Lemma reads_variable (operationAtStart : bool) (varName : string) :
  includes varName vars = true ->
  reads operationAtStart varName (Node (Variable_ varName)).
Proof.
  intros H. unfold includes, vars in H. cbn [existsb] in H.
  repeat (apply orb_prop in H as [H|H]); try discriminate H;
    apply String.eqb_eq in H as ->; apply reads_token;
    try discriminate; reflexivity.
Qed.

Lemma reads_constant (operationAtStart : bool) (value : number) :
  stableConstant value = true ->
  reads operationAtStart (Number_toString value)
        (Node (Const (parseInt (Number_toString value)))).
Proof.
  unfold stableConstant. intros H.
  apply andb_prop in H as [H _]. apply andb_prop in H as [H Hnum].
  apply andb_prop in H as [H Hvars]. apply andb_prop in H as [Hne Htoken].
  apply negb_true_iff in Hvars.
  destruct (Number_toString value) as [|c text] eqn:Htext; [discriminate|].
  apply reads_token; [discriminate | exact Htoken|].
  intros start. unfold classify. cbn [isEmpty]. now rewrite Hvars, Hnum.
Qed.

(** The loop of [parseOperation] on items separated by one space and
    followed by the closing bracket. *)
Lemma parseOperands_items (operationAtStart : bool) (items : list string)
      (ts : list parsedToken) :
  Forall2 (reads operationAtStart) items ts ->
  items <> [] ->
  exists fuel0, forall rest start tokens operationStrings fuel,
    fuel0 <= fuel ->
    exists start',
      parseOperands operationAtStart fuel (join " " items ++ ")" ++ rest) start
                    tokens operationStrings
      = Return (collect (tokens, operationStrings) ts, (")" ++ rest, start')).
Proof.
  induction 1 as [|item t items ts [Hopen [fuel0 Hread]] Hrest IH]; [congruence|].
  intros _. destruct items as [|item2 items].
  - (* the last item *)
    inversion Hrest; subst. cbn [join].
    exists (S (S fuel0)). intros rest start tokens operationStrings [|fuel] Hfuel; [lia|].
    destruct (Hread (")" ++ rest) start fuel eq_refl ltac:(lia)) as [start1 Hparse].
    cbn [parseOperands].
    rewrite (opensItem_continues _ (opensItem_app _ _ Hopen)), Hparse. cbn [bind].
    change (skipWhitespaces (")" ++ rest) start1) with (")" ++ rest, start1).
    cbn [collect fold_left collectOne].
    destruct fuel as [|fuel]; [lia|].
    destruct t; cbn [parseOperands isEmpty startsWith append Ascii.eqb orb];
      (exists start1; reflexivity).
  - (* an item followed by others *)
    destruct (IH ltac:(discriminate)) as [fuel1 Hloop].
    exists (S (Nat.max fuel0 fuel1)).
    intros rest start tokens operationStrings [|fuel] Hfuel; [lia|].
    assert (Hopen2 : opensItem (join " " (item2 :: items) ++ ")" ++ rest) = true).
    { destruct (join_head " " item2 items) as [r ->].
      inversion Hrest as [|? ? ? ? [H2 _] _]; subst.
      rewrite append_assoc. now apply opensItem_app. }
    rewrite join_cons by discriminate. rewrite !append_assoc.
    destruct (Hread (" " ++ join " " (item2 :: items) ++ ")" ++ rest) start fuel
                eq_refl ltac:(lia)) as [start1 Hparse].
    cbn [parseOperands].
    rewrite (opensItem_continues _ (opensItem_app _ _ Hopen)), Hparse. cbn [bind].
    change (skipWhitespaces (" " ++ join " " (item2 :: items) ++ ")" ++ rest) start1)
      with (skipWhitespaces (join " " (item2 :: items) ++ ")" ++ rest) (S start1)).
    rewrite (opensItem_skip _ _ Hopen2).
    cbn [collect fold_left].
    destruct t; cbn [collectOne];
      match goal with
      | |- context [parseOperands _ _ _ _ ?tk ?os] =>
          destruct (Hloop rest (S start1) tk os fuel ltac:(lia)) as [start2 ->]
      end; exists start2; reflexivity.
Qed.

Lemma Forall2_map {A B C : Type} (R : B -> C -> Prop) (f : A -> B) (g : A -> C)
      (l : list A) :
  Forall (fun x => R (f x) (g x)) l -> Forall2 R (map f l) (map g l).
Proof. induction 1; cbn [map]; constructor; assumption. Qed.

Lemma Forall_firstn_skipn {A : Type} (P : A -> Prop) (n : nat) (l : list A) :
  Forall P l -> Forall P (firstn n l) /\ Forall P (skipn n l).
Proof.
  intros H. rewrite <- (firstn_skipn n l) in H. now apply Forall_app in H.
Qed.

Lemma collect_group (es : list expr) (s : string) (index : nat) :
  index <= List.length es ->
  collect ([], [])
          (map Node (firstn index es) ++ OperationString s :: map Node (skipn index es))
  = (es, [(s, index)]).
Proof.
  intros Hindex. unfold collect. rewrite fold_left_app.
  fold (collect ([], []) (map Node (firstn index es))). rewrite collect_nodes.
  cbn [app fold_left collectOne].
  fold (collect (firstn index es, [(s, List.length (firstn index es))])
                (map Node (skipn index es))).
  rewrite collect_nodes, firstn_skipn, length_firstn, Nat.min_l by exact Hindex.
  reflexivity.
Qed.

Lemma render_group (operationAtStart : bool) (o : operator) (operands : list expr) :
  operands <> [] ->
  render operationAtStart (Operation o operands)
  = groupText o (map (render operationAtStart) operands)
              (if operationAtStart then 0 else List.length operands).
Proof.
  intros Hne. cbn [render]. unfold groupText, groupItems.
  set (rs := map (render operationAtStart) operands).
  assert (Hrs : rs <> []) by (subst rs; destruct operands; [congruence | discriminate]).
  destruct operationAtStart.
  - cbn [firstn skipn app]. now rewrite (join_cons _ _ _ Hrs), !append_assoc.
  - replace (List.length operands) with (List.length rs) by (subst rs; apply length_map).
    rewrite firstn_all, skipn_all.
    now rewrite (join_snoc _ _ _ Hrs), !append_assoc.
Qed.

(** [parseToken] on a group: the operands are read, whatever the place
    of the operation string, and the checks at the closing bracket
    decide. *)
Lemma parseToken_group (operationAtStart : bool) (o : operator)
      (operands : list expr) (index : nat) :
  operands <> [] -> index <= List.length operands ->
  Forall (fun x => reads operationAtStart (render operationAtStart x) (Node (reread x)))
         operands ->
  exists fuel0, forall rest start fuel,
    fuel0 <= fuel ->
    exists start',
      parseToken operationAtStart fuel
        (groupText o (map (render operationAtStart) operands) index ++ rest) start
      = (e <- checkOperation operationAtStart start (map reread operands)
                [(operationString o, index)] ;;
         Return (Node e, (rest, start'))).
Proof.
  intros Hne Hindex Hall.
  set (rs := map (render operationAtStart) operands).
  set (items := groupItems o rs index).
  set (ts := (map Node (firstn index (map reread operands))
                ++ OperationString (operationString o)
                :: map Node (skipn index (map reread operands)))%list).
  assert (Hitems : Forall2 (reads operationAtStart) items ts).
  { subst items ts rs. unfold groupItems.
    rewrite !firstn_map, !skipn_map.
    destruct (Forall_firstn_skipn _ index operands Hall) as [Hfirst Hskip].
    apply Forall2_app; [|constructor; [apply reads_operationString|]].
    - rewrite map_map. now apply Forall2_map.
    - rewrite map_map. now apply Forall2_map. }
  assert (Hitems_ne : items <> []).
  { subst items. unfold groupItems. destruct (firstn index rs); discriminate. }
  assert (Hopen : opensItem (join " " items) = true).
  { subst items. unfold groupItems.
    destruct (firstn index rs) as [|r0 first] eqn:Hfirst; cbn [app].
    - destruct (join_head " " (operationString o) (skipn index rs)) as [r ->].
      apply opensItem_app. destruct o; reflexivity.
    - destruct (join_head " " r0 (first ++ operationString o :: skipn index rs)%list)
        as [r ->].
      apply opensItem_app.
      destruct operands as [|x operands]; [congruence|].
      subst rs. destruct index; [discriminate Hfirst|].
      cbn [map firstn] in Hfirst. injection Hfirst as <- _.
      apply Forall_inv in Hall. apply Hall. }
  destruct (parseOperands_items operationAtStart items ts Hitems Hitems_ne)
    as [fuel1 Hloop].
  exists (S (S fuel1)). intros rest start fuel Hfuel.
  destruct fuel as [|[|fuel]]; try lia.
  unfold groupText. fold items. cbn [append]. rewrite append_assoc.
  cbn [parseToken startsWith Ascii.eqb Bool.eqb andb parseOperation advance].
  rewrite (opensItem_skip _ _ (opensItem_app _ _ Hopen)).
  destruct (Hloop rest (S start) [] [] fuel ltac:(lia)) as [start1 ->].
  subst ts. rewrite collect_group by (now rewrite length_map).
  cbn [bind append startsWith Ascii.eqb Bool.eqb andb advance].
  destruct (checkOperation operationAtStart start (map reread operands)
              [(operationString o, index)]); cbn [bind]; eauto.
Qed.

Lemma reads_operation (operationAtStart : bool) (o : operator) (operands : list expr) :
  arityRespected o (List.length operands) = true ->
  Forall (fun x => reads operationAtStart (render operationAtStart x) (Node (reread x)))
         operands ->
  reads operationAtStart (render operationAtStart (Operation o operands))
        (Node (Operation o (map reread operands))).
Proof.
  intros Harity Hall.
  assert (Hne : operands <> []).
  { intros ->. unfold arityRespected in Harity. discriminate Harity. }
  rewrite (render_group _ _ _ Hne).
  split; [reflexivity|].
  destruct (parseToken_group operationAtStart o operands
              (if operationAtStart then 0 else List.length operands) Hne
              ltac:(destruct operationAtStart; lia) Hall) as [fuel0 Hparse].
  exists fuel0. intros rest start fuel Hrest Hfuel.
  destruct (Hparse rest start fuel Hfuel) as [start' ->].
  replace (List.length operands) with (List.length (map reread operands))
    by apply length_map.
  rewrite checkOperation_amount, length_map, Harity. cbn [bind]. eauto.
Qed.

Lemma reads_render (operationAtStart : bool) (e : expr) :
  parsed e = true -> stableConstants e = true ->
  reads operationAtStart (render operationAtStart e) (Node (reread e)).
Proof.
  induction e as [value|varName|o operands IH|] using expr_induction;
    cbn [parsed stableConstants]; intros Hparsed Hstable.
  - now apply reads_constant.
  - now apply reads_variable.
  - apply andb_prop in Hparsed as [Harity Hparsed].
    change (reread (Operation o operands)) with (Operation o (map reread operands)).
    apply reads_operation; [exact Harity|].
    rewrite forallb_forall in Hparsed, Hstable. rewrite Forall_forall in *.
    intros x Hx. apply IH; auto.
  - discriminate.
Qed.

(** What [parsePrefix] and [parsePostfix] give on a text that
    [parseToken] reads as a whole. *)
Lemma parseWithBrackets_outcome (operationAtStart : bool) (text : string)
      (r : outcome expr) :
  opensItem text = true -> r <> Diverge ->
  (exists fuel0, forall fuel, fuel0 <= fuel ->
     exists start',
       parseToken operationAtStart fuel text 0
       = (e <- r ;; Return (Node e, ("", start')))) ->
  parseWithBrackets operationAtStart text = r.
Proof.
  intros Hopen Hr [fuel0 Hread].
  set (fuel := 3 * String.length text + 3).
  destruct (Hread (Nat.max fuel0 fuel) ltac:(lia)) as [start' Hparse].
  unfold parseWithBrackets. rewrite (opensItem_skip _ _ Hopen). fold fuel.
  destruct (parseToken_more operationAtStart text 0 fuel (Nat.max fuel0 fuel) ltac:(lia))
    as [Hdiverge|Hsame].
  - pose proof (proj1 (parser_spec operationAtStart (String.length text) fuel)
                  text 0 eq_refl) as Hspec.
    rewrite Hdiverge in Hspec. cbn [tokenSpec] in Hspec. lia.
  - rewrite Hsame, Hparse. destruct r; [reflexivity | reflexivity | congruence].
Qed.

(** The text of a tree of the bracketed parsers is accepted, and gives
    the tree with its constants read again. *)
Lemma parseWithBrackets_render (operationAtStart : bool) (e : expr) :
  parsed e = true -> stableConstants e = true ->
  parseWithBrackets operationAtStart (render operationAtStart e) = Return (reread e).
Proof.
  intros Hparsed Hstable.
  destruct (reads_render operationAtStart e Hparsed Hstable) as [Hopen [fuel0 Hread]].
  apply parseWithBrackets_outcome; [exact Hopen | discriminate|].
  exists fuel0. intros fuel Hfuel.
  destruct (Hread "" 0 fuel eq_refl Hfuel) as [start' Hparse].
  rewrite append_empty_r in Hparse. exists start'. exact Hparse.
Qed.

Lemma reads_operands (operationAtStart : bool) (operands : list expr) :
  forallb parsed operands = true -> forallb stableConstants operands = true ->
  Forall (fun x => reads operationAtStart (render operationAtStart x) (Node (reread x)))
         operands.
Proof.
  intros Hparsed Hstable. rewrite forallb_forall in Hparsed, Hstable.
  apply Forall_forall. intros x Hx. apply reads_render; auto.
Qed.

(** A group alone, with the operation string anywhere among the
    operands: the checks at the closing bracket decide. *)
Lemma parseWithBrackets_group (operationAtStart : bool) (o : operator)
      (operands : list expr) (index : nat) :
  operands <> [] -> index <= List.length operands ->
  forallb parsed operands = true -> forallb stableConstants operands = true ->
  parseWithBrackets operationAtStart
    (groupText o (map (render operationAtStart) operands) index)
  = checkOperation operationAtStart 0 (map reread operands) [(operationString o, index)].
Proof.
  intros Hne Hindex Hparsed Hstable.
  destruct (parseToken_group operationAtStart o operands index Hne Hindex
              (reads_operands _ _ Hparsed Hstable)) as [fuel0 Hparse].
  apply parseWithBrackets_outcome; [reflexivity | apply checkOperation_ends|].
  exists fuel0. intros fuel Hfuel.
  destruct (Hparse "" 0 fuel Hfuel) as [start' H].
  rewrite append_empty_r in H. exists start'. exact H.
Qed.

(** C5: when the one operation string of a group stands where it must,
    the group becomes a node if it has at least one operand and as many
    as the arity of the operation, or any number when that arity is 0;
    otherwise [InvalidOperationError] is thrown for the amount of
    arguments, at the opening bracket.  A name that [operations] only
    inherits has no arity and is always refused.  So it is at the end of
    [parseOperation], and so for [parsePrefix] and [parsePostfix] on the
    text of an operation with any operands; [parsePrefix("(+ x)")]
    throws this error. *)
Theorem checkOperation_argument_count :
  (forall operationAtStart startPos tokens o,
      checkOperation operationAtStart startPos tokens
        [(operationString o, if operationAtStart then 0 else List.length tokens)]
      = if (1 <=? List.length tokens)%nat
           && ((arity o =? 0)%nat || (arity o =? List.length tokens)%nat)
        then Return (Operation o tokens)
        else Throw (invalidAmount startPos (List.length tokens) (operationString o)))
  /\ (forall operationAtStart startPos tokens s,
         operations_get s = Some ObjectConstructor
         \/ operations_get s = Some NotConstructor ->
         checkOperation operationAtStart startPos tokens
           [(s, if operationAtStart then 0 else List.length tokens)]
         = Throw (invalidAmount startPos (List.length tokens) s))
  /\ (forall operationAtStart o operands,
         operands <> [] ->
         forallb parsed operands = true -> forallb stableConstants operands = true ->
         parseWithBrackets operationAtStart
           (render operationAtStart (Operation o operands))
         = if (1 <=? List.length operands)%nat
              && ((arity o =? 0)%nat || (arity o =? List.length operands)%nat)
           then Return (Operation o (map reread operands))
           else Throw (invalidAmount 0 (List.length operands) (operationString o)))
  /\ (forall operationAtStart o,
         parseWithBrackets operationAtStart ("(" ++ operationString o ++ ")")
         = Throw (invalidAmount 0 0 (operationString o)))
  /\ parsePrefix "(+ x)" = Throw (invalidAmount 0 1 "+")
  /\ parsePostfix "(x +)" = Throw (invalidAmount 0 1 "+").
Proof.
  split; [exact checkOperation_amount|].
  split; [exact checkOperation_inherited|].
  split; [|split; [|split; reflexivity]].
  - intros b o operands Hne Hparsed Hstable.
    rewrite (render_group _ _ _ Hne).
    rewrite parseWithBrackets_group; auto; [|destruct b; lia].
    replace (List.length operands) with (List.length (map reread operands))
      by apply length_map.
    apply checkOperation_amount.
  - intros b o. destruct b, o; reflexivity.
Qed.

Lemma checkOperation_argument_count_witness :
  parseWithBrackets false "((x negate) 2 y pow)"
  = Throw (invalidAmount 0 3 "pow").
Proof.
  exact (proj1 (proj2 (proj2 checkOperation_argument_count)) false Pow
           [Operation Negate [Variable_ "x"]; Const (of_Z 2); Variable_ "y"]
           ltac:(discriminate) eq_refl eq_refl).
Defined.

(** C6: when a group holds one operation string and its index among the
    tokens of the group is not 0 (prefix) or not the number of operands
    (postfix), [InvalidOperationError] is thrown for the position of the
    operation, at the opening bracket; at the index required this error
    is not thrown.  So it is at the end of [parseOperation], and so for
    [parsePrefix] and [parsePostfix] on the text of a group with the
    operation string anywhere else among the operands;
    [parsePrefix("(x + y)")] throws this error. *)
Theorem checkOperation_position :
  (forall (operationAtStart : bool) (startPos : nat) (tokens : list expr)
          (s : string) (index : nat),
      (index <> (if operationAtStart then 0 else List.length tokens) ->
       checkOperation operationAtStart startPos tokens [(s, index)]
       = Throw (invalidPosition startPos s))
      /\ (index = (if operationAtStart then 0 else List.length tokens) ->
          checkOperation operationAtStart startPos tokens [(s, index)]
          <> Throw (invalidPosition startPos s)))
  /\ (forall (operationAtStart : bool) (o : operator) (operands : list expr)
             (index : nat),
         operands <> [] ->
         forallb parsed operands = true -> forallb stableConstants operands = true ->
         index <= List.length operands ->
         index <> (if operationAtStart then 0 else List.length operands) ->
         parseWithBrackets operationAtStart
           (groupText o (map (render operationAtStart) operands) index)
         = Throw (invalidPosition 0 (operationString o)))
  /\ parsePrefix "(x + y)" = Throw (invalidPosition 0 "+")
  /\ parsePostfix "(x + y)" = Throw (invalidPosition 0 "+").
Proof.
  split; [|split; [|split; reflexivity]].
  - intros b startPos tokens s index. split.
    + apply checkOperation_misplaced.
    + intros ->. apply checkOperation_placed.
  - intros b o operands index Hne Hparsed Hstable Hindex Hplace.
    rewrite parseWithBrackets_group by assumption.
    apply checkOperation_misplaced. now rewrite length_map.
Qed.

Lemma checkOperation_position_witness :
  parseWithBrackets true "(x + y)" = Throw (invalidPosition 0 "+").
Proof.
  exact (proj1 (proj2 checkOperation_position) true Add
           [Variable_ "x"; Variable_ "y"] 1
           ltac:(discriminate) eq_refl eq_refl ltac:(cbn; lia) ltac:(discriminate)).
Defined.

(** ** Integers below 2^53 *)

Lemma digits2_pos_size (p : positive) : digits2_pos p = Pos.size p.
Proof. induction p; cbn [digits2_pos Pos.size]; congruence. Qed.

Lemma digits2_pos_bound (p : positive) :
  (Zpos p < 2 ^ 53)%Z -> (Zpos (digits2_pos p) <= 53)%Z.
Proof.
  intros H. rewrite digits2_pos_size.
  pose proof (Pos.size_le p) as Hle.
  apply Pos2Z.pos_le_pos in Hle. rewrite Pos2Z.inj_pow in Hle.
  change (Zpos p~0) with (2 * Zpos p)%Z in Hle.
  destruct (Z.le_gt_cases (Zpos (Pos.size p)) 53) as [Hs|Hs]; [exact Hs|].
  assert (2 ^ 54 <= 2 ^ Zpos (Pos.size p))%Z by (apply Z.pow_le_mono_r; lia).
  change (2 ^ 54)%Z with (2 * 2 ^ 53)%Z in *. lia.
Qed.

Lemma iter_xO_digits (p s : positive) :
  digits2_pos (Pos.iter xO p s) = (digits2_pos p + s)%positive.
Proof.
  induction s as [|s IH] using Pos.peano_ind.
  - cbn. lia.
  - rewrite Pos.iter_succ. cbn [digits2_pos]. rewrite IH. lia.
Qed.

Lemma iter_xO_value (p s : positive) :
  Zpos (Pos.iter xO p s) = (Zpos p * 2 ^ Zpos s)%Z.
Proof.
  induction s as [|s IH] using Pos.peano_ind.
  - cbn. lia.
  - rewrite Pos.iter_succ, Pos2Z.inj_succ, Z.pow_succ_r by lia.
    rewrite Pos2Z.inj_xO, IH. lia.
Qed.

(** A mantissa of 53 bits is kept as it is. *)
Lemma binary_round_aux_canonical (sign : bool) (m : positive) (e : Z) :
  Zpos (digits2_pos m) = 53%Z -> (-1074 <= e <= 971)%Z ->
  binary_round_aux prec emax sign (Zpos m) e loc_Exact = S754_finite sign m e.
Proof.
  intros Hm He.
  assert (Hshift : (fexp prec emax (Zdigits2 (Zpos m) + e) - e = 0)%Z).
  { unfold fexp, emin, prec, emax. cbn [Zdigits2]. rewrite Hm. lia. }
  unfold binary_round_aux, shr_fexp. rewrite Hshift.
  cbn [shr shr_record_of_loc loc_of_shr_record shr_m round_nearest_even].
  rewrite Hshift. cbn [shr shr_record_of_loc shr_m].
  unfold prec, emax. destruct (Z.leb_spec e (1024 - 53)); [reflexivity | lia].
Qed.

(** The number that an integer below 2^53 is: the integer itself, on a
    mantissa of 53 bits. *)
Lemma binary_round_safe (sign : bool) (p : positive) :
  (Zpos p < 2 ^ 53)%Z ->
  exists m e,
    binary_round prec emax sign p 0 = S754_finite sign m e
    /\ (e <= 0)%Z /\ Zpos m = (Zpos p * 2 ^ (- e))%Z.
Proof.
  intros Hp. pose proof (digits2_pos_bound p Hp) as Hd.
  unfold binary_round, shl_align.
  assert (Hfexp : fexp prec emax (Zpos (digits2_pos p) + 0)
                  = (Zpos (digits2_pos p) - 53)%Z).
  { unfold fexp, emin, prec, emax. lia. }
  rewrite Hfexp.
  destruct (Zpos (digits2_pos p) - 53 - 0)%Z as [|s|s] eqn:Hs; try lia.
  - exists p, 0%Z. split; [|split; [lia | cbn; lia]].
    apply binary_round_aux_canonical; lia.
  - exists (Pos.iter xO p s), (Zpos (digits2_pos p) - 53)%Z.
    split; [|split; [lia|]].
    + apply binary_round_aux_canonical; [|lia].
      rewrite iter_xO_digits. lia.
    + rewrite iter_xO_value. f_equal. f_equal. lia.
Qed.

Lemma integerValue_scaled (m : positive) (e z : Z) :
  (e <= 0)%Z -> Zpos m = (z * 2 ^ (- e))%Z -> integerValue m e = Some z.
Proof.
  intros He Hm. unfold integerValue.
  assert (0 < 2 ^ (- e))%Z by (apply Z.pow_pos_nonneg; lia).
  rewrite Hm, Z.mod_mul, Z.div_mul by lia.
  destruct (Z.leb_spec e 0); [reflexivity | lia].
Qed.

Lemma of_Z_text (z : Z) :
  (0 < Z.abs z < 2 ^ 53)%Z ->
  Number_toString (of_Z z) = (if (z <? 0)%Z then "-" else "") ++ decimal (Z.abs z).
Proof.
  intros Hz. unfold of_Z, binary_normalize.
  destruct z as [|p|p]; [lia| |].
  - destruct (binary_round_safe false p ltac:(lia)) as (m & e & -> & He & Hm).
    cbn [Number_toString]. unfold finiteDigits.
    now rewrite (integerValue_scaled m e (Zpos p) He Hm).
  - destruct (binary_round_safe true p ltac:(lia)) as (m & e & -> & He & Hm).
    cbn [Number_toString]. unfold finiteDigits.
    now rewrite (integerValue_scaled m e (Zpos p) He Hm).
Qed.

Lemma string_of_uint_digits (d : Decimal.uint) :
  allChars isDigit (NilEmpty.string_of_uint d) = true.
Proof. induction d; cbn [NilEmpty.string_of_uint allChars]; try reflexivity; exact IHd. Qed.

Lemma digitsValue_acc (d : Decimal.uint) :
  forall acc : positive,
    digitsValue 10 digitValue (Zpos acc) (NilEmpty.string_of_uint d)
    = Zpos (Pos.of_uint_acc d acc).
Proof.
  induction d; intros acc; cbn [NilEmpty.string_of_uint digitsValue Pos.of_uint_acc];
    try reflexivity;
    match goal with
    | |- digitsValue _ _ (_ + digitValue ?c)%Z _ = Zpos (Pos.of_uint_acc _ ?a) =>
        let n := eval vm_compute in (digitValue c) in
        change (digitValue c) with n;
        replace (10 * Zpos acc + n)%Z with (Zpos a) by lia
    end; apply IHd.
Qed.

Lemma digitsValue_uint (d : Decimal.uint) :
  digitsValue 10 digitValue 0 (NilEmpty.string_of_uint d) = Z.of_N (Pos.of_uint d).
Proof.
  induction d; cbn [NilEmpty.string_of_uint digitsValue Pos.of_uint];
    try reflexivity; try exact IHd;
    match goal with
    | |- digitsValue _ _ ?v _ = _ =>
        let n := eval vm_compute in v in change v with n
    end; cbn [Z.of_N]; apply digitsValue_acc.
Qed.

Lemma decimal_positive (p : positive) :
  decimal (Zpos p) <> ""
  /\ allChars isDigit (decimal (Zpos p)) = true
  /\ digitsValue 10 digitValue 0 (decimal (Zpos p)) = Zpos p.
Proof.
  unfold decimal. cbn [Z.to_N N.to_uint]. split; [|split].
  - pose proof (DecimalPos.Unsigned.to_uint_nonnil p) as H.
    destruct (Pos.to_uint p); [congruence | discriminate ..].
  - apply string_of_uint_digits.
  - rewrite digitsValue_uint, DecimalPos.Unsigned.of_to. reflexivity.
Qed.

(** The text of an integer below 2^53 is read back as that integer. *)
Lemma safeInteger_stable (z : Z) :
  (Z.abs z < 2 ^ 53)%Z -> stableConstant (of_Z z) = true.
Proof.
  intros Hz. destruct (Z.eq_dec z 0) as [->|Hnz]; [reflexivity|].
  unfold stableConstant. rewrite (of_Z_text z ltac:(lia)).
  destruct (Z.abs z) as [|p|p] eqn:Habs; try lia.
  destruct (decimal_positive p) as (Hne & Hdigits & Hvalue).
  set (sign := if (z <? 0)%Z then "-" else "").
  assert (Hsign : sign = "" \/ sign = "+" \/ sign = "-")
    by (subst sign; destruct (z <? 0)%Z; auto).
  destruct (signed_digits sign (decimal (Zpos p)) Hsign Hne Hdigits)
    as (H1 & H2 & H3 & H4 & H5).
  rewrite H2, H3, H4, H5, Hvalue. cbn [negb andb Z.eqb].
  replace (negb (isEmpty (sign ++ decimal (Zpos p)))) with true
    by (destruct (sign ++ decimal (Zpos p)); [congruence | reflexivity]).
  cbn [andb].
  replace (if String.eqb sign "-" then (- Zpos p)%Z else Zpos p) with z.
  - rewrite (of_Z_text z ltac:(lia)), Habs. apply String.eqb_refl.
  - subst sign.
    destruct (Z.ltb_spec z 0);
      [change (String.eqb "-" "-") with true | change (String.eqb "" "-") with false];
      cbn iota; lia.
Qed.

(** C3 (as stated, refuted): ["Infinity"] is accepted and gives the
    constant NaN, whose text ["NaN"] is refused; the text ["1e+21"] of
    the constant read from 22 digits is read back as 1. *)
Lemma rendering_not_read_back :
  parsePrefix "Infinity" = Return (Const NaN)
  /\ prefix (Const NaN) = Return "NaN"
  /\ parsePrefix "NaN" = Throw (ParseError InvalidFormatError "Unknown token: NaN" (Some 0))
  /\ parsePostfix "Infinity" = Return (Const NaN)
  /\ postfix (Const NaN) = Return "NaN"
  /\ parsePostfix "NaN" = Throw (ParseError InvalidFormatError "Unknown token: NaN" (Some 0))
  /\ (e <- parsePrefix "(negate 1000000000000000000000)" ;; prefix e)
     = Return "(negate 1e+21)"
  /\ (e <- parsePrefix "(negate 1e+21)" ;; prefix e) = Return "(negate 1)".
Proof. repeat split; vm_compute; reflexivity. Qed.

(** C3 (amended): when [parsePrefix] accepts an input and every constant
    of the tree has a text that is one token, is read as a number and
    gives a number with the same text, the text given by [prefix] is
    accepted by [parsePrefix] and the tree it gives has the same text;
    the same holds of [parsePostfix] and [postfix].  Every integer of
    magnitude below 2^53 is such a constant (NaN and the numbers written
    with an exponent are not). *)
Theorem rendering_is_fixed_point :
  (forall (expression : string) (e : expr),
      stableConstants e = true ->
      (parsePrefix expression = Return e ->
       exists text e',
         prefix e = Return text /\ parsePrefix text = Return e'
         /\ prefix e' = Return text)
      /\ (parsePostfix expression = Return e ->
          exists text e',
            postfix e = Return text /\ parsePostfix text = Return e'
            /\ postfix e' = Return text))
  /\ (forall z : Z, (Z.abs z < 2 ^ 53)%Z -> stableConstant (of_Z z) = true).
Proof.
  split; [|exact safeInteger_stable].
  intros expression e Hstable. split; intros Hparse.
  - pose proof (parseWithBrackets_parsed _ _ _ Hparse) as Hparsed.
    exists (render true e), (reread e). split; [now apply prefix_render|].
    split; [now apply parseWithBrackets_render|].
    rewrite <- (render_reread true e Hstable).
    apply prefix_render, parsed_reread, Hparsed.
  - pose proof (parseWithBrackets_parsed _ _ _ Hparse) as Hparsed.
    exists (render false e), (reread e). split; [now apply postfix_render|].
    split; [now apply parseWithBrackets_render|].
    rewrite <- (render_reread false e Hstable).
    apply postfix_render, parsed_reread, Hparsed.
Qed.

Lemma rendering_is_fixed_point_witness :
  exists text e',
    prefix (Operation Mean [Operation Add [Variable_ "x"; Const (of_Z (-12))];
                            Operation Negate [Const (of_Z 7)]]) = Return text
    /\ parsePrefix text = Return e'
    /\ prefix e' = Return text.
Proof.
  apply (proj1 (proj1 rendering_is_fixed_point "( mean(+ x -12)  (negate 007) )"
                  (Operation Mean [Operation Add [Variable_ "x"; Const (of_Z (-12))];
                                   Operation Negate [Const (of_Z 7)]])
                  ltac:(vm_compute; reflexivity))).
  vm_compute. reflexivity.
Defined.

(** ** The model on known values *)

(** The digits of [Number_toString]: for integers the digits of the
    integer agree with the fewest digits that read back, and numbers
    that are not integers are written as the host writes them. *)
Example Number_toString_values :
  map (fun z => let '(s, k, n) := shortest z 0 in formatDigits s k n)
      [1; 7; 100; 123456789; 9007199254740991]%Z
  = map decimal [1; 7; 100; 123456789; 9007199254740991]%Z
  /\ map Number_toString
         [Math_E; div (of_Z 1) (of_Z 10); div (of_Z 11) (of_Z 3); div (of_Z (-5)) (of_Z 2);
          of_Z (2 ^ 60); of_Z (10 ^ 21); div (of_Z 1) (of_Z 10000000);
          S754_finite false 1 (-1074); of_Z (10 ^ 400); NaN]
     = ["2.718281828459045"; "0.1"; "3.6666666666666665"; "-2.5";
        "1152921504606847000"; "1e+21"; "1e-7"; "5e-324"; "Infinity"; "NaN"].
Proof. split; vm_compute; reflexivity. Qed.

(** Parsing, evaluation, rendering and differentiation on small inputs. *)
Example parse_evaluate_values :
  forall Math_pow Math_log,
    (e <- parsePrefix "(+ x 1)" ;; evaluate Math_pow Math_log e [of_Z 5; of_Z 0; of_Z 0])
    = Return (VNumber (of_Z 6))
    /\ (e <- parsePrefix "(* x y)" ;; evaluate Math_pow Math_log e [of_Z 2; of_Z 3; of_Z 0])
       = Return (VNumber (of_Z 6))
    /\ (e <- parsePostfix "((x y *) (z negate) -)" ;;
        evaluate Math_pow Math_log e [of_Z 2; of_Z 3; of_Z 4])
       = Return (VNumber (of_Z 10))
    /\ (e <- parsePrefix "(* x x)" ;; d <- diff e "x" ;;
        evaluate Math_pow Math_log d [of_Z 3])
       = Return (VNumber (of_Z 6))
    /\ (e <- parsePrefix "(mean x y)" ;; d <- diff e "x" ;; prefix d)
       = Return "(/ (+ (+ 0 1) 0) 2)"
    /\ (e <- parsePrefix "(*(+ x  -12)(negate y))" ;; Return (toString e))
       = Return "x -12 + y negate *"
    /\ parsePrefix "(+ x y" = Throw (ParseError InvalidFormatError ") expected" (Some 6)).
Proof. intros. repeat split; vm_compute; reflexivity. Qed.

(* ===================================================================== *)
(** * Further properties *)
(* ===================================================================== *)

(** ** Which trees can be evaluated and rendered *)

Lemma parsed_nodesOnly (e : expr) : parsed e = true -> nodesOnly e = true.
Proof.
  induction e as [value|varName|o operands IH|] using expr_induction;
    cbn [parsed nodesOnly]; intros H; try reflexivity; [|discriminate].
  apply andb_prop in H as [_ H].
  rewrite forallb_forall in *. rewrite Forall_forall in IH. auto.
Qed.

Lemma sequence_throws {A : Type} (l : list (outcome A)) :
  Forall (fun m => (exists a, m = Return a) \/ m = Throw TypeError) l ->
  Exists (fun m => m = Throw TypeError) l ->
  sequence l = Throw TypeError.
Proof.
  induction 1 as [|m l Hm Hl IH]; intros Hex; [inversion Hex|].
  cbn [sequence]. destruct Hm as [[a ->]| ->]; cbn [bind]; [|reflexivity].
  rewrite IH; [reflexivity|]. inversion Hex; subst; [discriminate | assumption].
Qed.

Lemma sequence_returns {A : Type} (l : list (outcome A)) :
  Forall (fun m => exists a, m = Return a) l -> exists r, sequence l = Return r.
Proof.
  induction 1 as [|m l [a ->] _ [r IH]]; cbn [sequence bind]; [eauto|].
  rewrite IH. cbn [bind]. eauto.
Qed.

(** A method that is called on every operand, from left to right,
    returns on the trees of nodes and throws [TypeError] on the others. *)
Lemma method_outcome {A : Type} (f : expr -> outcome A)
      (combine : operator -> list A -> A) :
  (forall value, exists a, f (Const value) = Return a) ->
  (forall varName, exists a, f (Variable_ varName) = Return a) ->
  f PlainObject = Throw TypeError ->
  (forall o operands,
      f (Operation o operands)
      = (rs <- sequence (map f operands) ;; Return (combine o rs))) ->
  forall e,
    if nodesOnly e then exists a, f e = Return a else f e = Throw TypeError.
Proof.
  intros HConst HVariable HObject HOperation.
  induction e as [value|varName|o operands IH|] using expr_induction;
    cbn [nodesOnly]; auto.
  rewrite HOperation.
  assert (Hall : Forall (fun m => (exists a, m = Return a) \/ m = Throw TypeError)
                        (map f operands)).
  { apply Forall_map. eapply Forall_impl; [|exact IH].
    intros x Hx. cbv beta in Hx. destruct (nodesOnly x); auto. }
  destruct (forallb nodesOnly operands) eqn:Hnodes.
  - destruct (sequence_returns (map f operands)) as [rs ->]; [|cbn [bind]; eauto].
    apply Forall_map. rewrite forallb_forall in Hnodes. rewrite Forall_forall in *.
    intros x Hx. specialize (IH x Hx). cbv beta in IH. now rewrite (Hnodes x Hx) in IH.
  - rewrite sequence_throws; [reflexivity | exact Hall|].
    apply Exists_exists.
    assert (Hex : exists x, In x operands /\ nodesOnly x = false).
    { clear -Hnodes. induction operands as [|x operands IHo]; [discriminate|].
      cbn [forallb] in Hnodes. destruct (nodesOnly x) eqn:Hx.
      - destruct (IHo Hnodes) as (y & Hy & Hn). exists y. split; [now right | exact Hn].
      - exists x. split; [now left | exact Hx]. }
    destruct Hex as (x & Hx & Hn). exists (f x). split; [now apply in_map|].
    rewrite Forall_forall in IH. specialize (IH x Hx). cbv beta in IH.
    now rewrite Hn in IH.
Qed.

(** [evaluate] on the trees of nodes, and on the others. *)
Lemma methods_return_on_nodes_aux Math_pow Math_log (e : expr) (varValues : list number) :
  (if nodesOnly e
   then exists v, evaluate Math_pow Math_log e varValues = Return v
   else evaluate Math_pow Math_log e varValues = Throw TypeError)
  /\ (nodesOnly e = true ->
      prefix e = Return (render true e) /\ postfix e = Return (render false e))
  /\ (nodesOnly e = false -> prefix e = Throw TypeError /\ postfix e = Throw TypeError).
Proof.
  pose proof (method_outcome (fun x => evaluate Math_pow Math_log x varValues)
                (fun o vs => VNumber (operation Math_pow Math_log o vs))
                ltac:(cbn; eauto) ltac:(cbn; eauto) eq_refl
                ltac:(reflexivity) e) as Hevaluate.
  pose proof (method_outcome prefix
                (fun o rs => "(" ++ operationString o ++ " " ++ join " " rs ++ ")")
                ltac:(cbn; eauto) ltac:(cbn; eauto) eq_refl
                ltac:(reflexivity) e) as Hprefix.
  pose proof (method_outcome postfix
                (fun o rs => "(" ++ join " " rs ++ " " ++ operationString o ++ ")")
                ltac:(cbn; eauto) ltac:(cbn; eauto) eq_refl
                ltac:(reflexivity) e) as Hpostfix.
  split; [exact Hevaluate|]. split.
  - clear. induction e as [value|varName|o operands IH|] using expr_induction;
      cbn [nodesOnly prefix postfix render]; intros H; try (split; reflexivity);
      [|discriminate].
    rewrite forallb_forall in H. rewrite Forall_forall in IH.
    rewrite (sequence_map prefix (render true) operands),
      (sequence_map postfix (render false) operands);
      [split; reflexivity | |];
      apply Forall_forall; intros x Hx; now apply IH; auto.
  - intros Hn. rewrite Hn in Hprefix, Hpostfix. tauto.
Qed.

(** X1: [evaluate], [prefix] and [postfix] return on every tree made of
    nodes only, whatever the numbers of operands, and throw [TypeError]
    on a tree that holds a plain object; the trees of [parsePrefix] and
    [parsePostfix] are made of nodes only. *)
Theorem methods_return_on_nodes :
  forall Math_pow Math_log (e : expr) (varValues : list number),
    (if nodesOnly e
     then (exists v, evaluate Math_pow Math_log e varValues = Return v)
          /\ prefix e = Return (render true e)
          /\ postfix e = Return (render false e)
     else evaluate Math_pow Math_log e varValues = Throw TypeError
          /\ prefix e = Throw TypeError /\ postfix e = Throw TypeError)
    /\ (forall operationAtStart expression,
           parseWithBrackets operationAtStart expression = Return e ->
           nodesOnly e = true).
Proof.
  intros Math_pow Math_log e varValues. split.
  - destruct (methods_return_on_nodes_aux Math_pow Math_log e varValues)
      as (Hevaluate & Hreturn & Hthrow).
    destruct (nodesOnly e); [|split; [exact Hevaluate | now apply Hthrow]].
    split; [exact Hevaluate | now apply Hreturn].
  - intros b expression H. apply parsed_nodesOnly.
    eapply parseWithBrackets_parsed, H.
Qed.

(** ** Differentiating the trees of the parsers *)

Lemma parsed_sum (args : list expr) :
  forallb parsed args = true ->
  forall acc, parsed acc = true ->
              parsed (fold_left (fun a b => Operation Add [a; b]) args acc) = true.
Proof.
  induction args as [|x args IH]; cbn [forallb fold_left]; intros H acc Hacc;
    [exact Hacc|].
  apply andb_prop in H as [Hx H]. apply IH; [exact H|].
  cbn [parsed forallb]. now rewrite Hacc, Hx.
Qed.

Lemma parsed_Square (args : list expr) :
  forallb parsed args = true -> forallb parsed (map Square args) = true.
Proof.
  induction args as [|x args IH]; cbn [forallb map]; intros H; [reflexivity|].
  apply andb_prop in H as [Hx H]. rewrite (IH H). cbn [Square parsed forallb].
  now rewrite Hx.
Qed.

(** The operands of a node whose number of operands is that of its
    operation. *)
Lemma arityRespected_operands (o : operator) (operands : list expr) :
  arityRespected o (List.length operands) = true ->
  match arity o with
  | 0 => operands <> []
  | 1 => exists x, operands = [x]
  | _ => exists x y, operands = [x; y]
  end.
Proof.
  unfold arityRespected.
  destruct operands as [|x [|y [|z operands]]]; destruct o; cbn;
    try discriminate; eauto; congruence.
Qed.

Lemma diffFuel_parsed (varName : string) (fuel : nat) :
  forall e,
    diffDepth e <= fuel -> parsed e = true ->
    exists d, diffFuel fuel e varName = Return d /\ parsed d = true.
Proof.
  induction fuel as [|fuel IH]; intros e He Hparsed.
  { pose proof (diffDepth_positive e). lia. }
  destruct e as [value|name|o operands|]; cbn [diffFuel]; [| | |discriminate].
  - exists ZERO. split; reflexivity.
  - eexists. split; [reflexivity|]. destruct (String.eqb varName name); reflexivity.
  - cbn [parsed] in Hparsed. apply andb_prop in Hparsed as [Harity Hops].
    pose proof (arityRespected_operands o operands Harity) as Hshape.
    assert (Hoperand : forall x, In x operands ->
               exists d, diffFuel fuel x varName = Return d /\ parsed d = true).
    { intros x Hx. apply IH.
      - pose proof (diffDepth_operand x operands Hx). cbn [diffDepth] in He.
        destruct o; lia.
      - rewrite forallb_forall in Hops. now apply Hops. }
    destruct o; cbn [arity] in Hshape; cbn [operationDerivative];
      try (destruct Hshape as (x & y & ->);
           cbn [forallb] in Hops;
           apply andb_prop in Hops as [Hx Hy]; apply andb_prop in Hy as [Hy _];
           destruct (Hoperand x ltac:(now left)) as (dx & Ex & Hdx);
           destruct (Hoperand y ltac:(right; now left)) as (dy & Ey & Hdy);
           cbn [nth_error withDiff];
           repeat (rewrite ?Ex, ?Ey; cbn [bind withDiff]);
           eexists; split; [reflexivity|];
           cbn [parsed forallb arityRespected List.length arity Nat.leb Nat.eqb
                  andb orb ONE E];
           now rewrite ?Hx, ?Hy, ?Hdx, ?Hdy).
    + (* Negate *)
      destruct Hshape as (x & ->). cbn [forallb] in Hops.
      apply andb_prop in Hops as [Hx _].
      destruct (Hoperand x ltac:(now left)) as (dx & Ex & Hdx).
      cbn [nth_error withDiff]. rewrite Ex. cbn [bind].
      eexists. split; [reflexivity|].
      cbn [parsed forallb]. now rewrite Hdx.
    + (* Mean *)
      destruct (IH (fold_left (fun a b => Operation Add [a; b]) operands ZERO))
        as (ds & -> & Hds).
      * pose proof (diffDepth_sum operands ZERO) as Hsum.
        cbn [diffDepth ZERO] in Hsum, He. lia.
      * now apply parsed_sum.
      * cbn [bind]. eexists. split; [reflexivity|].
        cbn [parsed forallb]. now rewrite Hds.
    + (* Var *)
      apply IH.
      * cbn [diffDepth map Square] in *.
        rewrite !list_max_cons. change (list_max []) with 0.
        rewrite !length_map.
        pose proof (list_max_Square operands). lia.
      * assert (Hmean : arityRespected Mean (List.length operands) = true)
          by exact Harity.
        cbn [parsed forallb Square].
        rewrite length_map, Hmean, (parsed_Square _ Hops), Hops. reflexivity.
Qed.

(** X2: the derivative of a tree of [parsePrefix] or [parsePostfix]
    never throws, and is again a tree with the variables of [vars] and
    the number of operands of each operation: it can be evaluated,
    rendered and differentiated again. *)
Theorem diff_of_parsed :
  forall (e : expr) (varName : string),
    parsed e = true ->
    exists d, diff e varName = Return d /\ parsed d = true.
Proof.
  intros e varName H. apply diffFuel_parsed; [lia | exact H].
Qed.

Lemma diff_of_parsed_witness :
  exists d,
    diff (Operation Var [Variable_ "x"; Operation Pow [Variable_ "y"; Const (of_Z 2)]]) "y"
    = Return d
    /\ parsed d = true.
Proof.
  apply (diff_of_parsed
           (Operation Var [Variable_ "x"; Operation Pow [Variable_ "y"; Const (of_Z 2)]])
           "y").
  reflexivity.
Defined.

(** [diff] throws nothing but [TypeError]. *)
Lemma diffFuel_throws (varName : string) (fuel : nat) :
  forall e err, diffFuel fuel e varName = Throw err -> err = TypeError.
Proof.
  induction fuel as [|fuel IH]; intros e err; [discriminate|].
  destruct e as [value|name|o operands|]; cbn [diffFuel]; try discriminate;
    [|now intros [= <-]].
  set (d := fun node => diffFuel fuel node varName).
  assert (Hd : forall x err', d x = Throw err' -> err' = TypeError)
    by (intros x err'; apply IH).
  assert (Hwith : forall x k err',
             (forall n dn err'', k n dn = Throw err'' -> err'' = TypeError) ->
             withDiff d x k = Throw err' -> err' = TypeError).
  { intros [x|] k err' Hk; cbn [withDiff]; [|now intros [= <-]].
    destruct (d x) eqn:Hx; cbn [bind]; [apply Hk | | discriminate].
    intros [= <-]. eapply Hd, Hx. }
  destruct o; cbn [operationDerivative]; intros H;
    try (eapply Hwith; [|exact H]; intros ? ? ?;
         first [ discriminate
               | intros H'; eapply Hwith; [|exact H']; intros ? ? ?; discriminate ]).
  - destruct (d _) eqn:Hs; cbn [bind] in H; try discriminate.
    injection H as <-. eapply Hd, Hs.
  - eapply Hd, H.
Qed.

(** X3: a node that holds fewer operands than its operation has
    parameters (the flat parser builds such nodes) cannot be
    differentiated: [diff] throws [TypeError]. *)
Theorem diff_missing_operand :
  forall (o : operator) (operands : list expr) (varName : string),
    List.length operands < arity o ->
    diff (Operation o operands) varName = Throw TypeError.
Proof.
  intros o operands varName Hlen.
  assert (Hd : forall x, In x operands ->
             (exists dx, diffFuel (list_max (map diffDepth operands)) x varName = Return dx)
             \/ diffFuel (list_max (map diffDepth operands)) x varName = Throw TypeError).
  { intros x Hx.
    destruct (diffFuel (list_max (map diffDepth operands)) x varName) as [dx|err|] eqn:H.
    - left. eauto.
    - right. f_equal. eapply diffFuel_throws, H.
    - exfalso. revert H. apply diffFuel_enough. now apply diffDepth_operand. }
  unfold diff.
  destruct operands as [|x [|y operands]];
    destruct o; cbn [arity List.length] in Hlen; try lia;
    cbn [diffDepth Nat.add diffFuel operationDerivative nth_error withDiff];
    try reflexivity;
    destruct (Hd x ltac:(now left)) as [[dx ->]| ->]; reflexivity.
Qed.

Lemma diff_missing_operand_witness :
  diff (Operation Add [Const (of_Z 1)]) "x" = Throw TypeError
  /\ (r <- parse "1 +" ;;
      match r with Some e => diff e "x" | None => Throw TypeError end)
     = Throw TypeError.
Proof.
  split.
  - apply (diff_missing_operand Add [Const (of_Z 1)] "x"). cbn. lia.
  - reflexivity.
Defined.

(** ** The value of the derivative of [Mean] *)

Lemma diff_Mean_sum (args : list expr) (varName : string) :
  diff (Operation Mean args) varName
  = (ds <- diff (fold_left (fun a b => Operation Add [a; b]) args ZERO) varName ;;
     Return (Operation Divide [ds; Const (of_nat (List.length args))])).
Proof.
  unfold diff at 1.
  cbn [diffDepth]. rewrite Nat.add_comm with (n := List.length args + 2).
  replace (list_max (map diffDepth args) + (List.length args + 2))
    with (S (list_max (map diffDepth args) + List.length args + 1)) by lia.
  cbn [diffFuel operationDerivative].
  rewrite diff_fuel; [reflexivity|].
  pose proof (diffDepth_sum args ZERO) as H. cbn [diffDepth ZERO] in H. lia.
Qed.

Lemma sequence_Forall2 {A : Type} (f : expr -> outcome A) (l : list expr) :
  forall rs,
    sequence (map f l) = Return rs -> Forall2 (fun x r => f x = Return r) l rs.
Proof.
  induction l as [|x l IH]; cbn [map sequence]; intros rs H.
  - injection H as <-. constructor.
  - destruct (f x) as [r| |] eqn:Hx; cbn [bind] in H; try discriminate.
    destruct (sequence (map f l)) as [rs'| |]; cbn [bind] in H; try discriminate.
    injection H as <-. constructor; [exact Hx | now apply IH].
Qed.

(** The value of a sum folded from the left. *)
Lemma evaluate_sum Math_pow Math_log (varValues : list number)
      (ds : list expr) (vs : list value) :
  Forall2 (fun d v => evaluate Math_pow Math_log d varValues = Return v) ds vs ->
  forall acc total,
    evaluate Math_pow Math_log acc varValues = Return (VNumber total) ->
    evaluate Math_pow Math_log
             (fold_left (fun a b => Operation Add [a; b]) ds acc) varValues
    = Return (VNumber (fold_left (fun x y => add x (ToNumber y)) vs total)).
Proof.
  induction 1 as [|d v ds vs Hd _ IH]; intros acc total Hacc; cbn [fold_left];
    [exact Hacc|].
  apply IH. cbn [evaluate map sequence]. rewrite Hacc, Hd. reflexivity.
Qed.

(** X4: when the operands of a [Mean] node can be differentiated and
    their derivatives evaluated, the derivative of the node evaluates to
    the mean of the values of those derivatives, the value of the [Mean]
    node of the derivatives: the sum divided by the constant is the mean,
    computed with the same additions and the same division. *)
Theorem evaluate_diff_Mean :
  forall Math_pow Math_log (args ds : list expr) (vs : list value)
         (varName : string) (varValues : list number),
    Forall2 (fun x d => diff x varName = Return d) args ds ->
    sequence (map (fun d => evaluate Math_pow Math_log d varValues) ds) = Return vs ->
    (d <- diff (Operation Mean args) varName ;;
     evaluate Math_pow Math_log d varValues)
    = Return (VNumber (avg vs))
    /\ evaluate Math_pow Math_log (Operation Mean ds) varValues
       = Return (VNumber (avg vs)).
Proof.
  intros Math_pow Math_log args ds vs varName varValues Hdiff Hvalues.
  split; [|cbn [evaluate]; now rewrite Hvalues].
  rewrite diff_Mean_sum, (diff_sum varName args ds Hdiff ZERO ZERO eq_refl).
  cbn [bind evaluate map sequence].
  rewrite (evaluate_sum Math_pow Math_log varValues ds vs
             (sequence_Forall2 _ _ _ Hvalues) ZERO (of_Z 0) eq_refl).
  cbn [bind operation]. unfold argument, avg. cbn [nth ToNumber].
  rewrite (Forall2_length Hdiff), (Forall2_length (sequence_Forall2 _ _ _ Hvalues)).
  reflexivity.
Qed.

Lemma evaluate_diff_Mean_witness :
  (d <- diff (Operation Mean [Operation Multiply [Variable_ "x"; Variable_ "x"];
                              Variable_ "x"; Variable_ "y"]) "x" ;;
   evaluate (fun _ _ => NaN) (fun _ => NaN) d [of_Z 4; of_Z 7])
  = Return (VNumber (of_Z 3)).
Proof.
  apply (proj1 (evaluate_diff_Mean (fun _ _ => NaN) (fun _ => NaN)
                  [Operation Multiply [Variable_ "x"; Variable_ "x"];
                   Variable_ "x"; Variable_ "y"]
                  [Operation Add [Operation Multiply [ONE; Variable_ "x"];
                                  Operation Multiply [Variable_ "x"; ONE]];
                   ONE; ZERO]
                  [VNumber (of_Z 8); VNumber (of_Z 1); VNumber (of_Z 0)]
                  "x" [of_Z 4; of_Z 7]
                  ltac:(repeat constructor) ltac:(vm_compute; reflexivity))).
Defined.

(** ** Values and operands that are missing or too many *)

Lemma indexOf_vars (name : string) :
  (-1 <= indexOf name vars < 3)%Z.
Proof.
  unfold vars. cbn [indexOf].
  destruct (String.eqb "x" name), (String.eqb "y" name), (String.eqb "z" name);
    cbn; lia.
Qed.

(** X5: [evaluate] reads no value after the third: more values change
    nothing, for every tree. *)
Theorem evaluate_reads_three_values :
  forall Math_pow Math_log (e : expr) (a b c : number) (more : list number),
    evaluate Math_pow Math_log e (a :: b :: c :: more)
    = evaluate Math_pow Math_log e [a; b; c].
Proof.
  intros Math_pow Math_log e a b c more.
  induction e as [value|varName|o operands IH|] using expr_induction;
    cbn [evaluate]; try reflexivity.
  - f_equal. unfold at_index. pose proof (indexOf_vars varName) as Hi.
    destruct (Z.ltb_spec (indexOf varName vars) 0); [reflexivity|].
    destruct (Z.to_nat (indexOf varName vars)) as [|[|[|n]]] eqn:Hn;
      try reflexivity; lia.
  - replace (map (fun operand => evaluate Math_pow Math_log operand (a :: b :: c :: more))
                 operands)
      with (map (fun operand => evaluate Math_pow Math_log operand [a; b; c]) operands);
      [reflexivity|].
    apply map_ext_in. intros x Hx. rewrite Forall_forall in IH. symmetry. now apply IH.
Qed.

Lemma add_NaN (x : number) : add x NaN = NaN /\ add NaN x = NaN.
Proof. destruct x as [[]|[]| |[]]; split; reflexivity. Qed.

Lemma sub_NaN (x : number) : sub x NaN = NaN /\ sub NaN x = NaN.
Proof. destruct x as [[]|[]| |[]]; split; reflexivity. Qed.

Lemma mul_NaN (x : number) : mul x NaN = NaN /\ mul NaN x = NaN.
Proof. destruct x as [[]|[]| |[]]; split; reflexivity. Qed.

Lemma div_NaN (x : number) : div x NaN = NaN /\ div NaN x = NaN.
Proof. destruct x as [[]|[]| |[]]; split; reflexivity. Qed.

(** X6: a node of [+], [-], [*], [/] or [negate] that holds fewer
    operands than the operation has parameters (the flat parser builds
    such nodes) is evaluated without an error, and its value is NaN; so
    is a [mean] or [var] node with no operand. *)
Theorem evaluate_missing_operand :
  forall Math_pow Math_log (o : operator) (operands : list expr)
         (varValues : list number),
    o <> Pow -> o <> Log ->
    List.length operands < Nat.max 1 (arity o) ->
    forallb nodesOnly operands = true ->
    evaluate Math_pow Math_log (Operation o operands) varValues
    = Return (VNumber NaN).
Proof.
  intros Math_pow Math_log o operands varValues HPow HLog Hlen Hnodes.
  cbn [evaluate].
  assert (Hvalues : exists vs,
             sequence (map (fun x => evaluate Math_pow Math_log x varValues) operands)
             = Return vs /\ List.length vs = List.length operands).
  { clear Hlen. induction operands as [|x operands IHo]; [exists []; split; reflexivity|].
    cbn [forallb] in Hnodes. apply andb_prop in Hnodes as [Hx Hnodes].
    destruct (IHo Hnodes) as (vs & Hvs & Hl).
    pose proof (proj1 (methods_return_on_nodes_aux Math_pow Math_log x varValues)) as H.
    rewrite Hx in H. destruct H as [v Hv].
    exists (v :: vs). cbn [map sequence]. rewrite Hv, Hvs. split; [reflexivity|].
    cbn [List.length]. now rewrite Hl. }
  destruct Hvalues as (vs & -> & Hl). cbn [bind]. do 2 f_equal.
  rewrite <- Hl in Hlen. clear Hl Hnodes.
  destruct vs as [|v [|w vs]]; destruct o; cbn [arity Nat.max List.length] in Hlen;
    try lia; try congruence;
    unfold operation, argument, avg, square; cbn [nth ToNumber map fold_left List.length];
    try reflexivity;
    first [ apply add_NaN | apply sub_NaN | apply mul_NaN | apply div_NaN ].
Qed.

Lemma evaluate_missing_operand_witness :
  evaluate (fun _ _ => NaN) (fun _ => NaN)
           (Operation Subtract [Variable_ "x"]) [of_Z 1] = Return (VNumber NaN)
  /\ parseAndEvaluate (fun _ _ => NaN) (fun _ => NaN) "mean" [] = Return (VNumber NaN).
Proof.
  split.
  - apply (evaluate_missing_operand (fun _ _ => NaN) (fun _ => NaN)
             Subtract [Variable_ "x"] [of_Z 1]);
      [discriminate | discriminate | cbn; lia | reflexivity].
  - apply (evaluate_missing_operand (fun _ _ => NaN) (fun _ => NaN) Mean [] []);
      [discriminate | discriminate | cbn; lia | reflexivity].
Defined.

(** ** Inputs of white space, and inputs of one token *)

Lemma skipWhitespaces_app (ws rest : string) (start : nat) :
  whitespace ws = true ->
  (forall k, skipWhitespaces rest k = (rest, k)) ->
  skipWhitespaces (ws ++ rest) start = (rest, start + String.length ws).
Proof.
  intros Hws Hrest. revert start.
  induction ws as [|c ws IH]; intros start; cbn [append String.length].
  - rewrite Hrest. f_equal. lia.
  - unfold whitespace in Hws. cbn [allChars] in Hws. apply andb_prop in Hws as [Hc Hws].
    cbn [skipWhitespaces]. rewrite Hc, (IH Hws). f_equal. lia.
Qed.

Lemma closes_skip (rest : string) (k : nat) :
  closes rest = true -> skipWhitespaces rest k = (rest, k).
Proof.
  destruct rest as [|c rest]; [reflexivity|]. unfold closes. cbn [isEmpty startsWith orb].
  intros H. apply Ascii.eqb_eq in H as ->. reflexivity.
Qed.

Lemma whitespace_skip (ws : string) (start : nat) :
  whitespace ws = true -> skipWhitespaces ws start = ("", start + String.length ws).
Proof.
  intros H. rewrite <- (append_empty_r ws) at 1.
  apply skipWhitespaces_app; [exact H | reflexivity].
Qed.

Lemma whitespace_delimited (ws : string) : whitespace ws = true -> delimited ws = true.
Proof.
  destruct ws as [|c ws]; [reflexivity|]. unfold whitespace. cbn [allChars delimited].
  intros H. apply andb_prop in H as [H _]. unfold isTokenChar. now rewrite H.
Qed.

Lemma closes_span (rest : string) :
  closes rest = true -> span isTokenChar rest = ("", rest) /\ startsWith "(" rest = false.
Proof.
  destruct rest as [|c rest]; [split; reflexivity|].
  unfold closes. cbn [isEmpty startsWith orb]. intros H.
  apply Ascii.eqb_eq in H as ->. split; reflexivity.
Qed.

(** X7: on an input that is empty or holds white space only, and on one
    whose first character after the white space is a closing bracket,
    [parsePrefix] and [parsePostfix] throw [InvalidFormatError] for an
    empty token, at the offset after the white space. *)
Theorem bracketed_empty_token :
  forall (operationAtStart : bool) (ws rest : string),
    whitespace ws = true -> closes rest = true ->
    parseWithBrackets operationAtStart (ws ++ rest)
    = Throw (ParseError InvalidFormatError "Empty token" (Some (String.length ws))).
Proof.
  intros b ws rest Hws Hrest. unfold parseWithBrackets.
  rewrite (skipWhitespaces_app ws rest 0 Hws (fun k => closes_skip rest k Hrest)).
  replace (3 * String.length (ws ++ rest) + 3)
    with (S (3 * String.length (ws ++ rest) + 2)) by lia.
  cbn [parseToken]. destruct (closes_span rest Hrest) as [-> ->].
  reflexivity.
Qed.

Lemma bracketed_empty_token_witness :
  parseWithBrackets true "" = Throw (ParseError InvalidFormatError "Empty token" (Some 0))
  /\ parseWithBrackets false "  ) x"
     = Throw (ParseError InvalidFormatError "Empty token" (Some 2)).
Proof.
  split.
  - apply (bracketed_empty_token true "" ""); reflexivity.
  - apply (bracketed_empty_token false "  " ") x"); reflexivity.
Defined.

Lemma whitespace_trim (ws : string) : whitespace ws = true -> trim ws = "".
Proof.
  intros H. unfold trim.
  replace (trimStart ws) with ""; [reflexivity|].
  induction ws as [|c ws IH]; [reflexivity|].
  unfold whitespace in H. cbn [allChars] in H. apply andb_prop in H as [Hc H].
  cbn [trimStart]. rewrite Hc. now apply IH.
Qed.

(** X8: on an input that is empty or holds white space only, [parse]
    returns the constant NaN: the one token is the empty string, which
    the conversion to a number takes for 0, and of which [parseInt]
    makes NaN. *)
Theorem parse_blank :
  forall ws : string,
    whitespace ws = true -> parse ws = Return (Some (Const NaN)).
Proof.
  intros ws H. unfold parse. rewrite (whitespace_trim ws H). reflexivity.
Qed.

Lemma parse_blank_witness :
  parse "" = Return (Some (Const NaN))
  /\ parsePrefix "" = Throw (ParseError InvalidFormatError "Empty token" (Some 0)).
Proof.
  split; [apply (parse_blank ""); reflexivity | reflexivity].
Defined.

(** X9: an input that is one token between white space is the variable
    of that name, or the constant that [parseInt] reads when the token is
    numeric; when the token is a property of [operations] (a registered
    operation, or a name inherited from [Object.prototype]) the error is
    the one for an expression that is only an operation; for any other
    token it is the error for an unknown token, at the offset of the
    token. *)
Theorem bracketed_single_token :
  forall (operationAtStart : bool) (lead token trail : string),
    whitespace lead = true -> whitespace trail = true ->
    token <> "" -> allChars isTokenChar token = true ->
    parseWithBrackets operationAtStart (lead ++ token ++ trail)
    = if includes token vars then Return (Variable_ token)
      else if negb (isNaN token) then Return (Const (parseInt token))
      else if in_operations token then Throw onlyOperation
      else Throw (ParseError InvalidFormatError ("Unknown token: " ++ token)
                             (Some (String.length lead))).
Proof.
  intros b lead token trail Hlead Htrail Hne Htoken. unfold parseWithBrackets.
  assert (Hskip : forall k, skipWhitespaces (token ++ trail) k = (token ++ trail, k)).
  { intros k. apply skipWhitespaces_token.
    destruct token as [|c token]; [congruence|]. cbn [append delimited].
    cbn [allChars] in Htoken. apply andb_prop in Htoken as [-> _]. reflexivity. }
  rewrite (skipWhitespaces_app lead (token ++ trail) 0 Hlead Hskip).
  replace (3 * String.length (lead ++ token ++ trail) + 3)
    with (S (3 * String.length (lead ++ token ++ trail) + 2)) by lia.
  cbn [parseToken].
  assert (Hparen : startsWith "(" (token ++ trail) = false).
  { destruct token as [|c token]; [congruence|]. cbn [append startsWith].
    cbn [allChars] in Htoken. apply andb_prop in Htoken as [Hc _].
    now apply isTokenChar_spec in Hc as (_ & -> & _). }
  rewrite Hparen, (span_token _ _ Htoken (whitespace_delimited _ Htrail)).
  unfold classify. destruct token as [|c token]; [congruence|]. cbn [isEmpty].
  destruct (includes (String c token) vars); cbn [bind];
    [now rewrite (whitespace_skip _ _ Htrail)|].
  destruct (negb (isNaN (String c token))); cbn [bind];
    [now rewrite (whitespace_skip _ _ Htrail)|].
  destruct (in_operations (String c token)); cbn [bind];
    [now rewrite (whitespace_skip _ _ Htrail) | reflexivity].
Qed.

Lemma bracketed_single_token_witness :
  parseWithBrackets true "  valueOf " = Throw onlyOperation
  /\ parseWithBrackets false " sin" =
     Throw (ParseError InvalidFormatError "Unknown token: sin" (Some 1)).
Proof.
  split.
  - apply (bracketed_single_token true "  " "valueOf" " ");
      [reflexivity | reflexivity | discriminate | reflexivity].
  - apply (bracketed_single_token false " " "sin" "");
      [reflexivity | reflexivity | discriminate | reflexivity].
Defined.

(** ** [parse] reads what [toString] writes *)

Lemma join_app (sep : string) (l1 l2 : list string) :
  l1 <> [] -> l2 <> [] ->
  join sep (l1 ++ l2) = join sep l1 ++ sep ++ join sep l2.
Proof.
  intros H1 H2. induction l1 as [|a l1 IH]; [congruence|].
  destruct l1 as [|b l1].
  - cbn [app]. now rewrite (join_cons sep a l2 H2).
  - change ((a :: b :: l1) ++ l2)%list with (a :: ((b :: l1) ++ l2))%list.
    rewrite (join_cons sep a ((b :: l1) ++ l2)) by (cbn; discriminate).
    rewrite IH by discriminate.
    rewrite (join_cons sep a (b :: l1)) by discriminate.
    now rewrite !append_assoc.
Qed.

Lemma join_concat (sep : string) (ls : list (list string)) :
  Forall (fun l => l <> []) ls ->
  join sep (List.concat ls) = join sep (map (join sep) ls).
Proof.
  induction 1 as [|l ls Hl Hls IH]; [reflexivity|].
  cbn [List.concat map]. destruct ls as [|l2 ls].
  - cbn [List.concat]. now rewrite app_nil_r.
  - assert (Hne : List.concat (l2 :: ls) <> []).
    { cbn [List.concat]. apply Forall_inv in Hls. destruct l2; [congruence | discriminate]. }
    rewrite (join_app sep l (List.concat (l2 :: ls)) Hl Hne), IH.
    rewrite (join_cons sep (join sep l) (map (join sep) (l2 :: ls)))
      by discriminate.
    reflexivity.
Qed.

Lemma tokensOf_nonempty (e : expr) : tokensOf e <> [].
Proof.
  destruct e as [value|varName|o operands|]; cbn [tokensOf]; try discriminate.
  destruct (List.concat (map tokensOf operands)); discriminate.
Qed.

Lemma toString_tokens (e : expr) :
  parsed e = true -> toString e = join " " (tokensOf e).
Proof.
  induction e as [value|varName|o operands IH|] using expr_induction;
    cbn [parsed toString tokensOf]; intros H; try reflexivity.
  apply andb_prop in H as [Harity H].
  assert (Hne : operands <> []).
  { intros ->. unfold arityRespected in Harity. discriminate Harity. }
  assert (Hconcat : List.concat (map tokensOf operands) <> []).
  { destruct operands as [|x operands]; [congruence|]. cbn [map List.concat].
    pose proof (tokensOf_nonempty x). destruct (tokensOf x); [congruence | discriminate]. }
  rewrite (join_app " " _ [operationString o] Hconcat ltac:(discriminate)).
  rewrite join_concat by (apply Forall_map, Forall_forall; intros; apply tokensOf_nonempty).
  rewrite map_map. cbn [join]. do 2 f_equal.
  apply map_ext_in. intros x Hx. rewrite Forall_forall in IH.
  apply IH; [exact Hx|]. rewrite forallb_forall in H. now apply H.
Qed.

Lemma tokensOf_tokens (e : expr) :
  parsed e = true -> stableConstants e = true ->
  Forall (fun t => isToken t = true) (tokensOf e).
Proof.
  induction e as [value|varName|o operands IH|] using expr_induction;
    cbn [parsed stableConstants tokensOf]; intros Hparsed Hstable.
  - constructor; [|constructor]. unfold stableConstant in Hstable. unfold isToken.
    apply andb_prop in Hstable as [Hstable _]. apply andb_prop in Hstable as [Hstable _].
    apply andb_prop in Hstable as [Hstable _]. exact Hstable.
  - constructor; [|constructor]. unfold includes, vars in Hparsed. cbn [existsb] in Hparsed.
    repeat (apply orb_prop in Hparsed as [Hparsed|Hparsed]); try discriminate Hparsed;
      apply String.eqb_eq in Hparsed as ->; reflexivity.
  - apply andb_prop in Hparsed as [_ Hparsed]. apply Forall_app. split.
    + apply Forall_concat, Forall_map. rewrite forallb_forall in Hparsed, Hstable.
      rewrite Forall_forall in *. intros x Hx. apply IH; auto.
    + constructor; [destruct o; reflexivity | constructor].
  - discriminate.
Qed.

Lemma split_go_nonempty (b : bool) (s : string) : split_go b s <> [].
Proof.
  revert b. induction s as [|c s IH]; intros b; cbn [split_go]; [discriminate|].
  destruct (isWhiteSpace c); [destruct b; [apply IH | discriminate]|].
  destruct (split_go false s); discriminate.
Qed.

Lemma split_go_token (t s : string) :
  allChars isTokenChar t = true ->
  split_go false (t ++ s)
  = match split_go false s with
    | first :: others => (t ++ first) :: others
    | [] => [t]
    end.
Proof.
  intros Ht. induction t as [|c t IH]; cbn [append].
  - pose proof (split_go_nonempty false s). destruct (split_go false s); [congruence|].
    reflexivity.
  - cbn [allChars] in Ht. apply andb_prop in Ht as [Hc Ht].
    apply isTokenChar_spec in Hc as (Hc & _). cbn [split_go]. rewrite Hc, (IH Ht).
    pose proof (split_go_nonempty false s). destruct (split_go false s); [congruence|].
    reflexivity.
Qed.

Lemma split_join (tokens : list string) :
  Forall (fun t => isToken t = true) tokens -> tokens <> [] ->
  split_go false (join " " tokens) = tokens.
Proof.
  induction 1 as [|t tokens Ht Hall IH]; [congruence|]. intros _.
  unfold isToken in Ht. apply andb_prop in Ht as [_ Ht].
  destruct tokens as [|t2 tokens].
  - cbn [join]. rewrite <- (append_empty_r t) at 1.
    rewrite (split_go_token t "" Ht). cbn [split_go]. now rewrite append_empty_r.
  - rewrite join_cons by discriminate.
    rewrite (split_go_token t _ Ht).
    change (" " ++ join " " (t2 :: tokens)) with (String " " (join " " (t2 :: tokens))).
    cbn [split_go isWhiteSpace]. change (isWhiteSpace " ") with true. cbn iota.
    assert (Hnext : split_go true (join " " (t2 :: tokens))
                    = split_go false (join " " (t2 :: tokens))).
    { destruct (join_head " " t2 tokens) as [r ->].
      apply Forall_inv in Hall. unfold isToken in Hall.
      apply andb_prop in Hall as [Hne Hall].
      destruct t2 as [|c t2]; [discriminate|]. cbn [allChars] in Hall.
      apply andb_prop in Hall as [Hc _]. apply isTokenChar_spec in Hc as (Hc & _).
      cbn [append split_go]. now rewrite Hc. }
    rewrite Hnext, IH by discriminate. now rewrite append_empty_r.
Qed.

Lemma trimEnd_app (a s : string) :
  s <> "" -> trimEnd s = s -> trimEnd (a ++ s) = a ++ s.
Proof.
  intros Hne Hs. induction a as [|c a IH]; cbn [append]; [exact Hs|].
  cbn [trimEnd]. rewrite IH.
  destruct (a ++ s) eqn:Happ; [|reflexivity].
  destruct a; [cbn in Happ; congruence | discriminate].
Qed.

Lemma trim_join (tokens : list string) :
  Forall (fun t => isToken t = true) tokens -> tokens <> [] ->
  trim (join " " tokens) = join " " tokens.
Proof.
  intros Hall Hne. unfold trim.
  assert (Hstart : trimStart (join " " tokens) = join " " tokens).
  { destruct tokens as [|t tokens]; [congruence|].
    destruct (join_head " " t tokens) as [r ->].
    apply Forall_inv in Hall. unfold isToken in Hall. apply andb_prop in Hall as [H1 H2].
    apply trimStart_token. destruct t as [|c t]; [discriminate|].
    cbn [allChars] in H2. apply andb_prop in H2 as [H2 _].
    cbn [append delimited]. now rewrite H2. }
  rewrite Hstart. clear Hstart.
  induction Hall as [|t tokens Ht Hall IH]; [congruence|].
  unfold isToken in Ht. apply andb_prop in Ht as [Hempty Ht].
  destruct tokens as [|t2 tokens].
  - cbn [join]. now apply trimEnd_token.
  - rewrite join_cons by discriminate. rewrite <- append_assoc.
    apply trimEnd_app; [|apply IH; discriminate].
    destruct (join_head " " t2 tokens) as [r ->].
    apply Forall_inv in Hall. unfold isToken in Hall. apply andb_prop in Hall as [H1 _].
    destruct t2; [discriminate | discriminate].
Qed.

(** A numeric token is not a property of [operations]. *)
Lemma operations_get_numeric (t : string) :
  isNaN t = false -> operations_get t = None.
Proof.
  intros H. unfold operations_get, registered, includes, inherited.
  cbn [find operationString existsb].
  repeat match goal with
         | |- context [String.eqb t ?n] =>
             destruct (String.eqb_spec t n) as [->|_]; [vm_compute in H; discriminate|]
         end.
  reflexivity.
Qed.

Lemma splice_app (stack removed : list expr) :
  splice (stack ++ removed)
         (Some (Z.of_nat (List.length (stack ++ removed))
                - Z.of_nat (List.length removed))%Z)
  = (stack, removed).
Proof.
  unfold splice. rewrite length_app.
  replace (Z.of_nat (List.length stack + List.length removed)
           - Z.of_nat (List.length removed))%Z
    with (Z.of_nat (List.length stack)) by lia.
  destruct (Z.ltb_spec (Z.of_nat (List.length stack)) 0); [lia|].
  rewrite Z.min_l, Nat2Z.id by lia.
  rewrite firstn_app, Nat.sub_diag, firstn_all, firstn_O, app_nil_r.
  rewrite skipn_app, Nat.sub_diag, skipn_all, skipn_O. reflexivity.
Qed.

Lemma parseTokens_app (a b : list string) :
  forall stack,
    parseTokens stack (a ++ b) = (stack' <- parseTokens stack a ;; parseTokens stack' b).
Proof.
  induction a as [|t a IH]; intros stack; cbn [app parseTokens bind]; [reflexivity|].
  destruct (parseStep stack t); cbn [bind]; [apply IH | reflexivity | reflexivity].
Qed.

(** The tokens of a tree put the tree, read again, on the stack. *)
Lemma parseTokens_tokensOf (e : expr) :
  parsed e = true -> stableConstants e = true -> fixedArities e = true ->
  forall stack, parseTokens stack (tokensOf e) = Return (stack ++ [reread e])%list.
Proof.
  induction e as [value|varName|o operands IH|] using expr_induction;
    cbn [parsed stableConstants fixedArities tokensOf reread];
    intros Hparsed Hstable Hfixed stack.
  - unfold stableConstant in Hstable.
    apply andb_prop in Hstable as [Hstable _]. apply andb_prop in Hstable as [Hstable Hnum].
    apply andb_prop in Hstable as [_ Hvars].
    apply negb_true_iff in Hvars. pose proof Hnum as Hnum'. apply negb_true_iff in Hnum'.
    cbn [parseTokens]. unfold parseStep.
    now rewrite (operations_get_numeric _ Hnum'), Hvars, Hnum.
  - unfold includes, vars in Hparsed. cbn [existsb] in Hparsed.
    repeat (apply orb_prop in Hparsed as [Hparsed|Hparsed]); try discriminate Hparsed;
      apply String.eqb_eq in Hparsed as ->; reflexivity.
  - apply andb_prop in Hparsed as [Harity Hparsed].
    apply andb_prop in Hfixed as [Hvariadic Hfixed].
    assert (Hoperands : forall stack',
               parseTokens stack' (List.concat (map tokensOf operands))
               = Return (stack' ++ map reread operands)%list).
    { clear Harity Hvariadic.
      induction operands as [|x operands IHo]; intros stack'; cbn [map List.concat].
      - now rewrite app_nil_r.
      - cbn [forallb] in Hparsed, Hstable, Hfixed.
        apply andb_prop in Hparsed as [Hx Hparsed].
        apply andb_prop in Hstable as [Sx Hstable].
        apply andb_prop in Hfixed as [Fx Hfixed].
        rewrite parseTokens_app, (Forall_inv IH Hx Sx Fx). cbn [bind].
        rewrite (IHo (Forall_inv_tail IH) Hparsed Hstable Hfixed).
        now rewrite <- app_assoc. }
    rewrite parseTokens_app, Hoperands. cbn [bind parseTokens]. unfold parseStep.
    rewrite operations_get_registered. cbn [property_arity option_map].
    assert (Hlen : arity o = List.length (map reread operands)).
    { rewrite length_map. unfold arityRespected in Harity.
      apply andb_prop in Harity as [_ Harity]. apply negb_true_iff in Hvariadic.
      rewrite Hvariadic in Harity. now apply Nat.eqb_eq in Harity. }
    rewrite Hlen, splice_app. reflexivity.
  - discriminate.
Qed.

Lemma toString_reread (e : expr) :
  stableConstants e = true -> toString (reread e) = toString e.
Proof.
  induction e as [value|varName|o operands IH|] using expr_induction;
    cbn [stableConstants reread toString]; intros H; try reflexivity.
  - unfold stableConstant in H. apply andb_prop in H as [_ H].
    now apply String.eqb_eq in H.
  - rewrite map_map. do 2 f_equal. apply map_ext_in. intros x Hx.
    rewrite Forall_forall in IH. apply IH; [exact Hx|].
    rewrite forallb_forall in H. now apply H.
Qed.

(** X10: [parse] reads what [toString] writes.  For a tree with the
    variables of [vars], the number of operands of each operation, no
    [mean] or [var] node, and constants whose text is read back
    (integers below 2^53 are), [parse] of the text of [toString] returns
    the tree with its constants read again, whose text is the same. *)
Theorem parse_toString :
  forall e : expr,
    parsed e = true -> stableConstants e = true -> fixedArities e = true ->
    parse (toString e) = Return (Some (reread e))
    /\ toString (reread e) = toString e.
Proof.
  intros e Hparsed Hstable Hfixed. split; [|now apply toString_reread].
  unfold parse, split_whitespace.
  rewrite (toString_tokens e Hparsed).
  rewrite (trim_join _ (tokensOf_tokens e Hparsed Hstable) (tokensOf_nonempty e)).
  rewrite (split_join _ (tokensOf_tokens e Hparsed Hstable) (tokensOf_nonempty e)).
  rewrite (parseTokens_tokensOf e Hparsed Hstable Hfixed []). reflexivity.
Qed.

Lemma parse_toString_witness :
  parse "x -12 + y negate *"
  = Return (Some (Operation Multiply
                    [Operation Add [Variable_ "x"; Const (of_Z (-12))];
                     Operation Negate [Variable_ "y"]])).
Proof.
  apply (proj1 (parse_toString
                  (Operation Multiply
                     [Operation Add [Variable_ "x"; Const (of_Z (-12))];
                      Operation Negate [Variable_ "y"]])
                  ltac:(reflexivity) ltac:(vm_compute; reflexivity) ltac:(reflexivity))).
Defined.

(** ** What an operation takes off the stack of [parse] *)

Lemma arity_bound (o : operator) : arity o <= 2.
Proof. destruct o; cbn [arity]; lia. Qed.

(** X11: the turn of the loop of [parse] for an operation never fails:
    the operation takes the last entries of the stack, as many as its
    arity, and all of them when there are fewer ([splice] counts a
    negative start from the end, and no arity is above 2).  So
    [parse(e.toString() + " " + op)] for [op] of two arguments returns
    the node of [op] with the one operand [e]. *)
Theorem parse_operation_takes_what_is_there :
  (forall (o : operator) (stack : list expr),
      let n := List.length stack - arity o in
      parseStep stack (operationString o)
      = Return (firstn n stack ++ [Operation o (skipn n stack)])%list)
  /\ (forall (e : expr) (o : operator),
         parsed e = true -> stableConstants e = true -> fixedArities e = true ->
         arity o = 2 ->
         parse (toString e ++ " " ++ operationString o)
         = Return (Some (Operation o [reread e]))).
Proof.
  assert (Hstep : forall o stack,
             parseStep stack (operationString o)
             = Return (firstn (List.length stack - arity o) stack
                         ++ [Operation o (skipn (List.length stack - arity o) stack)])%list).
  { intros o stack. unfold parseStep. rewrite operations_get_registered.
    cbn [property_arity option_map]. unfold splice.
    pose proof (arity_bound o) as Ha.
    set (len := List.length stack). set (a := arity o) in *.
    replace (Z.to_nat
               (if (Z.of_nat len - Z.of_nat a <? 0)%Z
                then Z.max (Z.of_nat len + (Z.of_nat len - Z.of_nat a)) 0
                else Z.min (Z.of_nat len - Z.of_nat a) (Z.of_nat len)))
      with (len - a); [reflexivity|].
    destruct (Z.ltb_spec (Z.of_nat len - Z.of_nat a) 0); lia. }
  split; [exact Hstep|].
  intros e o Hparsed Hstable Hfixed Harity.
  pose proof (tokensOf_tokens e Hparsed Hstable) as Htokens.
  assert (Hall : Forall (fun t => isToken t = true) (tokensOf e ++ [operationString o])).
  { apply Forall_app. split; [exact Htokens|].
    constructor; [destruct o; reflexivity | constructor]. }
  assert (Hne : (tokensOf e ++ [operationString o])%list <> []).
  { destruct (tokensOf e); discriminate. }
  assert (Htext : toString e ++ " " ++ operationString o
                  = join " " (tokensOf e ++ [operationString o])).
  { rewrite (join_app " " _ [operationString o] (tokensOf_nonempty e) ltac:(discriminate)).
    now rewrite (toString_tokens e Hparsed). }
  unfold parse, split_whitespace.
  rewrite Htext, (trim_join _ Hall Hne), (split_join _ Hall Hne).
  rewrite parseTokens_app, (parseTokens_tokensOf e Hparsed Hstable Hfixed []).
  cbn [app bind parseTokens]. rewrite Hstep, Harity. reflexivity.
Qed.

Lemma parse_operation_takes_what_is_there_witness :
  parse "x +" = Return (Some (Operation Add [Variable_ "x"])).
Proof.
  apply (proj2 parse_operation_takes_what_is_there (Variable_ "x") Add);
    reflexivity.
Defined.

(** ** [parse] and what is left on the stack *)

Lemma parseTokens_trees (es : list expr) :
  forallb parsed es = true -> forallb stableConstants es = true ->
  forallb fixedArities es = true ->
  forall stack,
    parseTokens stack (List.concat (map tokensOf es))
    = Return (stack ++ map reread es)%list.
Proof.
  induction es as [|e es IH]; cbn [forallb map List.concat];
    intros Hparsed Hstable Hfixed stack.
  - now rewrite app_nil_r.
  - apply andb_prop in Hparsed as [Pe Hparsed].
    apply andb_prop in Hstable as [Se Hstable].
    apply andb_prop in Hfixed as [Fe Hfixed].
    rewrite parseTokens_app, (parseTokens_tokensOf e Pe Se Fe). cbn [bind].
    rewrite (IH Hparsed Hstable Hfixed). now rewrite <- app_assoc.
Qed.

(** X12: [parse] returns the bottom of the stack and says nothing of
    what lies above it: on the texts that [toString] gives for several
    trees (with stable constants and no [mean] or [var] node), one
    after the other, it returns the first tree. *)
Theorem parse_returns_first :
  forall (e : expr) (es : list expr),
    forallb parsed (e :: es) = true -> forallb stableConstants (e :: es) = true ->
    forallb fixedArities (e :: es) = true ->
    parse (join " " (map toString (e :: es))) = Return (Some (reread e)).
Proof.
  intros e es Hparsed Hstable Hfixed.
  assert (Htokens : Forall (fun t => isToken t = true)
                           (List.concat (map tokensOf (e :: es)))).
  { apply Forall_concat, Forall_map, Forall_forall. intros x Hx.
    rewrite forallb_forall in Hparsed, Hstable. apply tokensOf_tokens; auto. }
  assert (Hne : List.concat (map tokensOf (e :: es)) <> []).
  { cbn [map List.concat]. pose proof (tokensOf_nonempty e).
    destruct (tokensOf e); [congruence | discriminate]. }
  assert (Htext : join " " (map toString (e :: es))
                  = join " " (List.concat (map tokensOf (e :: es)))).
  { rewrite join_concat
      by (apply Forall_map, Forall_forall; intros; apply tokensOf_nonempty).
    rewrite map_map. f_equal. apply map_ext_in. intros x Hx.
    apply toString_tokens. rewrite forallb_forall in Hparsed. now apply Hparsed. }
  unfold parse, split_whitespace.
  rewrite Htext, (trim_join _ Htokens Hne), (split_join _ Htokens Hne).
  rewrite (parseTokens_trees _ Hparsed Hstable Hfixed []). reflexivity.
Qed.

Lemma parse_returns_first_witness :
  parse "x 2 + y negate z" = Return (Some (Operation Add [Variable_ "x"; Const (of_Z 2)])).
Proof.
  apply (parse_returns_first
           (Operation Add [Variable_ "x"; Const (of_Z 2)])
           [Operation Negate [Variable_ "y"]; Variable_ "z"]);
    vm_compute; reflexivity.
Defined.

(** ** The tree that [Var] differentiates *)

Lemma evaluate_squares Math_pow Math_log (varValues : list number) (operands : list expr) :
  sequence (map (fun x => evaluate Math_pow Math_log x varValues) (map Square operands))
  = (vs <- sequence (map (fun x => evaluate Math_pow Math_log x varValues) operands) ;;
     Return (map square vs)).
Proof.
  induction operands as [|x operands IH]; [reflexivity|].
  cbn [map sequence]. rewrite IH. unfold Square at 1. cbn [evaluate map sequence].
  destruct (evaluate Math_pow Math_log x varValues) as [v| |]; cbn [bind];
    [|reflexivity|reflexivity].
  destruct (sequence (map _ operands)) as [vs| |]; reflexivity.
Qed.

(** X13: the derivative of a [Var] node is the derivative of
    [Mean(squares) - Square(Mean(operands))], and on every list of
    operands and values that tree has the outcome of the [Var] node
    itself: the rule differentiates the function that [Var] evaluates. *)
Theorem evaluate_Var_expansion :
  forall Math_pow Math_log (operands : list expr) (varName : string)
         (varValues : list number),
    let expansion :=
      Operation Subtract
        [Operation Mean (map Square operands); Square (Operation Mean operands)] in
    diff (Operation Var operands) varName = diff expansion varName
    /\ evaluate Math_pow Math_log expansion varValues
       = evaluate Math_pow Math_log (Operation Var operands) varValues.
Proof.
  intros Math_pow Math_log operands varName varValues expansion. split.
  - subst expansion. unfold diff at 1. cbn [diffDepth].
    replace (List.length operands + 5 + list_max (map diffDepth operands))
      with (S (List.length operands + 4 + list_max (map diffDepth operands))) by lia.
    cbn [diffFuel operationDerivative]. apply diff_fuel.
    change (Square (Operation Mean operands))
      with (Operation Multiply [Operation Mean operands; Operation Mean operands]).
    cbn [diffDepth map]. rewrite !list_max_cons.
    change (list_max []) with 0. rewrite length_map.
    pose proof (list_max_Square operands). lia.
  - subst expansion. unfold Square at 2.
    cbn [evaluate map sequence]. rewrite evaluate_squares.
    destruct (sequence (map _ operands)) as [vs| |]; reflexivity.
Qed.

(** ** White space between the tokens *)

Lemma skipWhitespaces_lex (rest : string) :
  forall start,
    lex (fst (skipWhitespaces rest start)) = lex rest
    /\ skipped (fst (skipWhitespaces rest start)) = true.
Proof.
  induction rest as [|c rest IH]; intros start; cbn [skipWhitespaces].
  - split; reflexivity.
  - destruct (isWhiteSpace c) eqn:Hc.
    + cbn [lex]. rewrite Hc. apply IH.
    + cbn [fst skipped]. rewrite Hc. split; reflexivity.
Qed.

Lemma span_delimited_start (r : string) :
  delimited r = true -> span isTokenChar r = ("", r).
Proof.
  destruct r as [|c r]; [reflexivity|]. cbn [delimited span]. intros H.
  apply negb_true_iff in H. now rewrite H.
Qed.

Lemma lex_span (rest : string) :
  delimited rest = false ->
  lex rest = fst (span isTokenChar rest) :: lex (snd (span isTokenChar rest)).
Proof.
  induction rest as [|c r IH]; [discriminate|]. intros H. cbn [delimited] in H.
  apply negb_false_iff in H. pose proof (isTokenChar_spec c H) as (Hws & _).
  cbn [lex span]. rewrite Hws, H. cbn [andb].
  destruct (delimited r) eqn:Hd; cbn [negb].
  - rewrite (span_delimited_start r Hd). reflexivity.
  - rewrite (IH eq_refl). destruct (span isTokenChar r) as [a b']. reflexivity.
Qed.

Lemma lex_bracket (c : ascii) (r : string) :
  isWhiteSpace c = false -> isTokenChar c = false ->
  lex (String c r) = String c "" :: lex r.
Proof. intros H1 H2. cbn [lex]. now rewrite H1, H2. Qed.

Lemma lex_head (c : ascii) (r : string) :
  skipped (String c r) = true -> exists t ts, lex (String c r) = String c t :: ts.
Proof.
  cbn [skipped]. intros H. apply negb_true_iff in H.
  destruct (isTokenChar c) eqn:Hc.
  - rewrite lex_span by (cbn [delimited]; now rewrite Hc).
    cbn [span]. rewrite Hc. destruct (span isTokenChar r) as [a b']. cbn [fst snd]. eauto.
  - rewrite (lex_bracket c r H Hc). eauto.
Qed.

Lemma lex_same_start (r1 r2 : string) :
  skipped r1 = true -> skipped r2 = true -> lex r1 = lex r2 ->
  match r1, r2 with
  | EmptyString, EmptyString => True
  | String c1 _, String c2 _ => c1 = c2
  | _, _ => False
  end.
Proof.
  intros H1 H2 Hlex. destruct r1 as [|c1 r1], r2 as [|c2 r2]; [exact I| | |].
  - destruct (lex_head c2 r2 H2) as (t & ts & Ht). rewrite Ht in Hlex. discriminate.
  - destruct (lex_head c1 r1 H1) as (t & ts & Ht). rewrite Ht in Hlex. discriminate.
  - destruct (lex_head c1 r1 H1) as (t1 & ts1 & Ht1).
    destruct (lex_head c2 r2 H2) as (t2 & ts2 & Ht2).
    rewrite Ht1, Ht2 in Hlex. now injection Hlex.
Qed.

Lemma lex_same_tests (r1 r2 : string) :
  skipped r1 = true -> skipped r2 = true -> lex r1 = lex r2 ->
  isEmpty r1 = isEmpty r2 /\ forall c, startsWith c r1 = startsWith c r2.
Proof.
  intros H1 H2 Hlex. pose proof (lex_same_start r1 r2 H1 H2 Hlex) as H.
  destruct r1, r2; try contradiction; [split; reflexivity|]. subst.
  split; reflexivity.
Qed.

Lemma lex_advance (c : ascii) (r1 r2 : string) :
  isWhiteSpace c = false -> isTokenChar c = false ->
  startsWith c r1 = true -> startsWith c r2 = true -> lex r1 = lex r2 ->
  lex (advance r1) = lex (advance r2).
Proof.
  intros Hws Htok H1 H2 Hlex.
  destruct r1 as [|c1 r1], r2 as [|c2 r2]; try discriminate.
  cbn [startsWith] in H1, H2. apply Ascii.eqb_eq in H1, H2. subst.
  rewrite !(lex_bracket c _ Hws Htok) in Hlex. now injection Hlex.
Qed.

Lemma lex_same_span (r1 r2 : string) :
  skipped r1 = true -> skipped r2 = true -> lex r1 = lex r2 ->
  fst (span isTokenChar r1) = fst (span isTokenChar r2)
  /\ lex (snd (span isTokenChar r1)) = lex (snd (span isTokenChar r2)).
Proof.
  intros H1 H2 Hlex. pose proof (lex_same_start r1 r2 H1 H2 Hlex) as H.
  destruct r1 as [|c r1], r2 as [|c2 r2]; try contradiction; [split; reflexivity|].
  subst c2. destruct (isTokenChar c) eqn:Hc.
  - rewrite (lex_span (String c r1)), (lex_span (String c r2)) in Hlex
      by (cbn [delimited]; now rewrite Hc).
    injection Hlex as Ha Hb. split; assumption.
  - cbn [span]. rewrite Hc. cbn [fst snd]. split; [reflexivity | exact Hlex].
Qed.

Lemma sameError_refl (e : exn) : sameError e e.
Proof. destruct e; cbn; auto. Qed.

Lemma alike_bind {A B : Type} (R : A -> A -> Prop) (S : B -> B -> Prop)
      (m1 m2 : outcome A) (k1 k2 : A -> outcome B) :
  alike R m1 m2 ->
  (forall a1 a2, R a1 a2 -> alike S (k1 a1) (k2 a2)) ->
  alike S (bind m1 k1) (bind m2 k2).
Proof. destruct m1, m2; cbn [alike bind]; try contradiction; auto. Qed.

Lemma classify_alike (token : string) (s1 s2 : nat) :
  alike eq (classify token s1) (classify token s2).
Proof.
  unfold classify.
  destruct (isEmpty token); [cbn; auto|].
  destruct (includes token vars); [reflexivity|].
  destruct (negb (isNaN token)); [reflexivity|].
  destruct (in_operations token); [reflexivity | cbn; auto].
Qed.

Lemma checkOperation_alike (operationAtStart : bool) (s1 s2 : nat)
      (tokens : list expr) (operationStrings : list (string * nat)) :
  alike eq (checkOperation operationAtStart s1 tokens operationStrings)
           (checkOperation operationAtStart s2 tokens operationStrings).
Proof.
  unfold checkOperation.
  destruct operationStrings as [|[s index] [|]]; try (cbn; auto; fail).
  destruct (negb _); [cbn; auto|].
  destruct (List.length tokens =? 0)%nat; [cbn; auto|].
  destruct (operations_get s) as [p|]; [|exact I].
  destruct (differs _ 0 && differs _ _); [cbn; auto|].
  destruct (construct p tokens) as [e|e|]; cbn; auto using sameError_refl.
Qed.

(** With the same tokens ahead, the parser goes the same way. *)
Lemma parser_lex (operationAtStart : bool) (fuel : nat) :
  (forall r1 r2 s1 s2,
      skipped r1 = true -> skipped r2 = true -> lex r1 = lex r2 ->
      alike sameResult (parseToken operationAtStart fuel r1 s1)
                       (parseToken operationAtStart fuel r2 s2))
  /\ (forall r1 r2 s1 s2,
         lex (advance r1) = lex (advance r2) ->
         alike sameResult (parseOperation operationAtStart fuel r1 s1)
                          (parseOperation operationAtStart fuel r2 s2))
  /\ (forall r1 r2 s1 s2 tokens operationStrings,
         skipped r1 = true -> skipped r2 = true -> lex r1 = lex r2 ->
         alike sameOperands
               (parseOperands operationAtStart fuel r1 s1 tokens operationStrings)
               (parseOperands operationAtStart fuel r2 s2 tokens operationStrings)).
Proof.
  induction fuel as [|fuel (IHtoken & IHoperation & IHoperands)];
    [repeat split; intros; exact I|].
  split; [|split].
  - intros r1 r2 s1 s2 H1 H2 Hlex. cbn [parseToken].
    destruct (lex_same_tests r1 r2 H1 H2 Hlex) as [_ Hstarts].
    pose proof (Hstarts "("%char) as Hparen.
    destruct (startsWith "(" r2) eqn:Hparen2; rewrite Hparen.
    + apply alike_bind with (R := sameResult).
      * apply IHoperation. now apply (lex_advance "(").
      * intros [e1 c1] [e2 c2] [He Hc]. cbn [fst snd] in He, Hc. subst e2.
        split; [reflexivity | exact Hc].
    + destruct (lex_same_span r1 r2 H1 H2 Hlex) as [Htok Hrest].
      destruct (span isTokenChar r1) as [tok1 r1'].
      destruct (span isTokenChar r2) as [tok2 r2'].
      cbn [fst snd] in Htok, Hrest. subst tok2.
      apply alike_bind with (R := eq); [apply classify_alike|].
      intros t ? <-. split; [reflexivity | exact Hrest].
  - intros r1 r2 s1 s2 Hlex. cbn [parseOperation].
    pose proof (skipWhitespaces_lex (advance r1) (S s1)) as [L1 K1].
    pose proof (skipWhitespaces_lex (advance r2) (S s2)) as [L2 K2].
    destruct (skipWhitespaces (advance r1) (S s1)) as [r1a s1a].
    destruct (skipWhitespaces (advance r2) (S s2)) as [r2a s2a].
    cbn [fst] in L1, K1, L2, K2.
    apply alike_bind with (R := sameOperands);
      [apply IHoperands; [exact K1 | exact K2 | congruence]|].
    intros [[tk1 os1] [r1b s1b]] [[tk2 os2] [r2b s2b]] [[Hfst Hrest] [Hk1 Hk2]].
    cbn [fst snd] in Hfst, Hrest, Hk1, Hk2. injection Hfst as <- <-.
    destruct (lex_same_tests r1b r2b Hk1 Hk2 Hrest) as [_ Hstarts].
    pose proof (Hstarts ")"%char) as Hclose.
    destruct (startsWith ")" r2b) eqn:Hclose2; rewrite Hclose.
    + apply alike_bind with (R := eq); [apply checkOperation_alike|].
      intros e ? <-. split; [reflexivity|]. cbn [fst snd].
      now apply (lex_advance ")").
    + cbn. auto.
  - intros r1 r2 s1 s2 tokens operationStrings H1 H2 Hlex. cbn [parseOperands].
    destruct (lex_same_tests r1 r2 H1 H2 Hlex) as [Hempty Hstarts].
    rewrite Hempty, (Hstarts ")"%char).
    destruct (isEmpty r2 || startsWith ")" r2).
    + repeat split; assumption.
    + apply alike_bind with (R := sameResult); [now apply IHtoken|].
      intros [t1 [r1a s1a]] [t2 [r2a s2a]] [Ht Hrest].
      cbn [fst snd] in Ht, Hrest. subst t2.
      pose proof (skipWhitespaces_lex r1a s1a) as [L1 K1].
      pose proof (skipWhitespaces_lex r2a s2a) as [L2 K2].
      destruct (skipWhitespaces r1a s1a) as [r1b s1b].
      destruct (skipWhitespaces r2a s2a) as [r2b s2b].
      cbn [fst] in L1, K1, L2, K2.
      destruct t1; apply IHoperands; congruence.
Qed.

(** More fuel than [parsePrefix] and [parsePostfix] give changes nothing. *)
Lemma parseToken_enough (operationAtStart : bool) (expression : string) (fuel : nat)
      (rest : string) (start : nat) :
  3 * String.length expression + 3 <= fuel ->
  skipWhitespaces expression 0 = (rest, start) ->
  parseToken operationAtStart (3 * String.length expression + 3) rest start
  = parseToken operationAtStart fuel rest start.
Proof.
  intros Hfuel Hskip.
  destruct (skipWhitespaces_spec _ _ _ _ Hskip) as [Hpos Hle].
  destruct (parseToken_more operationAtStart rest start _ _ Hfuel) as [Hd|Hsame];
    [|exact Hsame].
  pose proof (proj1 (parser_spec operationAtStart (String.length expression)
                       (3 * String.length expression + 3)) rest start ltac:(lia)) as Hspec.
  rewrite Hd in Hspec. cbn [tokenSpec] in Hspec. lia.
Qed.

(** X14: [parsePrefix] and [parsePostfix] read tokens, not layout.  Two
    inputs with the same brackets and tokens in the same order, whatever
    the white space between them, are both accepted, with the same tree,
    or both rejected, with an error of the same class and text (the
    offset may differ).  So every text with the tokens of the rendering
    of a tree with stable constants is read as that tree. *)
Theorem bracketed_same_tokens :
  forall (operationAtStart : bool) (text1 text2 : string),
    lex text1 = lex text2 ->
    alike eq (parseWithBrackets operationAtStart text1)
             (parseWithBrackets operationAtStart text2)
    /\ (forall e : expr,
           parsed e = true -> stableConstants e = true ->
           text2 = render operationAtStart e ->
           parseWithBrackets operationAtStart text1 = Return (reread e)).
Proof.
  intros b t1 t2 Hlex.
  assert (Halike : alike eq (parseWithBrackets b t1) (parseWithBrackets b t2)).
  { unfold parseWithBrackets.
    pose proof (skipWhitespaces_lex t1 0) as [L1 K1].
    pose proof (skipWhitespaces_lex t2 0) as [L2 K2].
    destruct (skipWhitespaces t1 0) as [r1 s1] eqn:E1.
    destruct (skipWhitespaces t2 0) as [r2 s2] eqn:E2.
    cbn [fst] in L1, K1, L2, K2.
    rewrite (parseToken_enough b t1
               (Nat.max (3 * String.length t1 + 3) (3 * String.length t2 + 3))
               r1 s1 ltac:(lia) E1).
    rewrite (parseToken_enough b t2
               (Nat.max (3 * String.length t1 + 3) (3 * String.length t2 + 3))
               r2 s2 ltac:(lia) E2).
    apply alike_bind with (R := sameResult);
      [apply parser_lex; [exact K1 | exact K2 | congruence]|].
    intros [res1 [r1a s1a]] [res2 [r2a s2a]] [Hres Hrest].
    cbn [fst snd] in Hres, Hrest. subst res2.
    pose proof (skipWhitespaces_lex r1a s1a) as [L1' K1'].
    pose proof (skipWhitespaces_lex r2a s2a) as [L2' K2'].
    destruct (skipWhitespaces r1a s1a) as [r1b s1b].
    destruct (skipWhitespaces r2a s2a) as [r2b s2b].
    cbn [fst] in L1', K1', L2', K2'.
    destruct (lex_same_tests r1b r2b K1' K2' ltac:(congruence)) as [-> _].
    destruct (negb (isEmpty r2b)); [cbn; auto|].
    destruct res1; cbn; auto. }
  split; [exact Halike|].
  intros e Hparsed Hstable ->.
  rewrite (parseWithBrackets_render b e Hparsed Hstable) in Halike.
  destruct (parseWithBrackets b t1) as [e'| |]; cbn [alike] in Halike;
    [now subst | contradiction | contradiction].
Qed.

Lemma bracketed_same_tokens_witness :
  alike eq (parsePostfix " ( x(2 y  *)+ ) ") (parsePostfix "(x (2 y *) +)")
  /\ parsePrefix "(+ x(negate 2))"
     = Return (Operation Add [Variable_ "x"; Operation Negate [Const (of_Z 2)]]).
Proof.
  split.
  - apply (bracketed_same_tokens false " ( x(2 y  *)+ ) " "(x (2 y *) +)").
    vm_compute. reflexivity.
  - apply (proj2 (bracketed_same_tokens true "(+ x(negate 2))" "(+ x (negate 2))"
                    ltac:(vm_compute; reflexivity))
             (Operation Add [Variable_ "x"; Operation Negate [Const (of_Z 2)]]));
      vm_compute; reflexivity.
Defined.

(** ** A group of any items, closed or not *)

Lemma in_operations_token (s : string) :
  in_operations s = true ->
  isToken s = true /\ includes s vars = false /\ isNaN s = true.
Proof.
  unfold in_operations, operations_get, registered, includes at 1, inherited.
  cbn [find operationString existsb].
  repeat match goal with
         | |- context [String.eqb s ?n] =>
             destruct (String.eqb_spec s n) as [->|_];
             [intros _; vm_compute; auto|]
         end.
  discriminate.
Qed.

Lemma reads_item (operationAtStart : bool) (t : parsedToken) :
  itemOk t = true -> reads operationAtStart (itemText operationAtStart t) (itemRead t).
Proof.
  destruct t as [e|s]; cbn [itemOk itemText itemRead]; intros H.
  - apply andb_prop in H as [Hparsed Hstable]. now apply reads_render.
  - destruct (in_operations_token s H) as (Htoken & Hvars & Hnum).
    unfold isToken in Htoken. apply andb_prop in Htoken as [Hne Htoken].
    apply reads_token; [now destruct s | exact Htoken|].
    intros start. unfold classify.
    destruct s as [|c s]; [discriminate|]. cbn [isEmpty].
    now rewrite Hvars, Hnum, H.
Qed.

Lemma closes_delimited (tail : string) : closes tail = true -> delimited tail = true.
Proof.
  destruct tail as [|c tail]; [reflexivity|]. unfold closes.
  cbn [isEmpty startsWith orb delimited]. intros H. apply Ascii.eqb_eq in H as ->.
  reflexivity.
Qed.

(** The loop of [parseOperation] on items separated by one space, up to
    the closing bracket or the end of the input. *)
Lemma parseOperands_items_tail (operationAtStart : bool) (items : list string)
      (ts : list parsedToken) :
  Forall2 (reads operationAtStart) items ts ->
  exists fuel0, forall tail start tokens operationStrings fuel,
    closes tail = true -> fuel0 <= fuel ->
    exists start',
      parseOperands operationAtStart fuel (join " " items ++ tail) start
                    tokens operationStrings
      = Return (collect (tokens, operationStrings) ts, (tail, start')).
Proof.
  induction 1 as [|item t items ts [Hopen [fuel0 Hread]] Hrest [fuel1 Hloop]].
  - exists 1. intros tail start tokens operationStrings [|fuel] Hcloses Hfuel; [lia|].
    cbn [join append parseOperands]. unfold closes in Hcloses. rewrite Hcloses.
    exists start. reflexivity.
  - exists (S (Nat.max fuel0 fuel1)).
    intros tail start tokens operationStrings [|fuel] Hcloses Hfuel; [lia|].
    cbn [parseOperands]. destruct items as [|item2 items].
    + inversion Hrest; subst. cbn [join].
      destruct (Hread tail start fuel (closes_delimited _ Hcloses) ltac:(lia))
        as [start1 Hparse].
      rewrite (opensItem_continues _ (opensItem_app _ _ Hopen)), Hparse. cbn [bind].
      rewrite (closes_skip tail start1 Hcloses).
      destruct (Hloop tail start1
                  (fst (collectOne (tokens, operationStrings) t))
                  (snd (collectOne (tokens, operationStrings) t))
                  fuel Hcloses ltac:(lia)) as [start2 Hend].
      cbn [join append] in Hend. cbn [collect fold_left].
      destruct t; cbn [collectOne fst snd] in Hend |- *; rewrite Hend;
        exists start2; reflexivity.
    + assert (Hopen2 : opensItem (join " " (item2 :: items) ++ tail) = true).
      { destruct (join_head " " item2 items) as [r ->].
        inversion Hrest as [|? ? ? ? [H2 _] _]; subst.
        rewrite append_assoc. now apply opensItem_app. }
      rewrite join_cons by discriminate. rewrite !append_assoc.
      destruct (Hread (" " ++ join " " (item2 :: items) ++ tail) start fuel
                  eq_refl ltac:(lia)) as [start1 Hparse].
      rewrite (opensItem_continues _ (opensItem_app _ _ Hopen)), Hparse. cbn [bind].
      change (skipWhitespaces (" " ++ join " " (item2 :: items) ++ tail) start1)
        with (skipWhitespaces (join " " (item2 :: items) ++ tail) (S start1)).
      rewrite (opensItem_skip _ _ Hopen2).
      destruct (Hloop tail (S start1)
                  (fst (collectOne (tokens, operationStrings) t))
                  (snd (collectOne (tokens, operationStrings) t))
                  fuel Hcloses ltac:(lia)) as [start2 Hend].
      cbn [collect fold_left].
      destruct t; cbn [collectOne fst snd] in Hend |- *; rewrite Hend;
        exists start2; reflexivity.
Qed.

Lemma items_read (operationAtStart : bool) (items : list parsedToken) :
  forallb itemOk items = true ->
  Forall2 (reads operationAtStart) (map (itemText operationAtStart) items)
          (map itemRead items).
Proof.
  intros H. apply Forall2_map, Forall_forall. intros t Ht.
  apply reads_item. rewrite forallb_forall in H. now apply H.
Qed.

(** [parseToken] on a group of items: the loop collects what the items
    give, and the cursor comes to stand at the end of the items. *)
Lemma parseOperands_group (operationAtStart : bool) (items : list parsedToken) :
  forallb itemOk items = true ->
  exists fuel0, forall tail start fuel,
    closes tail = true -> fuel0 <= fuel ->
    parseOperands operationAtStart fuel
                  (join " " (map (itemText operationAtStart) items) ++ tail) start [] []
    = Return (collect ([], []) (map itemRead items),
              (tail, start + String.length
                               (join " " (map (itemText operationAtStart) items)))).
Proof.
  intros Hok.
  destruct (parseOperands_items_tail operationAtStart _ _ (items_read _ _ Hok))
    as [fuel0 Hloop].
  exists fuel0. intros tail start fuel Hcloses Hfuel.
  destruct (Hloop tail start [] [] fuel Hcloses Hfuel) as [start' Hparse].
  pose proof (proj2 (proj2 (parser_spec operationAtStart
                              (start + String.length
                                         (join " " (map (itemText operationAtStart) items)
                                            ++ tail))
                              fuel))
                _ start [] [] eq_refl eq_refl (Forall_nil _)) as Hspec.
  rewrite Hparse in Hspec. rewrite Hparse. clear Hparse. revert Hspec.
  destruct (collect ([], []) (map itemRead items)) as [tokens ops].
  cbn [operandsSpec]. intros (_ & _ & Hpos & _). rewrite length_append in Hpos.
  repeat f_equal. lia.
Qed.

(** X16: a group of items alone, each the text of a tree with stable
    constants or a property name of [operations], in any order and
    number.  Closed, it
    is decided by the checks at the closing bracket on the operands and
    the operation strings collected, and the count of operation strings
    is checked first; not closed, it throws [) expected] at the end of
    the input. *)
Theorem bracketed_group_of_items :
  forall (operationAtStart : bool) (items : list parsedToken),
    forallb itemOk items = true ->
    let text := join " " (map (itemText operationAtStart) items) in
    let tokens := fst (collect ([], []) (map itemRead items)) in
    let operationStrings := snd (collect ([], []) (map itemRead items)) in
    parseWithBrackets operationAtStart ("(" ++ text ++ ")")
    = checkOperation operationAtStart 0 tokens operationStrings
    /\ (List.length operationStrings <> 1 ->
        parseWithBrackets operationAtStart ("(" ++ text ++ ")")
        = Throw (ParseError InvalidOperationError
                   ("Invalid expression (expected one operation per (...) block "
                      ++ "but parsed "
                      ++ decimal (Z.of_nat (List.length operationStrings))
                      ++ " operations)")
                   (Some 0)))
    /\ parseWithBrackets operationAtStart ("(" ++ text)
       = Throw (ParseError InvalidFormatError ") expected"
                           (Some (S (String.length text)))).
Proof.
  intros b items Hok text tokens operationStrings.
  destruct (parseOperands_group b items Hok) as [fuel0 Hloop]. fold text in Hloop.
  assert (Hskip : forall tail k, closes tail = true ->
                    skipWhitespaces (text ++ tail) k = (text ++ tail, k)).
  { intros tail k Hcloses. destruct items as [|t items].
    - subst text. cbn [map join append]. now apply closes_skip.
    - apply opensItem_skip, opensItem_app. subst text. cbn [map].
      destruct (join_head " " (itemText b t) (map (itemText b) items)) as [r ->].
      apply opensItem_app.
      cbn [forallb] in Hok. apply andb_prop in Hok as [Ht _].
      apply (reads_item b t Ht). }
  assert (Hclosed : parseWithBrackets b ("(" ++ text ++ ")")
                    = checkOperation b 0 tokens operationStrings).
  { apply parseWithBrackets_outcome; [reflexivity | apply checkOperation_ends|].
    exists (S (S fuel0)). intros [|[|fuel]] Hfuel; try lia.
    cbn [append parseToken startsWith Ascii.eqb Bool.eqb andb parseOperation advance].
    rewrite (Hskip ")" 1 eq_refl), (Hloop ")" 1 fuel eq_refl ltac:(lia)).
    subst tokens operationStrings.
    destruct (collect ([], []) (map itemRead items)) as [tokens ops].
    cbn [bind fst snd startsWith Ascii.eqb Bool.eqb andb advance].
    destruct (checkOperation b 0 tokens ops); cbn [bind]; eauto. }
  split; [exact Hclosed|]. split.
  - intros Hcount. rewrite Hclosed. unfold checkOperation.
    destruct operationStrings as [|[s index] [|]]; cbn [List.length] in *;
      [reflexivity | congruence | reflexivity].
  - replace ("(" ++ text) with ("(" ++ text ++ "") by now rewrite append_empty_r.
    apply parseWithBrackets_outcome with
      (r := Throw (ParseError InvalidFormatError ") expected"
                              (Some (S (String.length text)))));
      [reflexivity | discriminate|].
    exists (S (S fuel0)). intros [|[|fuel]] Hfuel; try lia.
    cbn [append parseToken startsWith Ascii.eqb Bool.eqb andb parseOperation advance].
    rewrite (Hskip "" 1 eq_refl), (Hloop "" 1 fuel eq_refl ltac:(lia)).
    destruct (collect ([], []) (map itemRead items)) as [tks ops].
    cbn [bind startsWith]. exists 0. reflexivity.
Qed.

Lemma bracketed_group_of_items_witness :
  parsePrefix "(x y)"
  = Throw (ParseError InvalidOperationError
             "Invalid expression (expected one operation per (...) block but parsed 0 operations)"
             (Some 0))
  /\ parsePostfix "(x 2 +"
     = Throw (ParseError InvalidFormatError ") expected" (Some 6)).
Proof.
  split.
  - apply (proj1 (proj2 (bracketed_group_of_items true
                           [Node (Variable_ "x"); Node (Variable_ "y")]
                           ltac:(reflexivity)))).
    vm_compute. discriminate.
  - apply (proj2 (proj2 (bracketed_group_of_items false
                           [Node (Variable_ "x"); Node (Const (of_Z 2));
                            OperationString "+"]
                           ltac:(vm_compute; reflexivity)))).
Defined.

(** ** What follows the expression *)

Lemma skipped_skip (rest : string) (k : nat) :
  skipped rest = true -> skipWhitespaces rest k = (rest, k).
Proof.
  destruct rest as [|c rest]; [reflexivity|]. cbn [skipped skipWhitespaces].
  intros H. apply negb_true_iff in H. now rewrite H.
Qed.

(** X17: the text of a tree with stable constants followed by anything
    that is not white space: [parsePrefix] and [parsePostfix] read the tree, skip
    the white space after it, and throw [Expected end of expression]
    with the offset of the first character that is left. *)
Theorem bracketed_trailing_text :
  forall (operationAtStart : bool) (e : expr) (ws extra : string),
    parsed e = true -> stableConstants e = true ->
    whitespace ws = true -> skipped extra = true -> isEmpty extra = false ->
    delimited (ws ++ extra) = true ->
    parseWithBrackets operationAtStart (render operationAtStart e ++ ws ++ extra)
    = Throw (ParseError InvalidFormatError "Expected end of expression"
               (Some (String.length (render operationAtStart e ++ ws)))).
Proof.
  intros b e ws extra Hparsed Hstable Hws Hskipped Hextra Hdelimited.
  destruct (reads_render b e Hparsed Hstable) as [Hopen [fuel0 Hread]].
  set (text := render b e) in *. set (input := text ++ ws ++ extra).
  unfold parseWithBrackets. fold input.
  assert (Hskip : skipWhitespaces input 0 = (input, 0)).
  { apply opensItem_skip, opensItem_app, Hopen. }
  rewrite Hskip.
  rewrite (parseToken_enough b input (Nat.max (3 * String.length input + 3) fuel0)
             input 0 ltac:(lia) Hskip).
  destruct (Hread (ws ++ extra) 0 (Nat.max (3 * String.length input + 3) fuel0)
              Hdelimited ltac:(lia)) as [start' Hparse].
  fold input in Hparse.
  pose proof (proj1 (parser_spec b (String.length input)
                       (Nat.max (3 * String.length input + 3) fuel0))
                input 0 eq_refl) as Hspec.
  rewrite Hparse in Hspec. cbn [tokenSpec] in Hspec. destruct Hspec as (_ & Hpos & _).
  rewrite Hparse. cbn [bind].
  rewrite (skipWhitespaces_app ws extra start' Hws (fun k => skipped_skip extra k Hskipped)).
  rewrite Hextra. cbn [negb]. do 3 f_equal.
  subst input. rewrite !length_append in *. lia.
Qed.

Lemma bracketed_trailing_text_witness :
  parsePrefix "(negate x) y"
  = Throw (ParseError InvalidFormatError "Expected end of expression" (Some 11)).
Proof.
  apply (bracketed_trailing_text true (Operation Negate [Variable_ "x"]) " " "y");
    reflexivity.
Defined.

(** ** Trees with integer constants are read back as they are *)

Lemma sameNumber_eq (a b : number) : sameNumber a b = true <-> a = b.
Proof.
  split.
  - destruct a as [s1|s1| |s1 m1 e1], b as [s2|s2| |s2 m2 e2]; cbn [sameNumber];
      try discriminate; try reflexivity.
    + intros H. apply Bool.eqb_prop in H. now subst.
    + intros H. apply Bool.eqb_prop in H. now subst.
    + intros H. apply andb_prop in H as [H He]. apply andb_prop in H as [Hs Hm].
      apply Bool.eqb_prop in Hs. apply Pos.eqb_eq in Hm. apply Z.eqb_eq in He.
      now subst.
  - intros <-. destruct a as [s|s| |s m e]; cbn [sameNumber];
      rewrite ?Bool.eqb_reflx, ?Pos.eqb_refl, ?Z.eqb_refl; reflexivity.
Qed.

(** The text of an integer below 2^53 is read by [parseInt] as that
    integer. *)
Lemma safeInteger_read_back (z : Z) :
  (Z.abs z < 2 ^ 53)%Z -> parseInt (Number_toString (of_Z z)) = of_Z z.
Proof.
  intros Hz. destruct (Z.eq_dec z 0) as [->|Hnz]; [reflexivity|].
  rewrite (of_Z_text z ltac:(lia)).
  destruct (Z.abs z) as [|p|p] eqn:Habs; try lia.
  destruct (decimal_positive p) as (Hne & Hdigits & Hvalue).
  set (sign := if (z <? 0)%Z then "-" else "").
  assert (Hsign : sign = "" \/ sign = "+" \/ sign = "-")
    by (subst sign; destruct (z <? 0)%Z; auto).
  destruct (signed_digits sign (decimal (Zpos p)) Hsign Hne Hdigits)
    as (_ & _ & _ & _ & H5).
  rewrite H5, Hvalue. cbn [Z.eqb]. f_equal.
  subst sign.
  destruct (Z.ltb_spec z 0);
    [change (String.eqb "-" "-") with true | change (String.eqb "" "-") with false];
    cbn iota; lia.
Qed.

Lemma exact_reread (e : expr) : exactConstants e = true -> reread e = e.
Proof.
  induction e as [value|varName|o operands IH|] using expr_induction;
    cbn [exactConstants reread]; intros H; try reflexivity.
  - unfold exactConstant in H. apply andb_prop in H as [_ H].
    apply sameNumber_eq in H. now rewrite H.
  - f_equal. rewrite <- (map_id operands) at 2. apply map_ext_in. intros x Hx.
    rewrite Forall_forall in IH. apply IH; [exact Hx|].
    rewrite forallb_forall in H. now apply H.
Qed.

Lemma exact_stable (e : expr) : exactConstants e = true -> stableConstants e = true.
Proof.
  induction e as [value|varName|o operands IH|] using expr_induction;
    cbn [exactConstants stableConstants]; intros H; try reflexivity.
  - unfold exactConstant in H. now apply andb_prop in H as [H _].
  - rewrite forallb_forall in *. rewrite Forall_forall in IH. intros x Hx.
    apply IH; [exact Hx | now apply H].
Qed.

(** X18: the three notations are read back exactly.  For a tree with
    the variables of [vars], operand counts that agree with the arities
    and constants whose text [parseInt] reads as the constant itself,
    [parsePrefix(e.prefix())] and [parsePostfix(e.postfix())] return
    [e], and so does [parse(e.toString())] when the tree has no [mean]
    or [var] node.  Every integer of magnitude below 2^53 is such a
    constant. *)
Theorem integer_trees_read_back :
  (forall e : expr,
      parsed e = true -> exactConstants e = true ->
      (text <- prefix e ;; parsePrefix text) = Return e
      /\ (text <- postfix e ;; parsePostfix text) = Return e
      /\ (fixedArities e = true -> parse (toString e) = Return (Some e)))
  /\ (forall z : Z, (Z.abs z < 2 ^ 53)%Z -> exactConstant (of_Z z) = true).
Proof.
  split.
  - intros e Hparsed Hexact.
    pose proof (exact_stable e Hexact) as Hstable.
    pose proof (exact_reread e Hexact) as Hsame.
    rewrite (prefix_render e Hparsed), (postfix_render e Hparsed). cbn [bind].
    unfold parsePrefix, parsePostfix.
    rewrite !(parseWithBrackets_render _ e Hparsed Hstable), Hsame.
    repeat split. intros Hfixed.
    unfold parse, split_whitespace.
    rewrite (toString_tokens e Hparsed).
    rewrite (trim_join _ (tokensOf_tokens e Hparsed Hstable) (tokensOf_nonempty e)).
    rewrite (split_join _ (tokensOf_tokens e Hparsed Hstable) (tokensOf_nonempty e)).
    rewrite (parseTokens_tokensOf e Hparsed Hstable Hfixed []), Hsame. reflexivity.
  - intros z Hz. unfold exactConstant.
    rewrite (safeInteger_stable z Hz), (safeInteger_read_back z Hz).
    now apply sameNumber_eq.
Qed.

(** ** A group written in the other notation *)












(** ** The places of the errors *)


Lemma checkOperation_error (operationAtStart : bool) (startPos : nat)
      (tokens : list expr) (operationStrings : list (string * nat)) (e : exn) :
  checkOperation operationAtStart startPos tokens operationStrings = Throw e ->
  e = TypeError
  \/ exists text, e = ParseError InvalidOperationError text (Some startPos).
Proof.
  unfold checkOperation.
  destruct operationStrings as [|[s index] [|]];
    try (intros [= <-]; right; eauto; fail).
  destruct (negb _); [intros [= <-]; right; eauto|].
  destruct (List.length tokens =? 0)%nat; [intros [= <-]; right; eauto|].
  destruct (operations_get s) as [p|]; [|intros [= <-]; now left].
  destruct (differs _ 0 && differs _ _); [intros [= <-]; right; eauto|].
  destruct p; cbn [construct]; try discriminate.
  - destruct tokens; discriminate.
  - intros [= <-]. now left.
Qed.

(** The checks at the closing bracket do not depend on the offset, but
    for the offset of the error. *)
Lemma checkOperation_return (operationAtStart : bool) (s s' : nat)
      (tokens : list expr) (operationStrings : list (string * nat)) (e : expr) :
  checkOperation operationAtStart s tokens operationStrings = Return e ->
  checkOperation operationAtStart s' tokens operationStrings = Return e.
Proof.
  intros H.
  pose proof (checkOperation_alike operationAtStart s s' tokens operationStrings) as A.
  rewrite H in A.
  destruct (checkOperation operationAtStart s' tokens operationStrings);
    cbn [alike] in A; [now subst | contradiction | contradiction].
Qed.

Lemma checkOperation_throw (operationAtStart : bool) (s s' : nat)
      (tokens : list expr) (operationStrings : list (string * nat))
      (name : errorClass) (text : string) (pos : nat) :
  checkOperation operationAtStart s tokens operationStrings
  = Throw (ParseError name text (Some pos)) ->
  pos = s
  /\ checkOperation operationAtStart s' tokens operationStrings
     = Throw (ParseError name text (Some s')).
Proof.
  intros H.
  destruct (checkOperation_error _ _ _ _ _ H) as [Hd|[text' Hd]]; [discriminate|].
  injection Hd as -> -> ->. split; [reflexivity|].
  pose proof (checkOperation_alike operationAtStart s s' tokens operationStrings) as A.
  rewrite H in A.
  destruct (checkOperation operationAtStart s' tokens operationStrings) as [e'|e'|] eqn:E;
    cbn [alike] in A; [contradiction| |contradiction].
  destruct (checkOperation_error _ _ _ _ _ E) as [->|[text2 ->]]; [contradiction|].
  cbn [sameError] in A. destruct A as [_ <-]. reflexivity.
Qed.



Lemma opens_skipped (a x : string) : opensItem a = true -> skipped (a ++ x) = true.
Proof.
  destruct a as [|c a]; [discriminate|]. cbn [opensItem append skipped]. intros H.
  now apply andb_prop in H as [H _].
Qed.



Lemma classify_return (tok : string) (s : nat) (t : parsedToken) :
  classify tok s = Return t -> forall s', classify tok s' = Return t.
Proof.
  unfold classify. destruct (isEmpty tok); [discriminate|].
  destruct (includes tok vars); [auto|].
  destruct (negb (isNaN tok)); [auto|].
  destruct (in_operations tok); [auto | discriminate].
Qed.


Lemma classify_unknown (tok : string) (s : nat) :
  isToken tok = true ->
  includes tok vars = false -> isNaN tok = true -> in_operations tok = false ->
  classify tok s
  = Throw (ParseError InvalidFormatError ("Unknown token: " ++ tok) (Some s)).
Proof.
  unfold isToken, classify. intros H -> -> ->. apply andb_prop in H as [H _].
  apply negb_true_iff in H. now rewrite H.
Qed.

Lemma delimitedThen_true (s : string) : delimitedThen s true = delimited s.
Proof. destruct s; reflexivity. Qed.

Lemma delimitedThen_app (s next : string) :
  delimitedThen s (delimited next) = delimited (s ++ next).
Proof. destruct s; reflexivity. Qed.

Lemma sep_app (it x next : string) :
  sep it (x ++ next) true = sep it x (delimited next).
Proof. unfold sep. now rewrite delimitedThen_true, delimitedThen_app. Qed.

Lemma item_opens (b : bool) (it : string) (t : parsedToken) :
  item b it t -> opensItem it = true.
Proof.
  intros H. destruct H as [tok t Htok _|ws body ts e _ _ _]; [|reflexivity].
  unfold isToken in Htok. apply andb_prop in Htok as [Hne Hall].
  apply token_opensItem; [now destruct tok | exact Hall].
Qed.

Lemma items_skipped (b : bool) (body : string) (d : bool) (ts : list parsedToken) :
  items b body d ts -> forall next, skipped next = true -> skipped (body ++ next) = true.
Proof.
  intros H next Hnext. destruct H as [d|it ws body d t ts Hitem _ _ _]; [exact Hnext|].
  rewrite append_assoc. apply opens_skipped. exact (item_opens _ _ _ Hitem).
Qed.

(** *** From a run of the parser to the shape of the input *)



(** *** From the shape of the input to the run of the parser *)

Lemma token_position (b : bool) (fuel : nat) (it rest : string) (start : nat)
      (t : parsedToken) (start' : nat) :
  parseToken b fuel (it ++ rest) start = Return (t, (rest, start')) ->
  start' = start + String.length it.
Proof.
  intros Hparse.
  pose proof (proj1 (parser_spec b (start + String.length (it ++ rest)) fuel)
                (it ++ rest) start eq_refl) as H.
  rewrite Hparse in H. cbn [tokenSpec] in H. destruct H as (_ & Hpos & _).
  rewrite length_append in Hpos. lia.
Qed.

Lemma token_following (tok rest : string) :
  isToken tok = true -> sep tok rest true = true -> delimited rest = true.
Proof.
  unfold isToken, sep. intros H Hsep. apply andb_prop in H as [Hne Hall].
  rewrite delimitedThen_true in Hsep.
  destruct tok as [|c tok]; [discriminate|]. cbn [allChars] in Hall.
  apply andb_prop in Hall as [Hc _]. apply isTokenChar_spec in Hc as (_ & Hc & _).
  cbn [startsWith] in Hsep. now rewrite Hc in Hsep.
Qed.

Lemma grammar_sound (b : bool) :
  (forall it t,
      item b it t ->
      exists fuel0, forall rest start fuel,
        sep it rest true = true -> fuel0 <= fuel ->
        parseToken b fuel (it ++ rest) start
        = Return (t, (rest, start + String.length it)))
  /\ (forall body d ts,
         items b body d ts ->
         exists fuel0, forall next start tokens operationStrings fuel,
           skipped next = true -> delimited next = d -> fuel0 <= fuel ->
           parseOperands b (List.length ts + fuel) (body ++ next) start
                         tokens operationStrings
           = parseOperands b fuel next (start + String.length body)
                           (fst (collect (tokens, operationStrings) ts))
                           (snd (collect (tokens, operationStrings) ts))).
Proof.
  apply (item_items_ind b
           (fun it t =>
              exists fuel0, forall rest start fuel,
                sep it rest true = true -> fuel0 <= fuel ->
                parseToken b fuel (it ++ rest) start
                = Return (t, (rest, start + String.length it)))
           (fun body d ts =>
              exists fuel0, forall next start tokens operationStrings fuel,
                skipped next = true -> delimited next = d -> fuel0 <= fuel ->
                parseOperands b (List.length ts + fuel) (body ++ next) start
                              tokens operationStrings
                = parseOperands b fuel next (start + String.length body)
                                (fst (collect (tokens, operationStrings) ts))
                                (snd (collect (tokens, operationStrings) ts)))).
  - (* a token *)
    intros tok t Htok Hclass.
    pose proof Htok as Htok'. unfold isToken in Htok'.
    apply andb_prop in Htok' as [Hne Hall].
    destruct (reads_token b tok t ltac:(now destruct tok) Hall
                (classify_return _ _ _ Hclass)) as [_ [fuel0 Hread]].
    exists fuel0. intros rest start fuel Hsep Hfuel.
    destruct (Hread rest start fuel (token_following _ _ Htok Hsep) Hfuel)
      as [start' Hparse].
    rewrite Hparse, (token_position _ _ _ _ _ _ _ Hparse). reflexivity.
  - (* a group *)
    intros ws body ts e Hws Hitems [fuel1 Hloop] Hcheck.
    exists (S (S (List.length ts + S fuel1))).
    intros rest start [|[|fuel]] _ Hfuel; try lia.
    rewrite !append_assoc.
    match goal with
    | |- context [parseToken b _ ("(" ++ ?x) _] =>
        change ("(" ++ x) with (String "(" x)
    end.
    cbn [parseToken startsWith Ascii.eqb Bool.eqb andb parseOperation advance].
    rewrite (skipWhitespaces_app ws _ (S start) Hws
               (fun k => skipped_skip _ k (items_skipped _ _ _ _ Hitems (")" ++ rest)
                                                           eq_refl))).
    replace fuel with (List.length ts + S (fuel - List.length ts - 1)) by lia.
    rewrite (Hloop (")" ++ rest) _ [] [] (S (fuel - List.length ts - 1)) eq_refl eq_refl ltac:(lia)).
    cbn [append parseOperands isEmpty startsWith Ascii.eqb Bool.eqb andb orb bind advance].
    rewrite (checkOperation_return b 0 start _ _ _ Hcheck). cbn [bind].
    do 3 f_equal. cbn [String.length]. rewrite !length_append. cbn [String.length]. lia.
  - (* no item *)
    intros d. exists 0. intros next start tokens operationStrings fuel _ _ _.
    cbn [List.length Nat.add append String.length collect fold_left fst snd].
    now rewrite Nat.add_0_r.
  - (* an item, then others *)
    intros it ws body d t ts Hitem [fuel0 Hread] Hws Hsep Hitems [fuel1 Hloop].
    exists (Nat.max fuel0 fuel1).
    intros next start tokens operationStrings fuel Hnext Hd Hfuel.
    rewrite !append_assoc. cbn [List.length Nat.add parseOperands].
    rewrite (opensItem_continues _ (opensItem_app _ _ (item_opens _ _ _ Hitem))).
    assert (Hsep' : sep it (ws ++ body ++ next) true = true).
    { rewrite <- append_assoc, sep_app, Hd. exact Hsep. }
    rewrite (Hread (ws ++ body ++ next) start (List.length ts + fuel) Hsep' ltac:(lia)).
    cbn [bind].
    rewrite (skipWhitespaces_app ws _ _ Hws
               (fun k => skipped_skip _ k (items_skipped _ _ _ _ Hitems next Hnext))).
    replace (start + String.length (it ++ ws ++ body))
      with (start + String.length it + String.length ws + String.length body)
      by (rewrite !length_append; lia).
    cbn [collect fold_left].
    destruct t; cbn [collectOne]; apply Hloop; auto; lia.
Qed.

Lemma failsAt_sound (b : bool) (rest : string) (name : errorClass) (text : string)
      (k : nat) :
  failsAt b rest name text k ->
  opensItem rest = true
  /\ exists fuel0, forall start fuel,
      fuel0 <= fuel ->
      parseToken b fuel rest start = Throw (ParseError name text (Some (start + k))).
Proof.
  induction 1 as [tok rest Htok Hrest Hv Hn Ho
                 |ws body rest ts name text Hws Hitems Hcheck
                 |ws body ts Hws Hitems
                 |ws body post ts name text k Hws Hitems Hfail [Hopen [fuel2 Hthrow]]].
  - (* an unknown token *)
    pose proof Htok as Htok'. unfold isToken in Htok'.
    apply andb_prop in Htok' as [Hne Hall].
    assert (Hd : delimited (tok ++ rest) = false).
    { destruct tok as [|c tok]; [discriminate|]. cbn [append delimited].
      cbn [allChars] in Hall. apply andb_prop in Hall as [-> _]. reflexivity. }
    split; [apply opensItem_app, token_opensItem; [now destruct tok | exact Hall]|].
    exists 1. intros start [|fuel] Hfuel; [lia|]. cbn [parseToken].
    rewrite (proj1 (startsWith_token _ Hd)), (span_token _ _ Hall Hrest).
    rewrite (classify_unknown tok start Htok Hv Hn Ho). cbn [bind].
    now rewrite Nat.add_0_r.
  - (* a group whose checks fail *)
    split; [reflexivity|].
    destruct (proj2 (grammar_sound b) body true ts Hitems) as [fuel1 Hloop].
    exists (S (S (List.length ts + S fuel1))).
    intros start [|[|fuel]] Hfuel; try lia.
    match goal with
    | |- context [parseToken b _ ("(" ++ ?x) _] =>
        change ("(" ++ x) with (String "(" x)
    end.
    cbn [parseToken startsWith Ascii.eqb Bool.eqb andb parseOperation advance].
    rewrite (skipWhitespaces_app ws _ (S start) Hws
               (fun k => skipped_skip _ k (items_skipped _ _ _ _ Hitems (")" ++ rest)
                                                           eq_refl))).
    replace fuel with (List.length ts + S (fuel - List.length ts - 1)) by lia.
    rewrite (Hloop (")" ++ rest) _ [] [] (S (fuel - List.length ts - 1)) eq_refl eq_refl ltac:(lia)).
    cbn [append parseOperands isEmpty startsWith Ascii.eqb Bool.eqb andb orb bind advance].
    rewrite (proj2 (checkOperation_throw b 0 start _ _ _ _ _ Hcheck)). cbn [bind].
    now rewrite Nat.add_0_r.
  - (* a group that is not closed *)
    split; [reflexivity|].
    destruct (proj2 (grammar_sound b) body true ts Hitems) as [fuel1 Hloop].
    exists (S (S (List.length ts + S fuel1))).
    intros start [|[|fuel]] Hfuel; try lia.
    replace ("(" ++ ws ++ body) with ("(" ++ ws ++ body ++ "")
      by now rewrite append_empty_r.
    match goal with
    | |- context [parseToken b _ ("(" ++ ?x) _] =>
        change ("(" ++ x) with (String "(" x)
    end.
    cbn [parseToken startsWith Ascii.eqb Bool.eqb andb parseOperation advance].
    rewrite (skipWhitespaces_app ws _ (S start) Hws
               (fun k => skipped_skip _ k (items_skipped _ _ _ _ Hitems "" eq_refl))).
    replace fuel with (List.length ts + S (fuel - List.length ts - 1)) by lia.
    rewrite (Hloop "" _ [] [] (S (fuel - List.length ts - 1)) eq_refl eq_refl ltac:(lia)).
    cbn [parseOperands isEmpty orb bind startsWith].
    do 3 f_equal. lia.
  - (* a group in which an item fails *)
    split; [reflexivity|].
    destruct (proj2 (grammar_sound b) body (delimited post) ts Hitems) as [fuel1 Hloop].
    exists (S (S (List.length ts + S (S (Nat.max fuel1 fuel2))))).
    intros start [|[|fuel]] Hfuel; try lia.
    pose proof (opens_skipped post "" Hopen) as Hsk. rewrite append_empty_r in Hsk.
    match goal with
    | |- context [parseToken b _ ("(" ++ ?x) _] =>
        change ("(" ++ x) with (String "(" x)
    end.
    cbn [parseToken startsWith Ascii.eqb Bool.eqb andb parseOperation advance].
    rewrite (skipWhitespaces_app ws _ (S start) Hws
               (fun k => skipped_skip _ k (items_skipped _ _ _ _ Hitems post Hsk))).
    replace fuel with (List.length ts + S (fuel - List.length ts - 1)) by lia.
    rewrite (Hloop post _ [] [] (S (fuel - List.length ts - 1)) Hsk eq_refl ltac:(lia)).
    cbn [parseOperands]. rewrite (opensItem_continues _ Hopen).
    rewrite (Hthrow _ (fuel - List.length ts - 1) ltac:(lia)). cbn [bind].
    do 3 f_equal. lia.
Qed.

Lemma errorAt_sound (b : bool) (s : string) (name : errorClass) (text : string)
      (pos : nat) :
  errorAt b s name text pos ->
  parseWithBrackets b s = Throw (ParseError name text (Some pos)).
Proof.
  intros [lead rest Hlead Hcloses
         |lead rest name' text' k Hlead Hfail
         |lead it ws rest t Hlead Hitem Hws Hsep Hrest Hsk].
  - (* nothing where a token should stand *)
    unfold parseWithBrackets.
    rewrite (skipWhitespaces_app lead rest 0 Hlead (fun k => closes_skip rest k Hcloses)).
    replace (3 * String.length (lead ++ rest) + 3)
      with (S (3 * String.length (lead ++ rest) + 2)) by lia.
    cbn [parseToken]. destruct (closes_span rest Hcloses) as [-> ->]. reflexivity.
  - (* an error of [parseToken] *)
    destruct (failsAt_sound b rest name' text' k Hfail) as [Hopen [fuel0 Hthrow]].
    assert (Hskip : skipWhitespaces (lead ++ rest) 0 = (rest, 0 + String.length lead))
      by exact (skipWhitespaces_app lead rest 0 Hlead
                  (fun k => opensItem_skip rest k Hopen)).
    unfold parseWithBrackets. rewrite Hskip.
    rewrite (parseToken_enough b (lead ++ rest)
               (Nat.max (3 * String.length (lead ++ rest) + 3) fuel0)
               rest _ ltac:(lia) Hskip).
    now rewrite (Hthrow _ (Nat.max (3 * String.length (lead ++ rest) + 3) fuel0)
                   ltac:(lia)).
  - (* something after the expression *)
    destruct (proj1 (grammar_sound b) it t Hitem) as [fuel0 Hread].
    set (input := lead ++ it ++ ws ++ rest).
    assert (Hskip : skipWhitespaces input 0
                    = (it ++ ws ++ rest, 0 + String.length lead))
      by exact (skipWhitespaces_app lead _ 0 Hlead
                  (fun k => opensItem_skip _ k
                              (opensItem_app _ _ (item_opens _ _ _ Hitem)))).
    unfold parseWithBrackets. rewrite Hskip.
    rewrite (parseToken_enough b input (Nat.max (3 * String.length input + 3) fuel0)
               _ _ ltac:(lia) Hskip).
    rewrite (Hread (ws ++ rest) _ (Nat.max (3 * String.length input + 3) fuel0)
               Hsep ltac:(lia)). cbn [bind].
    rewrite (skipWhitespaces_app ws rest _ Hws (fun k => skipped_skip rest k Hsk)).
    now rewrite Hrest.
Qed.



(** X15: the shape of the input fixes the error and its offset, to any
    depth of nesting.  When the input is, after white space, an unknown
    token, or a group whose items are read and on which the checks at
    the closing bracket fail, or a group that is not closed, or any of
    these after the items read of a group that is open (and so on
    inwards), or an item followed by something else, or nothing where
    the expression should begin, then [parsePrefix] and [parsePostfix]
    throw the error of that shape, with the offset of that place: for
    a failing group the offset of its own opening bracket, whatever
    stands around it.  No input has two such shapes. *)
Theorem bracketed_error_offsets :
  forall (operationAtStart : bool) (expression : string)
         (name : errorClass) (text : string) (pos : nat),
    errorAt operationAtStart expression name text pos ->
    parseWithBrackets operationAtStart expression
    = Throw (ParseError name text (Some pos))
    /\ (forall name' text' pos',
           errorAt operationAtStart expression name' text' pos' ->
           name' = name /\ text' = text /\ pos' = pos).
Proof.
  intros b expression name text pos Hshape.
  pose proof (errorAt_sound b expression name text pos Hshape) as Hthrow.
  split; [exact Hthrow|].
  intros name' text' pos' Hshape'.
  pose proof (errorAt_sound b expression name' text' pos' Hshape') as Hthrow'.
  rewrite Hthrow in Hthrow'. injection Hthrow' as <- <- <-. auto.
Qed.

Lemma bracketed_error_offsets_witness :
  parsePrefix "(+ x (* 2 (y negate)) z)"
  = Throw (ParseError InvalidOperationError
                      "Invalid operation position (operation: negate)" (Some 10)).
Proof.
  apply (proj1 (bracketed_error_offsets
                  true "(+ x (* 2 (y negate)) z)" InvalidOperationError
                  "Invalid operation position (operation: negate)" 10
                  (error_within true "" "(+ x (* 2 (y negate)) z)" _ _ 10 eq_refl
                     (fails_inside true "" "+ x " "(* 2 (y negate)) z)"
                        [OperationString "+"; Node (Variable_ "x")] _ _ 5 eq_refl
                        (items_cons true "+" " " "x " true _ _
                           (item_token true "+" (OperationString "+") eq_refl eq_refl)
                           eq_refl eq_refl
                           (items_cons true "x" " " "" true _ _
                              (item_token true "x" (Node (Variable_ "x")) eq_refl eq_refl)
                              eq_refl eq_refl (items_nil true true)))
                        (fails_inside true "" "* 2 " "(y negate)) z)"
                           [OperationString "*"; Node (Const (of_Z 2))] _ _ 0 eq_refl
                           (items_cons true "*" " " "2 " true _ _
                              (item_token true "*" (OperationString "*") eq_refl eq_refl)
                              eq_refl eq_refl
                              (items_cons true "2" " " "" true _ _
                                 (item_token true "2" (Node (Const (of_Z 2)))
                                    eq_refl eq_refl)
                                 eq_refl eq_refl (items_nil true true)))
                           (fails_check true "" "y negate" ") z)"
                              [Node (Variable_ "y"); OperationString "negate"] _ _
                              eq_refl
                              (items_cons true "y" " " "negate" true _ _
                                 (item_token true "y" (Node (Variable_ "y"))
                                    eq_refl eq_refl)
                                 eq_refl eq_refl
                                 (items_cons true "negate" "" "" true _ _
                                    (item_token true "negate" (OperationString "negate")
                                       eq_refl eq_refl)
                                    eq_refl eq_refl (items_nil true true)))
                              eq_refl)))))).
Defined.
